(** * pymadcad geometric kernel: spatial hashing, mesh topology, ear clipping

    A shallow embedding of [hashing.py], [madcad/mesh.py] and
    [madcad/triangulation.py].

    Conventions of the embedding
    - point indices are [Z] (Python ints), face and edge positions in a list
      are [nat];
    - coordinates are exact rationals [Q]; the square root hidden in glm's
      [length] and [normalize] is taken as a section variable wherever a
      function needs it;
    - Python exceptions are values of [exn], carried by the [result] monad;
    - a Python [set] is a [gset], a [dict] a [gmap]; a list used as a LIFO
      stack keeps its top at the head. *)

From Stdlib Require Import ZArith QArith Qround Qabs Qminmax Lia Lqa List Bool.
From stdpp Require Import gmap list.
Import ListNotations.
Open Scope Z_scope.

(** ** Exceptions and the result monad *)

Inductive exn : Type :=
| MeshError
| AttributeError
| UnboundLocalError
| IndexError
| TypeError
| ValueError
| ZeroDivisionError.

Inductive result (A : Type) : Type :=
| Ok (a : A)
| Raise (e : exn)
| OutOfFuel.
Arguments Ok {A} a.
Arguments Raise {A} e.
Arguments OutOfFuel {A}.

Definition rbind {A B : Type} (r : result A) (k : A -> result B) : result B :=
  match r with
  | Ok a => k a
  | Raise e => Raise e
  | OutOfFuel => OutOfFuel
  end.

Notation "x <-- c ;; k" := (rbind c (fun x => k))
  (at level 100, c at next level, right associativity).

(** [l[i]] for a non-negative position [i]. *)
Definition py_get {A : Type} (l : list A) (i : nat) : result A :=
  match l !! i with
  | Some a => Ok a
  | None => Raise IndexError
  end.

(** ** Vectors (the glm facade of madcad/mathutils.py) *)

Definition vec3 : Type := Q * Q * Q.

Module Vec.

Definition vx (p : vec3) : Q := p.1.1.
Definition vy (p : vec3) : Q := p.1.2.
Definition vz (p : vec3) : Q := p.2.

(** [p[i]] for [i] in [range(3)] *)
Definition vget (p : vec3) (i : nat) : Q :=
  match i with O => vx p | 1%nat => vy p | _ => vz p end.

Definition vadd (p q : vec3) : vec3 := (vx p + vx q, vy p + vy q, vz p + vz q)%Q.
Definition vsub (p q : vec3) : vec3 := (vx p - vx q, vy p - vy q, vz p - vz q)%Q.
Definition vscale (k : Q) (p : vec3) : vec3 := (k * vx p, k * vy p, k * vz p)%Q.
Definition vabs (p : vec3) : vec3 := (Qabs (vx p), Qabs (vy p), Qabs (vz p)).
Definition vmin (p q : vec3) : vec3 :=
  (Qmin (vx p) (vx q), Qmin (vy p) (vy q), Qmin (vz p) (vz q)).
Definition vmax (p q : vec3) : vec3 :=
  (Qmax (vx p) (vx q), Qmax (vy p) (vy q), Qmax (vz p) (vz q)).
Definition dot (p q : vec3) : Q := (vx p * vx q + vy p * vy q + vz p * vz q)%Q.
Definition cross (p q : vec3) : vec3 :=
  (vy p * vz q - vz p * vy q, vz p * vx q - vx p * vz q, vx p * vy q - vy p * vx q)%Q.

(** Python's and glm's [x % y] on floats: the remainder has the sign of [y]. *)
Definition qmod (x y : Q) : Q := (x - y * inject_Z (Qfloor (x / y)))%Q.

(** glm converts a float to an int as C does, dropping the fractional part
    (rounding toward zero): this is what [ivec3(v)] applies to each
    component. *)
Definition qtrunc (x : Q) : Z := if Qle_bool 0 x then Qfloor x else Qceiling x.

(** An exact square root on the squares of rationals, the integer square
    root of the numerator elsewhere; it instantiates the square-root
    variable of the sections below on concrete inputs. *)
Definition sqrt_exact (x : Q) : Q :=
  Z.sqrt (Qnum x * Z.pos (Qden x)) # Qden x.

Section WithSqrt.
Variable sqrtQ : Q -> Q.
Definition length (p : vec3) : Q := sqrtQ (dot p p).
(** [normalize(p)]; [None] stands for the vector of NaN that glm returns
    for the null vector. *)
Definition normalize (p : vec3) : option vec3 :=
  let l := length p in
  if Qeq_bool l 0 then None else Some (vscale (/ l) p).
End WithSqrt.

End Vec.

(** ** Mesh containers (madcad/mesh.py) *)
Definition face : Type := Z * Z * Z.
Definition edge : Type := Z * Z.

Module Mesh.

Record t : Type := Mesh {
  points : list vec3;
  faces : list face;
  tracks : list Z;
  groups : list (option nat)
}.

(** [f[i]] for [i] in [range(3)], and [f[i-1]] with Python's wrap-around. *)
Definition fget (f : face) (i : nat) : Z :=
  let '(a, b, c) := f in
  match i with O => a | 1%nat => b | _ => c end.
Definition fget_prev (f : face) (i : nat) : Z :=
  let '(a, b, c) := f in
  match i with O => c | 1%nat => a | _ => b end.

Definition face_degenerate (f : face) : bool :=
  let '(a, b, c) := f in
  bool_decide (a = b) || bool_decide (b = c) || bool_decide (c = a).

(** [((face[0],face[1]), (face[1],face[2]), (face[2],face[0]))] *)
Definition face_edges (f : face) : list edge :=
  let '(a, b, c) := f in [(a, b); (b, c); (c, a)].

(** [Mesh.check]: raise [MeshError] when the buffers are inconsistent. *)
Definition check_face (l : Z) (f : face) : result unit :=
  let '(a, b, c) := f in
  let chk (p : Z) : result unit :=
    if bool_decide (l <= p) then Raise MeshError
    else if bool_decide (p < 0) then Raise MeshError
    else Ok tt in
  _ <-- chk a ;; _ <-- chk b ;; _ <-- chk c ;;
  if face_degenerate f then Raise MeshError else Ok tt.

Fixpoint check_faces (l : Z) (fs : list face) : result unit :=
  match fs with
  | [] => Ok tt
  | f :: fs' => _ <-- check_face l f ;; check_faces l fs'
  end.

(** [max(tracks, default=-1)] *)
Definition max_track (ts : list Z) : Z :=
  match ts with
  | [] => -1
  | t0 :: ts' => fold_left Z.max ts' t0
  end.

Definition check (m : t) : result unit :=
  _ <-- check_faces (Z.of_nat (length (points m))) (faces m) ;;
  if negb (Nat.eqb (length (faces m)) (length (tracks m))) then Raise MeshError
  else if bool_decide (Z.of_nat (length (groups m)) <= max_track (tracks m))
       then Raise MeshError
       else Ok tt.

(** [Mesh.flip] *)
Definition flip_face (f : face) : face := let '(a, b, c) := f in (a, c, b).
Definition flip (m : t) : t :=
  Mesh (points m) (map flip_face (faces m)) (tracks m) (groups m).

(** [Mesh.edges_oriented]: the oriented edges in the order they are yielded. *)
Definition edges_oriented (m : t) : list edge :=
  concat (map face_edges (faces m)).

Definition rev_edge (e : edge) : edge := (e.2, e.1).

(** One iteration of the body of [outlines_oriented]:
    [if e in edges: edges.remove(e)  else: edges.add((e[1], e[0]))]. *)
Definition outline_step (s : gset edge) (e : edge) : gset edge :=
  if decide (e ∈ s) then s ∖ {[ e ]} else s ∪ {[ rev_edge e ]}.

Definition outlines_oriented (m : t) : gset edge :=
  fold_left (fun s f => fold_left outline_step (face_edges f) s) (faces m) ∅.

(** [Mesh.issurface] *)
Fixpoint issurface_loop (reached : gset edge) (es : list edge) : bool :=
  match es with
  | [] => true
  | e :: es' =>
      if decide (e ∈ reached) then false
      else issurface_loop (reached ∪ {[ e ]}) es'
  end.
Definition issurface (m : t) : bool := issurface_loop ∅ (edges_oriented m).

Definition isenvelope (m : t) : bool :=
  Nat.eqb (size (outlines_oriented m)) 0.

(** [edgekey]: a key for a non-directional edge *)
Definition edgekey (a b : Z) : edge := if a <? b then (a, b) else (b, a).

(** [if e in edges: edges.remove(e)  else: edges.add(e)] *)
Definition toggle (s : gset edge) (e : edge) : gset edge :=
  if decide (e ∈ s) then s ∖ {[ e ]} else s ∪ {[ e ]}.

(** [Mesh.outlines_unoriented] *)
Definition outlines_unoriented (m : t) : gset edge :=
  fold_left (fun s f =>
    fold_left (fun s e => toggle s (edgekey e.1 e.2)) (face_edges f) s) (faces m) ∅.

(** [connef]: oriented edge to face position, last write wins. *)
Definition connef_face (conn : gmap edge nat) (i : nat) (f : face) : gmap edge nat :=
  fold_left (fun c e => <[ e := i ]> c) (face_edges f) conn.

Fixpoint connef_from (conn : gmap edge nat) (i : nat) (fs : list face) : gmap edge nat :=
  match fs with
  | [] => conn
  | f :: fs' => connef_from (connef_face conn i f) (S i) fs'
  end.
Definition connef (fs : list face) : gmap edge nat := connef_from ∅ 0 fs.

(** *** Propagation over face adjacency ([Mesh.propagate]) *)

Section Propagate.
Context {St : Type}.
(** the visitor callbacks, threading whatever state they close over *)
Variable atface : nat -> list bool -> St -> result St.
Variable atisland : option (list bool -> St -> result St).

(** The default [find]:
    [for i in range(start[0], len(reached)): if not reached[i]: push; break]
    followed by [start[0] = i].  [bound] is the loop variable [i], [None]
    while no iteration has assigned it. *)
Fixpoint find_loop (reached : list bool) (i n : nat) (bound : option nat)
    (stack : list nat) : option nat * list nat :=
  match n with
  | O => (bound, stack)
  | S n' =>
      match reached !! i with
      | Some false => (Some i, i :: stack)
      | _ => find_loop reached (S i) n' (Some i) stack
      end
  end.

Definition find (start : nat) (stack : list nat) (reached : list bool)
    : result (nat * list nat) :=
  match find_loop reached start (length reached - start) None stack with
  | (Some i, stack') => Ok (i, stack')
  | (None, _) => Raise UnboundLocalError
  end.

(** [for i in range(3): e = f[i],f[i-1]; if e in conn and not
    reached[conn[e]]: stack.append(conn[e])] *)
Fixpoint push_neighbors (conn : gmap edge nat) (reached : list bool)
    (f : face) (ks : list nat) (stack : list nat) : result (list nat) :=
  match ks with
  | [] => Ok stack
  | k :: ks' =>
      match conn !! (fget f k, fget_prev f k) with
      | Some j =>
          r <-- py_get reached j ;;
          push_neighbors conn reached f ks' (if r then stack else j :: stack)
      | None => push_neighbors conn reached f ks' stack
      end
  end.

(** Pop the entries that are already reached ([continue]). *)
Fixpoint skip_reached (reached : list bool) (stack : list nat)
    : result (list nat) :=
  match stack with
  | [] => Ok []
  | i :: rest =>
      r <-- py_get reached i ;;
      if r then skip_reached reached rest else Ok stack
  end.

(** The inner [while stack] loop; [fuel] bounds the number of faces that
    are marked, which never exceeds the number of unreached faces. *)
Fixpoint drain (fuel : nat) (fs : list face) (conn : gmap edge nat)
    (reached : list bool) (stack : list nat) (s : St)
    : result (list bool * St) :=
  stack' <-- skip_reached reached stack ;;
  match stack' with
  | [] => Ok (reached, s)
  | i :: rest =>
      match fuel with
      | O => OutOfFuel
      | S fuel' =>
          let reached' := <[ i := true ]> reached in
          s' <-- atface i reached' s ;;
          f <-- py_get fs i ;;
          stack'' <-- push_neighbors conn reached' f [0; 1; 2]%nat rest ;;
          drain fuel' fs conn reached' stack'' s'
      end
  end.

(** The outer [while True] loop. *)
Fixpoint islands_loop (fuel : nat) (fs : list face) (conn : gmap edge nat)
    (start : nat) (reached : list bool) (s : St) : result St :=
  found <-- find start [] reached ;;
  let '(start', stack) := found in
  match stack with
  | [] => Ok s
  | _ =>
      match fuel with
      | O => OutOfFuel
      | S fuel' =>
          drained <-- drain (length fs) fs conn reached stack s ;;
          let '(reached', s') := drained in
          s'' <-- match atisland with
                  | Some cb => cb reached' s'
                  | None => Ok s'
                  end ;;
          islands_loop fuel' fs conn start' reached' s''
      end
  end.

(** [propagate(atface, atisland, find=None, conn)]; an absent or empty
    [conn] is replaced by [connef(self.faces)]. *)
Definition propagate (m : t) (conn : option (gmap edge nat)) (s : St) : result St :=
  let conn' :=
    match conn with
    | Some c => if decide (c = ∅) then connef (faces m) else c
    | None => connef (faces m)
    end in
  islands_loop (S (length (faces m))) (faces m) conn' 0
    (replicate (length (faces m)) false) s.
End Propagate.

(** [Mesh.islands] (the second definition of the class, which is the one in
    effect): the visitors collect faces and tracks, then cut an island. *)
Definition islands_atface (m : t) (i : nat) (_ : list bool)
    (s : list face * list Z * list t) : result (list face * list Z * list t) :=
  let '(fs, ts, isl) := s in
  f <-- py_get (faces m) i ;;
  tr <-- py_get (tracks m) i ;;
  Ok (fs ++ [f], ts ++ [tr], isl).

Definition islands_atisland (m : t) (_ : list bool)
    (s : list face * list Z * list t) : result (list face * list Z * list t) :=
  let '(fs, ts, isl) := s in
  Ok ([], [], isl ++ [Mesh (points m) fs ts (groups m)]).

Definition islands (m : t) (conn : option (gmap edge nat)) : result (list t) :=
  s <-- propagate (islands_atface m) (Some (islands_atisland m)) m conn ([], [], []) ;;
  Ok s.2.

(** *** Vocabulary of the statements about outlines *)

(** the edge-wise reversal of a set of oriented edges *)
Definition rev_set (s : gset edge) : gset edge := set_map rev_edge s.

(** no edge is present together with its reversal *)
Definition one_way (s : gset edge) : Prop := forall e, e ∈ s -> rev_edge e ∉ s.

Definition proper_edge (e : edge) : Prop := e.1 <> e.2.

Definition nondegenerate (m : t) : Prop :=
  Forall (fun f => face_degenerate f = false) (faces m).

(** every oriented edge of the mesh and of its flipped copy *)
Definition all_oriented_edges (m : t) : gset edge :=
  list_to_set (edges_oriented m) ∪ list_to_set (edges_oriented (flip m)).

(** two triangles glued along their three edges: a closed surface *)
Definition glued : t :=
  Mesh [(0, 0, 0); (1, 0, 0); (0, 1, 0)]%Q [(0, 1, 2); (0, 2, 1)] [0; 0] [None].

End Mesh.

(** ** Spatial hashing (hashing.py) *)

Inductive pyval : Type :=
| PyNone
| PyInt (z : Z).

Module Hashing.
Import Vec.

Definition cell : Type := Z * Z * Z.

(** [tuple(ivec3(p/cell))] *)
Definition ivec3_key (h : Q) (p : vec3) : cell :=
  (qtrunc (vx p / h), qtrunc (vy p / h), qtrunc (vz p / h)).

(** The primitives [keysfor] dispatches on; [Unsupported] is any other
    Python value. *)
Inductive space : Type :=
| Point (p : vec3)
| Segment (a b : vec3)
| Triangle (a b c : vec3)
| Unsupported.

(** A float that may be [+inf] (the result of dividing by a null
    component). *)
Inductive efloat : Type :=
| Fin (q : Q)
| PInf.

Definition Qlt_bool (x y : Q) : bool := negb (Qle_bool y x).

Definition elt (a b : efloat) : bool :=
  match a, b with
  | Fin x, Fin y => Qlt_bool x y
  | Fin _, PInf => true
  | PInf, _ => false
  end.

(** *** Segments *)

(** [glm.abs((cell - p%cell)/v)] *)
Definition seg_prox (h : Q) (p v : vec3) : list efloat :=
  map (fun i => if Qeq_bool (vget v i) 0 then PInf
                else Fin (Qabs ((h - qmod (vget p i) h) / vget v i)))
      [0; 1; 2]%nat.

(** [i = 0; if prox[1] < prox[i]: i=1; if prox[1] < prox[i]: i=2] *)
Definition seg_axis (prox : list efloat) : nat :=
  let i := 0%nat in
  let i := if elt (nth 1 prox PInf) (nth i prox PInf) then 1%nat else i in
  let i := if elt (nth 1 prox PInf) (nth i prox PInf) then 2%nat else i in
  i.

(** The [while dot(space[1]-p,v) >= 0] loop.  A yielded [None] is the key of
    a point with non-finite coordinates, which arises when the selected
    [prox] is infinite; the loop test then fails on NaN. *)
Fixpoint seg_loop (fuel : nat) (h : Q) (b v p : vec3) : result (list (option cell)) :=
  if Qle_bool 0 (dot (vsub b p) v) then
    match fuel with
    | O => OutOfFuel
    | S fuel' =>
        let prox := seg_prox h p v in
        match nth (seg_axis prox) prox PInf with
        | PInf => Ok [None]
        | Fin t =>
            let a := vscale t v in
            rest <-- seg_loop fuel' h b v (vadd p a) ;;
            Ok (Some (ivec3_key h (vadd p (vscale (1 # 2) a))) :: rest)
        end
    end
  else Ok [].

Definition keysfor_segment (sqrtQ : Q -> Q) (fuel : nat) (h : Q) (a b : vec3)
    : result (list (option cell)) :=
  match normalize sqrtQ (vsub b a) with
  | None => Ok [Some (ivec3_key h a)]
  | Some v =>
      rest <-- seg_loop fuel h b v a ;;
      Ok (Some (ivec3_key h a) :: rest)
  end.

(** *** Triangles *)

(** permutation of coordinates to get the normal the closer to Z *)
Definition tri_order (a b c : vec3) : nat * nat * nat :=
  let n := vabs (cross (vsub b a) (vsub c a)) in
  if Qle_bool (vx n) (vy n) && Qle_bool (vz n) (vy n) then (2, 0, 1)%nat
  else if Qle_bool (vy n) (vx n) && Qle_bool (vz n) (vx n) then (1, 2, 0)%nat
  else (0, 1, 2)%nat.

(** [vec3(p[order[0]], p[order[1]], p[order[2]])] *)
Definition permute (order : nat * nat * nat) (p : vec3) : vec3 :=
  (vget p order.1.1, vget p order.1.2, vget p order.2).

(** [min(cand)] and [max(cand)] *)
Definition py_min (l : list Q) : result Q :=
  match l with
  | [] => Raise ValueError
  | x :: l' => Ok (fold_left Qmin l' x)
  end.
Definition py_max (l : list Q) : result Q :=
  match l with
  | [] => Raise ValueError
  | x :: l' => Ok (fold_left Qmax l' x)
  end.

(** [range(max(1, ceil(w/cell)))] *)
Definition steps (w h : Q) : list nat :=
  seq 0 (Z.to_nat (Z.max 1 (Qceiling (w / h)))).

(** [[lo+cell*i+cell2 for i in range(max(1,ceil((hi-lo)/cell)))]] after
    [lo -= lo%cell] *)
Definition centers (h lo hi : Q) : list Q :=
  let lo' := (lo - qmod lo h)%Q in
  map (fun i => (lo' + h * inject_Z (Z.of_nat i) + h / 2)%Q) (steps (hi - lo') h).

(** the candidates that edge [i] (from [prev] to [cur], with [v = prev - cur])
    contributes in the slice centred on [x] *)
Definition edge_cand (h x : Q) (prev cur : vec3) : list Q :=
  let v := vsub prev cur in
  let cell2 := (h / 2)%Q in
  if Qle_bool ((vx prev - x + cell2) * (vx cur - x - cell2)) 0
     || Qle_bool ((vx prev - x - cell2) * (vx cur - x + cell2)) 0
  then
    let slope := if Qeq_bool (vx v) 0 then 0%Q else (vy v / vx v)%Q in
    [ (vy cur + slope * (x - cell2 - vx cur))%Q;
      (vy cur + slope * (x + cell2 - vx cur))%Q ]
  else [].

Definition y_slice (h : Q) (s0 s1 s2 : vec3) (x : Q) : result (list (Q * Q)) :=
  let cand := edge_cand h x s2 s0 ++ edge_cand h x s0 s1 ++ edge_cand h x s1 s2 in
  ymin <-- py_min cand ;;
  ymax <-- py_max cand ;;
  Ok (map (fun y => (x, y)) (centers h ymin ymax)).

Fixpoint y_selection (h : Q) (s0 s1 s2 : vec3) (xpts : list Q) : result (list (Q * Q)) :=
  match xpts with
  | [] => Ok []
  | x :: xpts' =>
      ys <-- y_slice h s0 s1 s2 x ;;
      rest <-- y_selection h s0 s1 s2 xpts' ;;
      Ok (ys ++ rest)
  end.

Definition z_column (h : Q) (o : vec3) (dx dy : Q) (xy : Q * Q) : list vec3 :=
  let '(x, y) := xy in
  let cell2 := (h / 2)%Q in
  let f := fun x y => (vz o + dx * (x - vx o) + dy * (y - vy o))%Q in
  let cand := [ f (x - cell2) (y - cell2); f (x + cell2) (y - cell2);
                f (x - cell2) (y + cell2); f (x + cell2) (y + cell2) ]%Q in
  let zmin := fold_left Qmin (tl cand) (f (x - cell2) (y - cell2))%Q in
  let zmax := fold_left Qmax (tl cand) (f (x - cell2) (y - cell2))%Q in
  map (fun z => (x, y, z)) (centers h zmin zmax).

(** [pmin<p and p<pmax] on the three coordinates *)
Definition in_area (pmin pmax p : vec3) : bool :=
  Qlt_bool (vx pmin) (vx p) && Qlt_bool (vy pmin) (vy p) && Qlt_bool (vz pmin) (vz p)
  && Qlt_bool (vx p) (vx pmax) && Qlt_bool (vy p) (vy pmax) && Qlt_bool (vz p) (vz pmax).

(** [tuple([floor(p[order[i]]/cell) for i in range(3)])] *)
Definition emit (h : Q) (order : nat * nat * nat) (p : vec3) : cell :=
  (Qfloor (vget p order.1.1 / h), Qfloor (vget p order.1.2 / h),
   Qfloor (vget p order.2 / h)).

Definition keysfor_triangle (h : Q) (a b c : vec3) : result (list cell) :=
  let order := tri_order a b c in
  let s0 := permute order a in
  let s1 := permute order b in
  let s2 := permute order c in
  let v0 := vsub s2 s0 in
  let v1 := vsub s0 s1 in
  let n := cross v0 v1 in
  if Qeq_bool (vz n) 0 then Raise ZeroDivisionError
  else
    let dx := (- vx n / vz n)%Q in
    let dy := (- vy n / vz n)%Q in
    let pmin := vmin (vmin s0 s1) s2 in
    let pmax := vmax (vmax s0 s1) s2 in
    let xpts := centers h (vx pmin) (vx pmax) in
    ypts <-- y_selection h s0 s1 s2 xpts ;;
    let zpts := flat_map (z_column h s0 dx dy) ypts in
    let pmin' := (vx pmin - qmod (vx pmin) h, vy pmin - qmod (vy pmin) h,
                  vz pmin - qmod (vz pmin) h)%Q in
    let pmax' := (vx pmax + (h - qmod (vx pmax) h), vy pmax + (h - qmod (vy pmax) h),
                  vz pmax + (h - qmod (vz pmax) h))%Q in
    Ok (map (emit h order) (List.filter (in_area pmin' pmax') zpts)).

(** *** PositionMap *)

Record PositionMap : Type := {
  pm_cellsize : Q;
  pm_dict : gmap cell (list nat)
}.

(** [PositionMap.keysfor]: the keys in the order the generator yields them.
    [fuel] bounds the number of steps of the segment traversal. *)
Definition keysfor (sqrtQ : Q -> Q) (fuel : nat) (m : PositionMap) (sp : space)
    : result (list (option cell)) :=
  match sp with
  | Point p => Ok [Some (ivec3_key (pm_cellsize m) p)]
  | Segment a b => keysfor_segment sqrtQ fuel (pm_cellsize m) a b
  | Triangle a b c =>
      ks <-- keysfor_triangle (pm_cellsize m) a b c ;;
      Ok (map Some ks)
  | Unsupported => Raise TypeError
  end.

(** *** PointSet *)

(** [pt_cellsize] is [None] while the slot has not been assigned. *)
Record PointSet : Type := {
  pt_points : list vec3;
  pt_cellsize : option Q;
  pt_dict : gmap cell nat
}.

Definition keyfor (s : PointSet) (pt : vec3) : result cell :=
  match pt_cellsize s with
  | Some h => Ok (ivec3_key h pt)
  | None => Raise AttributeError
  end.

(** [PointSet.add]: the function has no [return], so its value is [None]. *)
Definition add (s : PointSet) (pt : vec3) : result (PointSet * pyval) :=
  key <-- keyfor s pt ;;
  match pt_dict s !! key with
  | None =>
      Ok ({| pt_points := pt_points s ++ [pt];
             pt_cellsize := pt_cellsize s;
             pt_dict := <[ key := List.length (pt_points s) ]> (pt_dict s) |}, PyNone)
  | Some _ => Ok (s, PyNone)
  end.

Fixpoint update (s : PointSet) (pts : list vec3) : result PointSet :=
  match pts with
  | [] => Ok s
  | pt :: pts' => r <-- add s pt ;; update r.1 pts'
  end.

(** [PointSet.__init__(cellsize, iterable)]: the body stores [points] and
    [dict] and never assigns [self.cellsize]. *)
Definition PointSet_init (cellsize : Q) (iterable : list vec3) : result PointSet :=
  let s := {| pt_points := []; pt_cellsize := None; pt_dict := ∅ |} in
  match iterable with
  | [] => Ok s
  | _ => update s iterable
  end.

(** [PointSet.__getitem__] *)
Definition getitem (s : PointSet) (pt : vec3) : result pyval :=
  key <-- keyfor s pt ;;
  match pt_dict s !! key with
  | Some i => Ok (PyInt (Z.of_nat i))
  | None => Raise IndexError
  end.

(** *** Vocabulary of the statements about cells *)

(** the cell that holds [p] when cell [k] is the box
    [[k*cellsize, (k+1)*cellsize)] on each axis *)
Definition floor_key (h : Q) (p : vec3) : cell :=
  (Qfloor (vx p / h), Qfloor (vy p / h), Qfloor (vz p / h)).

Definition in_cell (h : Q) (k : cell) (p : vec3) : Prop :=
  (inject_Z k.1.1 * h <= vx p /\ vx p < (inject_Z k.1.1 + 1) * h
   /\ inject_Z k.1.2 * h <= vy p /\ vy p < (inject_Z k.1.2 + 1) * h
   /\ inject_Z k.2 * h <= vz p /\ vz p < (inject_Z k.2 + 1) * h)%Q.

Definition cell_center (h : Q) (k : cell) : vec3 :=
  ((inject_Z k.1.1 + (1 # 2)) * h, (inject_Z k.1.2 + (1 # 2)) * h,
   (inject_Z k.2 + (1 # 2)) * h)%Q.

(** [p] is a point of the closed triangle [a b c], given by barycentric
    weights *)
Definition in_triangle (a b c p : vec3) : Prop :=
  exists wa wb wc : Q,
    (0 <= wa /\ 0 <= wb /\ 0 <= wc /\ wa + wb + wc == 1
     /\ vx p == wa * vx a + wb * vx b + wc * vx c
     /\ vy p == wa * vy a + wb * vy b + wc * vy c
     /\ vz p == wa * vz a + wb * vz b + wc * vz c)%Q.

(** sample inputs *)
Definition unit_map : PositionMap := {| pm_cellsize := 1; pm_dict := ∅ |}.
Definition fresh_set : PointSet :=
  {| pt_points := []; pt_cellsize := None; pt_dict := ∅ |}.
Definition skew_a : vec3 := (1 # 10, 1 # 10, 1 # 10)%Q.
Definition skew_b : vec3 := (4 # 10, 13 # 10, 25 # 10)%Q.

(** [p] is inside the axis-aligned bounding box of the triangle *)
Definition in_bbox (a b c p : vec3) : Prop :=
  let lo := vmin (vmin a b) c in
  let hi := vmax (vmax a b) c in
  (vx lo <= vx p <= vx hi /\ vy lo <= vy p <= vy hi /\ vz lo <= vz p <= vz hi)%Q.

(** the test that selects an edge for the slice centred on [x] *)
Definition edge_selected (h x : Q) (prev cur : vec3) : bool :=
  Qle_bool ((vx prev - x + h / 2) * (vx cur - x - h / 2)) 0
  || Qle_bool ((vx prev - x - h / 2) * (vx cur - x + h / 2)) 0.

(** the third vertex decides on which side of the line of an edge a point of
    the triangle lies *)
Definition edge_delta (prev cur m : vec3) : Q :=
  ((vy m - vy cur) * (vx prev - vx cur) - (vy prev - vy cur) * (vx m - vx cur))%Q.

(** the determinant the code divides by: the Z component of [cross(v[0],v[1])] *)
Definition tri_det (s0 s1 s2 : vec3) : Q := vz (cross (vsub s2 s0) (vsub s0 s1)).

(** the height of the plane of the triangle above [(x, y)] *)
Definition plane_z (o : vec3) (dx dy x y : Q) : Q :=
  (vz o + dx * (x - vx o) + dy * (y - vy o))%Q.

(** a triangle with a steep short edge, and one whose normal is along Y *)
Definition steep_a : vec3 := (1 # 2, 0, 0)%Q.
Definition steep_b : vec3 := (3 # 5, 1, 0)%Q.
Definition steep_c : vec3 := (5, 10, 0)%Q.
Definition upright_a : vec3 := (0, 1 # 2, 0)%Q.
Definition upright_b : vec3 := (3, 1 # 2, 0)%Q.
Definition upright_c : vec3 := (0, 1 # 2, 3)%Q.
Definition flat_a : vec3 := (0, 0, 0)%Q.
Definition flat_b : vec3 := (3, 0, 0)%Q.
Definition flat_c : vec3 := (0, 3, 0)%Q.

End Hashing.

(** ** Merging close points (Container.mergeclose, madcad/mesh.py) *)

Module Container.
Import Vec.

(** Faces and edges once their indices went through a remap dictionary: an
    entry is whatever value the dictionary held, possibly [None]. *)
Definition pyface : Type := pyval * pyval * pyval.
Definition pyedge : Type := pyval * pyval.

Record mesh : Type := {
  m_points : list vec3;
  m_faces : list pyface;
  m_tracks : list Z
}.

Record web : Type := {
  w_points : list vec3;
  w_edges : list pyedge;
  w_tracks : list Z
}.

Definition of_mesh (m : Mesh.t) : mesh :=
  {| m_points := Mesh.points m;
     m_faces := map (fun f : face => (PyInt f.1.1, PyInt f.1.2, PyInt f.2)) (Mesh.faces m);
     m_tracks := Mesh.tracks m |}.

Definition pyval_eqb (a b : pyval) : bool :=
  match a, b with
  | PyNone, PyNone => true
  | PyInt x, PyInt y => Z.eqb x y
  | _, _ => false
  end.

(** [merges.get(x, x)] *)
Definition remap (merges : gmap Z pyval) (x : pyval) : pyval :=
  match x with
  | PyInt z => match merges !! z with Some y => y | None => x end
  | PyNone => PyNone
  end.

(** [Mesh.mergepoints]: rewrite each face and pop the faces (and their
    tracks) that use a point twice.  [ts] is the part of [tracks] from the
    current position on; popping beyond its end raises. *)
Fixpoint mergefaces (merges : gmap Z pyval) (fs : list pyface) (ts : list Z)
    : result (list pyface * list Z) :=
  match fs with
  | [] => Ok ([], ts)
  | f :: fs' =>
      let f' := (remap merges f.1.1, remap merges f.1.2, remap merges f.2) in
      if pyval_eqb f'.1.1 f'.1.2 || pyval_eqb f'.1.2 f'.2 || pyval_eqb f'.2 f'.1.1
      then match ts with
           | [] => Raise IndexError
           | _ :: ts' => mergefaces merges fs' ts'
           end
      else
        r <-- mergefaces merges fs' (tl ts) ;;
        Ok (f' :: r.1, match ts with [] => r.2 | t0 :: _ => t0 :: r.2 end)
  end.

(** [Web.mergepoints] *)
Fixpoint mergeedges (merges : gmap Z pyval) (es : list pyedge) (ts : list Z)
    : result (list pyedge * list Z) :=
  match es with
  | [] => Ok ([], ts)
  | e :: es' =>
      let e' := (remap merges e.1, remap merges e.2) in
      if pyval_eqb e'.1 e'.2
      then match ts with
           | [] => Raise IndexError
           | _ :: ts' => mergeedges merges es' ts'
           end
      else
        r <-- mergeedges merges es' (tl ts) ;;
        Ok (e' :: r.1, match ts with [] => r.2 | t0 :: _ => t0 :: r.2 end)
  end.

(** What [mergeclose] needs from a point container. *)
Class PointContainer (C : Type) : Type := {
  c_points : C -> list vec3;
  c_set_points : list vec3 -> C -> C;
  c_mergepoints : gmap Z pyval -> C -> result C
}.

#[export] Instance mesh_container : PointContainer mesh := {
  c_points := m_points;
  c_set_points := fun pts m =>
    {| m_points := pts; m_faces := m_faces m; m_tracks := m_tracks m |};
  c_mergepoints := fun merges m =>
    r <-- mergefaces merges (m_faces m) (m_tracks m) ;;
    Ok {| m_points := m_points m; m_faces := r.1; m_tracks := r.2 |}
}.

#[export] Instance web_container : PointContainer web := {
  c_points := w_points;
  c_set_points := fun pts w =>
    {| w_points := pts; w_edges := w_edges w; w_tracks := w_tracks w |};
  c_mergepoints := fun merges w =>
    r <-- mergeedges merges (w_edges w) (w_tracks w) ;;
    Ok {| w_points := w_points w; w_edges := r.1; w_tracks := r.2 |}
}.

Definition NUMPREC : Q := 1 # 10000000000000.

(** [Container.maxnum] and [Container.precision] *)
Definition maxnum (pts : list vec3) : Q :=
  fold_left (fun m p =>
    fold_left (fun m v => if Hashing.Qlt_bool m (Qabs v) then Qabs v else m)
              [vx p; vy p; vz p] m) pts 0%Q.
Definition precision (pts : list vec3) : Q := (maxnum pts * NUMPREC * 8)%Q.

(** The loop of [mergeclose]:
    [used = points.add(self.points[i]); if used != i: merges[i] = used] *)
Fixpoint mergeclose_loop (pts : list vec3) (i : nat) (s : Hashing.PointSet)
    (merges : gmap Z pyval) : result (Hashing.PointSet * gmap Z pyval) :=
  match pts with
  | [] => Ok (s, merges)
  | p :: pts' =>
      r <-- Hashing.add s p ;;
      let used := r.2 in
      let merges' :=
        if pyval_eqb used (PyInt (Z.of_nat i)) then merges
        else <[ Z.of_nat i := used ]> merges in
      mergeclose_loop pts' (S i) r.1 merges'
  end.

(** [Container.mergeclose(limit, start)]; the result is the container after
    the call together with the returned remap. *)
Definition mergeclose {C : Type} `{PointContainer C} (c : C) (limit : option Q)
    (start : nat) : result (C * gmap Z pyval) :=
  let limit' := match limit with Some l => l | None => precision (c_points c) end in
  points <-- Hashing.PointSet_init limit' [] ;;
  r <-- mergeclose_loop (drop start (c_points c)) start points ∅ ;;
  c' <-- c_mergepoints r.2 c ;;
  Ok (c_set_points (Hashing.pt_points r.1) c', r.2).

(** a container with a single point and no face *)
Definition one_point : mesh :=
  {| m_points := [(0, 0, 0)%Q]; m_faces := []; m_tracks := [] |}.

End Container.

(** ** Ear clipping (madcad/triangulation.py) *)

Definition vec2 : Type := Q * Q.

Module Triangulation.
Import Vec.

(** [Wire]: a polyline given by indices into a point buffer *)
Record Wire : Type := {
  w_points : list vec3;
  indices : list Z
}.

(** [l[z]] for a Python int, negative positions counting from the end *)
Definition py_index {A : Type} (l : list A) (z : Z) : result A :=
  if 0 <=? z then py_get l (Z.to_nat z)
  else if 0 <=? Z.of_nat (List.length l) + z
       then py_get l (Z.to_nat (Z.of_nat (List.length l) + z))
       else Raise IndexError.

(** [Wire.__iter__]: the points of the wire, each one the outcome of
    [self.points[i]] *)
Definition wire_iter (w : Wire) : list (result vec3) :=
  map (py_index (w_points w)) (indices w).

(** [Wire.__getitem__] at a non-negative position *)
Definition wire_get (w : Wire) (i : nat) : result vec3 :=
  idx <-- py_get (indices w) i ;; py_index (w_points w) idx.

Definition sub2 (p q : vec2) : vec2 := (p.1 - q.1, p.2 - q.2)%Q.
Definition perpdot (a b : vec2) : Q := (- a.2 * b.1 + a.1 * b.2)%Q.

(** A score is a float or [-inf]. *)
Inductive escore : Type :=
| NegInf
| Fin (q : Q).

Definition escore_lt (a b : escore) : bool :=
  match a, b with
  | NegInf, NegInf => false
  | NegInf, Fin _ => true
  | Fin _, NegInf => false
  | Fin x, Fin y => Hashing.Qlt_bool x y
  end.

Definition NUMPREC : Q := 1 # 10000000000000.

(** [max(range(l), key=lambda i: scores[i])]: the first position that holds
    a maximal score *)
Fixpoint argmax_from (scores : list escore) (i : nat) (best : nat) (bs : escore) : nat :=
  match scores with
  | [] => best
  | s :: rest =>
      if escore_lt bs s then argmax_from rest (S i) i s
      else argmax_from rest (S i) best bs
  end.
Definition argmax (scores : list escore) : result nat :=
  match scores with
  | [] => Raise ValueError
  | s :: rest => Ok (argmax_from rest 1 0%nat s)
  end.

(** [l.pop(i)] seen as a function *)
Definition pop {A : Type} (l : list A) (i : nat) : list A := take i l ++ drop (S i) l.

Definition prev_pos (l i : nat) : nat := ((i + l - 1) mod l)%nat.
Definition next_pos (l i : nat) : nat := ((i + 1) mod l)%nat.

Section WithSqrt.
Variable sqrtQ : Q -> Q.

Definition length2 (u : vec2) : Q := sqrtQ (u.1 * u.1 + u.2 * u.2)%Q.

(** [aesthetic(u,v)]: surface / perimeter**2, a division of Python floats *)
Definition aesthetic (u v : vec2) : result Q :=
  let per := (length2 u + length2 v + length2 (sub2 u v))%Q in
  if Qeq_bool (per * per) 0 then Raise ZeroDivisionError
  else Ok (perpdot u v / (per * per))%Q.

(** [uc,vc = inverse(dmat2(u,v)) * dvec2(p-o)], then the test
    [0 <= uc and 0 <= vc and uc+vc <= 1].  For a null determinant glm returns
    a matrix of infinities and NaN, which fails the test. *)
Definition inside (u v w : vec2) : bool :=
  let det := perpdot u v in
  if Qeq_bool det 0 then false
  else
    let uc := ((v.2 * w.1 - v.1 * w.2) / det)%Q in
    let vc := ((- u.2 * w.1 + u.1 * w.2) / det)%Q in
    Qle_bool 0 uc && Qle_bool 0 vc && Qle_bool (uc + vc) 1.

(** the [for j in range(l)] loop of [score] *)
Fixpoint any_inside (proj : list vec2) (j : nat) (skip : list nat) (u v o : vec2) : bool :=
  match proj with
  | [] => false
  | p :: rest =>
      if negb (bool_decide (j ∈ skip)) && inside u v (sub2 p o) then true
      else any_inside rest (S j) skip u v o
  end.

(** [score(i)] on the current [proj] *)
Definition score (proj : list vec2) (i : nat) : result escore :=
  let l := List.length proj in
  pn <-- py_get proj (next_pos l i) ;;
  pi <-- py_get proj i ;;
  pp <-- py_get proj (prev_pos l i) ;;
  let u := sub2 pn pi in
  let v := sub2 pp pi in
  sc <-- aesthetic u v ;;
  if Hashing.Qlt_bool sc 0 then Ok (Fin sc)
  else if any_inside proj 0 [prev_pos l i; i; next_pos l i] u v pi then Ok NegInf
  else Ok (Fin sc).

Fixpoint scores_from (proj : list vec2) (i n : nat) : result (list escore) :=
  match n with
  | O => Ok []
  | S n' =>
      s <-- score proj i ;;
      rest <-- scores_from proj (S i) n' ;;
      Ok (s :: rest)
  end.

(** The [while len(hole) > 2] loop.  The state is [hole], [proj], [scores],
    the triangles so far and the number of warnings printed. *)
Fixpoint clip (fuel : nat) (hole : list Z) (proj : list vec2) (scores : list escore)
    (triangles : list face) (warnings : nat) : result (list face * nat) :=
  if (2 <? List.length hole)%nat then
    match fuel with
    | O => OutOfFuel
    | S fuel' =>
        let l := List.length hole in
        i <-- argmax (take l scores) ;;
        si <-- py_get scores i ;;
        let warnings' :=
          if escore_lt si (Fin (- NUMPREC)) then S warnings else warnings in
        a <-- py_get hole (prev_pos l i) ;;
        b <-- py_get hole i ;;
        c <-- py_get hole (next_pos l i) ;;
        let hole' := pop hole i in
        let proj' := pop proj i in
        let scores' := pop scores i in
        let l' := (l - 1)%nat in
        s1 <-- score proj' (prev_pos l' i) ;;
        let scores1 := <[ prev_pos l' i := s1 ]> scores' in
        s2 <-- score proj' (i mod l') ;;
        let scores2 := <[ (i mod l')%nat := s2 ]> scores1 in
        clip fuel' hole' proj' scores2 (triangles ++ [(a, b, c)]) warnings'
    end
  else Ok (triangles, warnings).

(** **** The projection plane *)

Definition unit_vec (v : vec3) : vec3 := vscale (/ length sqrtQ v) v.
Definition project (v dir : vec3) : vec3 := vscale (dot v dir) dir.
Definition noproject (v dir : vec3) : vec3 := vsub v (project v dir).
Definition vmaxabs (p : vec3) : Q := Qmax (Qmax (Qabs (vx p)) (Qabs (vy p))) (Qabs (vz p)).

(** what [triangulation_outline] receives as [normal] *)
Inductive normal_arg : Type :=
| NoNormal
| NormalVec (n : vec3)
| NormalFloat (q : Q).

(** [dirbase(dir)] with the default [align] *)
Definition dirbase (dir : vec3) : vec3 * vec3 * vec3 :=
  let align := (1, 0, 0)%Q in
  let x := vsub align (project align dir) in
  let x := if Hashing.Qlt_bool (length sqrtQ x) NUMPREC
           then let align := (vz align, - vx align, vy align)%Q in
                vsub align (project align dir)
           else x in
  let x := unit_vec x in
  (x, cross dir x, dir).

(** the first loop of [guessbase]: [while xl < thres: p = next(pts) ...] *)
Fixpoint guess_x (thres : Q) (o : vec3) (ol : Q) (pts : list (result vec3))
    : result (vec3 * list (result vec3)) :=
  match pts with
  | [] => Raise ValueError
  | rp :: rest =>
      p <-- rp ;;
      let x := vsub p o in
      let den := Qmax (vmaxabs p) ol in
      if Qeq_bool den 0 then Raise ZeroDivisionError
      else if Hashing.Qlt_bool (dot x x / den) thres then guess_x thres o ol rest
           else Ok (x, rest)
  end.

(** the second loop: [while zl < thres: p = next(pts) ...] *)
Fixpoint guess_y (thres : Q) (o x : vec3) (pts : list (result vec3)) : result vec3 :=
  match pts with
  | [] => Raise ValueError
  | rp :: rest =>
      p <-- rp ;;
      let y := vsub p o in
      if Hashing.Qlt_bool (length sqrtQ (cross y x)) thres then guess_y thres o x rest
      else Ok y
  end.

(** [guessbase(pts, normal)]: a float in the place of [normal] is tested for
    truth like any float, and [dirbase] then calls glm's [dot] on a vector
    and a float, which glm refuses. *)
Definition guessbase (w : Wire) (normal : normal_arg) : result (vec3 * vec3 * vec3) :=
  let guess :=
    match wire_iter w with
    | [] => Raise ValueError
    | ro :: rest =>
        o <-- ro ;;
        found <-- guess_x (10 * NUMPREC) o (vmaxabs o) rest ;;
        let x := unit_vec found.1 in
        y <-- guess_y (10 * NUMPREC) o x found.2 ;;
        let y := unit_vec (noproject y x) in
        Ok (x, y, cross x y)
    end in
  match normal with
  | NoNormal => guess
  | NormalVec n => Ok (dirbase n)
  | NormalFloat q => if Qeq_bool q 0 then guess else Raise TypeError
  end.

(** [min(range(len(pts)), key=...)]: the first position with a minimal key *)
Fixpoint argmin_from (keys : list Q) (i : nat) (best : nat) (bk : Q) : nat :=
  match keys with
  | [] => best
  | k :: rest =>
      if Hashing.Qlt_bool k bk then argmin_from rest (S i) i k
      else argmin_from rest (S i) best bk
  end.

Fixpoint sequence {A : Type} (l : list (result A)) : result (list A) :=
  match l with
  | [] => Ok []
  | r :: rest => a <-- r ;; tl <-- sequence rest ;; Ok (a :: tl)
  end.

(** [planeproject(pts, normal)] *)
Definition planeproject (w : Wire) (normal : normal_arg) : result (list vec2) :=
  base <-- guessbase w normal ;;
  let '(x, y, z) := base in
  pts <-- sequence (wire_iter w) ;;
  match map (fun p => dot p x) pts with
  | [] => Raise ValueError
  | k0 :: keys =>
      let i := argmin_from keys 1 0%nat k0 in
      let l := List.length (indices w) in
      pn <-- wire_get w (next_pos l i) ;;
      pi <-- wire_get w i ;;
      pp <-- wire_get w (prev_pos l i) ;;
      let y := if Hashing.Qlt_bool (dot z (cross (vsub pn pi) (vsub pp pi))) 0
               then vscale (-1) y else y in
      Ok (map (fun p => (dot p x, dot p y)) pts)
  end.

(** [Mesh(points, faces)] with the default tracks and groups *)
Definition mesh_of (points : list vec3) (faces : list face) : Mesh.t :=
  Mesh.Mesh points faces (map (fun _ => 0) faces)
            (match faces with [] => [] | _ => [None] end).

(** [triangulation_outline(outline, normal)]; the second component counts
    the warnings printed. *)
Definition triangulation_outline (outline : Wire) (normal : normal_arg)
    : result (Mesh.t * nat) :=
  match planeproject outline normal with
  | Raise ValueError => Ok (mesh_of [] [], 0%nat)
  | Raise e => Raise e
  | OutOfFuel => OutOfFuel
  | Ok proj =>
      let hole := indices outline in
      scores <-- scores_from proj 0 (List.length hole) ;;
      r <-- clip (List.length hole) hole proj scores [] 0 ;;
      Ok (mesh_of (w_points outline) r.1, r.2)
  end.

(** [triangulation(outline, prec)]: [prec] is passed where
    [triangulation_outline] expects [normal].  The straight-skeleton variant
    is a parameter. *)
Definition triangulation (triangulation_skeleton : Wire -> Q -> result (Mesh.t * nat))
    (outline : Wire) (prec : Q) : result (Mesh.t * nat) :=
  match triangulation_outline outline (NormalFloat prec) with
  | Raise MeshError => triangulation_skeleton outline prec
  | r => r
  end.

End WithSqrt.

(** *** Vocabulary of the statements *)

(** consecutive pairs of a path, and of the closed path through a list *)
Fixpoint path_pairs {A : Type} (l : list A) : list (A * A) :=
  match l with
  | x :: (y :: _) as r => (x, y) :: path_pairs r
  | _ => []
  end.
Definition closed_pairs {A : Type} (l : list A) : list (A * A) :=
  match l with
  | [] => []
  | x :: _ => path_pairs (l ++ [x])
  end.

Definition Qsum (l : list Q) : Q := fold_right Qplus 0%Q l.

Definition cross2 (a b : vec2) : Q := (a.1 * b.2 - a.2 * b.1)%Q.

(** twice the signed area of a triangle, and of a polygon (shoelace) *)
Definition area2 (a b c : vec2) : Q := cross2 (sub2 b a) (sub2 c a).
Definition shoelace2 (l : list vec2) : Q :=
  Qsum (map (fun p => cross2 p.1 p.2) (closed_pairs l)).

(** the projected point of a point index *)
Fixpoint assoc2 (l : list (Z * vec2)) (z : Z) : vec2 :=
  match l with
  | [] => (0, 0)%Q
  | (k, v) :: l' => if Z.eqb k z then v else assoc2 l' z
  end.
Definition proj_of (hole : list Z) (proj : list vec2) : Z -> vec2 :=
  assoc2 (zip hole proj).

Definition face_area2 (P : Z -> vec2) (f : face) : Q :=
  area2 (P f.1.1) (P f.1.2) (P f.2).
Definition faces_area2 (P : Z -> vec2) (fs : list face) : Q :=
  Qsum (map (face_area2 P) fs).

(** the unoriented edges of the closed polygon through the indices *)
Definition polygon_keys (hole : list Z) : list edge :=
  map (fun p => Mesh.edgekey p.1 p.2) (closed_pairs hole).
Definition polygon_edges (hole : list Z) : gset edge :=
  list_to_set (polygon_keys hole).

Definition vec2_eq (p q : vec2) : Prop := (p.1 == q.1 /\ p.2 == q.2)%Q.

(** no two positions hold the same point *)
Definition distinct2 (l : list vec2) : Prop :=
  forall i j p q, l !! i = Some p -> l !! j = Some q -> i <> j -> ~ vec2_eq p q.

(** the points of a polygon drawn in the plane Z = 0 *)
Definition flat (pts : list vec3) : list vec2 := map (fun p => (vx p, vy p)) pts.

(** the same, decided *)
Definition vec2_eqb (p q : vec2) : bool := Qeq_bool p.1 q.1 && Qeq_bool p.2 q.2.
Fixpoint distinct2b (l : list vec2) : bool :=
  match l with
  | [] => true
  | p :: r => forallb (fun q => negb (vec2_eqb p q)) r && distinct2b r
  end.

(** *** The sign of a score

    [aesthetic(u,v)] has the sign of [perpdot(u,v)], and the test for a point
    inside the corner uses no square root: the sign of a score, or that it is
    [-inf], is known exactly, its magnitude only up to the rounding of
    [length]. *)
Inductive cls : Type := CNegInf | CNeg | CZero | CPos.
Definition cls_rank (c : cls) : nat :=
  match c with CNegInf => 0 | CNeg => 1 | CZero => 2 | CPos => 3 end.
Definition cls_leb (a b : cls) : bool := (cls_rank a <=? cls_rank b)%nat.

Definition has_class (s : escore) (c : cls) : Prop :=
  match c with
  | CNegInf => s = NegInf
  | CNeg => exists q, s = Fin q /\ (q < 0)%Q
  | CZero => exists q, s = Fin q /\ (q == 0)%Q
  | CPos => exists q, s = Fin q /\ (0 < q)%Q
  end.

Definition class_of (proj : list vec2) (i : nat) : option cls :=
  let l := List.length proj in
  match proj !! next_pos l i, proj !! i, proj !! prev_pos l i with
  | Some pn, Some pi, Some pp =>
      let u := sub2 pn pi in
      let v := sub2 pp pi in
      let d := perpdot u v in
      Some (if Hashing.Qlt_bool d 0 then CNeg
            else if any_inside proj 0 [prev_pos l i; i; next_pos l i] u v pi then CNegInf
            else if Qeq_bool d 0 then CZero else CPos)
  | _, _, _ => None
  end.

Fixpoint classes_from (proj : list vec2) (i n : nat) : option (list cls) :=
  match n with
  | O => Some []
  | S n' =>
      match class_of proj i, classes_from proj (S i) n' with
      | Some c, Some r => Some (c :: r)
      | _, _ => None
      end
  end.

Definition set_class (proj : list vec2) (i : nat) (classes : list cls) : option (list cls) :=
  match class_of proj i with
  | Some c => Some (<[ i := c ]> classes)
  | None => None
  end.

(** Every run of the clipping loop that takes, at each turn, some position
    whose score has the greatest sign present: [explore] answers [true] when
    each of them takes only corners of non-negative score and ends with
    triangles accepted by [ok]. *)
Fixpoint explore (fuel : nat) (hole : list Z) (proj : list vec2) (classes : list cls)
    (tris : list face) (ok : list face -> bool) : bool :=
  if (2 <? List.length hole)%nat then
    match fuel with
    | O => false
    | S fuel' =>
        let l := List.length hole in
        forallb (fun i =>
          match classes !! i with
          | Some ci =>
              if forallb (fun c => cls_leb c ci) classes then
                match hole !! prev_pos l i, hole !! i, hole !! next_pos l i with
                | Some a, Some b, Some c =>
                    let proj' := pop proj i in
                    let l' := (l - 1)%nat in
                    cls_leb CZero ci &&
                    match set_class proj' (prev_pos l' i) (pop classes i) with
                    | Some cl1 =>
                        match set_class proj' (i mod l') cl1 with
                        | Some cl2 =>
                            explore fuel' (pop hole i) proj' cl2 (tris ++ [(a, b, c)]) ok
                        | None => false
                        end
                    | None => false
                    end
                | _, _, _ => false
                end
              else true
          | None => false
          end) (seq 0 l)
    end
  else ok tris.

(** *** The L-shaped hexagon *)
Definition Lpoints : list vec3 :=
  [(0, 0, 0); (2, 0, 0); (2, 1, 0); (1, 1, 0); (1, 2, 0); (0, 2, 0)]%Q.
Definition Lwire : Wire := {| w_points := Lpoints; indices := [0; 1; 2; 3; 4; 5] |}.
Definition Lplane : list vec2 := flat Lpoints.

(** the diagonals of the L whose open segment lies inside it: those from
    the reflex corner 3 to 0, 1 and 5, and those from 0 to 2 and to 4 *)
Definition Ldiagonals : list edge := [(0, 2); (0, 3); (0, 4); (1, 3); (3, 5)].

(** four triangles, of total area 3, on edges of the L or inner diagonals *)
Definition L_ok (tris : list face) : bool :=
  (List.length tris =? 4)%nat
  && Qeq_bool (faces_area2 (proj_of (indices Lwire) Lplane) tris) 6
  && forallb (fun f => forallb (fun e : edge =>
        bool_decide (Mesh.edgekey e.1 e.2 ∈ polygon_keys (indices Lwire) ++ Ldiagonals))
        (Mesh.face_edges f)) tris.

(** a triangle below the threshold of [guessbase] *)
Definition tiny : Wire :=
  {| w_points := [(0, 0, 0); (1 # 10000000000000, 0, 0); (0, 1 # 10000000000000, 0)]%Q;
     indices := [0; 1; 2] |}.

(** a square root for the examples: exact on the squares of rationals *)
Definition sqrt_red (x : Q) : Q := sqrt_exact (Qred x).

(** occurrences of an edge in a list *)
Definition occ (e : edge) (l : list edge) : nat := count_occ (decide_rel eq) l e.

(** the edge keys of a list of faces, in the order [outlines_unoriented]
    toggles them *)
Definition face_keys (fs : list face) : list edge :=
  concat (map (fun f => map (fun e : edge => Mesh.edgekey e.1 e.2) (Mesh.face_edges f)) fs).

(** vectors equal as rationals *)
Definition vec3_eq (p q : vec3) : Prop := (vx p == vx q /\ vy p == vy q /\ vz p == vz q)%Q.

(** a computation that does not raise [MeshError] *)
Definition quiet {A : Type} (r : result A) : Prop := r <> Raise MeshError.

(** a self-intersecting quadrilateral, and a stand-in for the skeleton
    variant *)
Definition bowtie : Wire :=
  {| w_points := [(0, 0, 0); (2, 2, 0); (2, 0, 0); (0, 2, 0)]%Q; indices := [0; 1; 2; 3] |}.
Definition no_skeleton : Wire -> Q -> result (Mesh.t * nat) :=
  fun _ _ => Ok (mesh_of [] [], 0%nat).

End Triangulation.

(** * Further functions of the modules *)

(** ** Keys and connectivity (madcad/mesh.py) *)

Module Connectivity.

(** [facekeyo(a,b,c)]: a key for an oriented face *)
Definition facekeyo (a b c : Z) : face :=
  if (a <? b) && (b <? c) then (a, b, c)
  else if a <? b then (c, a, b)
  else (b, c, a).

(** [arrangeface(f, p)] *)
Definition arrangeface (f : face) (p : Z) : face :=
  let '(a, b, c) := f in
  if p =? b then (b, c, a)
  else if p =? c then (c, a, b)
  else f.

(** [arrangeedge(e, p)] *)
Definition arrangeedge (e : edge) (p : Z) : edge :=
  if p =? e.2 then (e.2, e.1) else e.

(** the three rotations of a face *)
Definition rotations (f : face) : list face :=
  let '(a, b, c) := f in [(a, b, c); (b, c, a); (c, a, b)].

(** [connexity(links)]: [reach[p] = reach.get(p,0) + 1] for each point of
    each link *)
Definition connexity (links : list (list Z)) : gmap Z nat :=
  fold_left (fun reach l =>
    fold_left (fun reach p => <[ p := S (default 0%nat (reach !! p)) ]> reach) l reach)
    links ∅.

(** [connpp(ngons)]: the body of the innermost loop,
    [if a not in conn: conn[a] = [b]  elif b not in conn[a]: conn[a].append(b)] *)
Definition connpp_link (conn : gmap Z (list Z)) (a b : Z) : gmap Z (list Z) :=
  match conn !! a with
  | None => <[ a := [b] ]> conn
  | Some l => if bool_decide (b ∈ l) then conn else <[ a := l ++ [b] ]> conn
  end.

(** [(loop[i-1], loop[i])] for [i] in [range(len(loop))]; position [-1] is
    the last one *)
Definition loop_pairs (loop : list Z) : list (Z * Z) :=
  let n := length loop in
  map (fun i => (nth ((i + n - 1) mod n) loop 0, nth i loop 0)) (seq 0 n).

Definition connpp_loop (conn : gmap Z (list Z)) (loop : list Z) : gmap Z (list Z) :=
  fold_left (fun c p => connpp_link (connpp_link c p.1 p.2) p.2 p.1) (loop_pairs loop) conn.

Definition connpp (ngons : list (list Z)) : gmap Z (list Z) :=
  fold_left connpp_loop ngons ∅.

(** [lineedges(line, closed)] on a line of at least one point (on an empty
    one [next(line)] fails before anything is yielded).  The loop keeps the
    previous point in [j]; [i] is bound by the first turn only, so the
    closing couple of a single point raises.  The result is what the
    generator yields and how it ends. *)
Fixpoint lineedges_loop (j : Z) (rest : list Z) : list edge * Z :=
  match rest with
  | [] => ([], j)
  | i :: rest' =>
      let r := lineedges_loop i rest' in
      ((j, i) :: r.1, r.2)
  end.

Definition lineedges (first : Z) (rest : list Z) (closed : bool) : list edge * result unit :=
  let r := lineedges_loop first rest in
  if closed then
    match rest with
    | [] => (r.1, Raise UnboundLocalError)
    | _ => (r.1 ++ [(r.2, first)], Ok tt)
    end
  else (r.1, Ok tt).

(** the step of [connexity], and the vocabulary of the statements on [connpp] *)
Definition connexity_step (reach : gmap Z nat) (p : Z) : gmap Z nat :=
  <[ p := S (default 0%nat (reach !! p)) ]> reach.

Definition linked (conn : gmap Z (list Z)) (a b : Z) : Prop :=
  exists l, conn !! a = Some l /\ b ∈ l.

Definition tidy (conn : gmap Z (list Z)) : Prop :=
  forall a l, conn !! a = Some l -> NoDup l.

End Connectivity.

(** ** Numeric helpers (madcad/mathutils.py, madcad/triangulation.py) *)

Module Mathutils.
Import Vec.

(** [interpol1(a, b, x)] and [interpol2(a, b, x)]; the arguments of
    [interpol2] are couples (value, derivative) *)
Definition interpol1 (a b x : Q) : Q := ((1 - x) * a + x * b)%Q.
Definition interpol2 (a b : Q * Q) (x : Q) : Q :=
  (2 * x * (1 - x) * interpol1 a.1 b.1 x
   + x * x * (b.1 + (1 - x) * b.2)
   + (1 - x) * (1 - x) * (a.1 + x * a.2))%Q.

(** [ivmax(v)]: index of the maximum coordinate *)
Definition ivmax (v : vec3) : nat :=
  let i := 0%nat in
  let i := if Hashing.Qlt_bool (vget v i) (vget v 1) then 1%nat else i in
  let i := if Hashing.Qlt_bool (vget v i) (vget v 2) then 2%nat else i in
  i.

(** [ivsort(v)]: [(i-1)%3] is Python's remainder, in [range(3)] *)
Definition ivsort (v : vec3) : nat * nat * nat :=
  let i := ivmax v in
  let n := ((i + 1) mod 3)%nat in
  let p := ((i + 3 - 1) mod 3)%nat in
  if Hashing.Qlt_bool (vget v p) (vget v n) then (i, n, p) else (i, p, n).

(** the coordinates of the points, in the order [maxnum] reads them *)
Definition coords (pts : list vec3) : list Q :=
  concat (map (fun p => [vx p; vy p; vz p]) pts).

End Mathutils.

(** ** Boxes (class Box of madcad/mathutils.py) *)

Module Box.
Import Vec.

Record t : Type := Box { bmin : vec3; bmax : vec3 }.

(** [Box.union(other)] for a point and for a box; the box is updated in
    place and returned *)
Definition union_point (b : t) (p : vec3) : t := Box (vmin (bmin b) p) (vmax (bmax b) p).
Definition union (b other : t) : t :=
  Box (vmin (bmin b) (bmin other)) (vmax (bmax b) (bmax other)).

Definition vset (p : vec3) (i : nat) (x : Q) : vec3 :=
  match i with
  | O => (x, vy p, vz p)
  | 1%nat => (vx p, x, vz p)
  | _ => (vx p, vy p, x)
  end.

(** the loop that ends [Box.intersection]: the first axis where [min]
    exceeds [max] is collapsed on the middle, and the loop is left *)
Fixpoint collapse (axes : list nat) (b : t) : t :=
  match axes with
  | [] => b
  | i :: rest =>
      if Hashing.Qlt_bool (vget (bmax b) i) (vget (bmin b) i)
      then let m := ((vget (bmin b) i + vget (bmax b) i) / 2)%Q in
           Box (vset (bmin b) i m) (vset (bmax b) i m)
      else collapse rest b
  end.

Definition intersection (b other : t) : t :=
  collapse [0; 1; 2]%nat (Box (vmax (bmin b) (bmin other)) (vmin (bmax b) (bmax other))).

(** [Box.__bool__] *)
Definition nonempty (b : t) : bool :=
  forallb (fun i => Hashing.Qlt_bool (vget (bmin b) i) (vget (bmax b) i)) [0; 1; 2]%nat.

(** a point within the bounds, bounds included *)
Definition contains (b : t) (p : vec3) : Prop :=
  forall i, (i < 3)%nat -> (vget (bmin b) i <= vget p i <= vget (bmax b) i)%Q.

End Box.

(** ** More of class Mesh (madcad/mesh.py) *)

Module MeshOps.
Import Mesh.

(** [Mesh.edges]: the set of the unoriented edges of the faces *)
Definition edges (m : Mesh.t) : gset edge :=
  fold_left (fun s f =>
    let '(a, b, c) := f in s ∪ {[ edgekey a b ]} ∪ {[ edgekey b c ]} ∪ {[ edgekey c a ]})
    (faces m) ∅.

(** the mesh with the faces at the positions chosen by [which] flipped *)
Definition reorient (which : nat -> bool) (m : Mesh.t) : Mesh.t :=
  Mesh (points m) (imap (fun i f => if which i then flip_face f else f) (faces m))
       (tracks m) (groups m).

End MeshOps.

(** ** Stripping unused points and groups (madcad/mesh.py) *)

Module Strip.
Import Mesh.

(** [l[i] = x] for a non-negative position, and for a Python int *)
Definition py_set {A : Type} (l : list A) (i : nat) (x : A) : result (list A) :=
  if (i <? length l)%nat then Ok (<[ i := x ]> l) else Raise IndexError.
Definition py_setitem {A : Type} (l : list A) (z : Z) (x : A) : result (list A) :=
  if 0 <=? z then py_set l (Z.to_nat z) x
  else if 0 <=? Z.of_nat (length l) + z
       then py_set l (Z.to_nat (Z.of_nat (length l) + z)) x
       else Raise IndexError.

(** The loop of [striplist(list, used)]:
    [if u: list[j] = list[i]; reindex[i] = j; j += 1] *)
Fixpoint striplist_loop {A : Type} (used : list bool) (i : nat) (l : list A)
    (reindex : list Z) (j : nat) : result (list A * list Z * nat) :=
  match used with
  | [] => Ok (l, reindex, j)
  | u :: used' =>
      if u then
        x <-- py_get l i ;;
        l' <-- py_set l j x ;;
        reindex' <-- py_set reindex i (Z.of_nat j) ;;
        striplist_loop used' (S i) l' reindex' (S j)
      else striplist_loop used' (S i) l reindex j
  end.

(** [striplist]: the list after [list[j:] = []], and the reindexation *)
Definition striplist {A : Type} (l : list A) (used : list bool) : result (list A * list Z) :=
  r <-- striplist_loop used 0 l (replicate (length l) (-1)) 0 ;;
  Ok (take r.2 r.1.1, r.1.2).

(** [for p in ...: used[p] = True] *)
Fixpoint mark_used (used : list bool) (ps : list Z) : result (list bool) :=
  match ps with
  | [] => Ok used
  | p :: ps' => u <-- py_setitem used p true ;; mark_used u ps'
  end.

Definition corners (f : face) : list Z := let '(a, b, c) := f in [a; b; c].

(** [(reindex[f[0]], reindex[f[1]], reindex[f[2]])] for each face *)
Fixpoint reindex_faces (reindex : list Z) (fs : list face) : result (list face) :=
  match fs with
  | [] => Ok []
  | (a, b, c) :: fs' =>
      a' <-- Triangulation.py_index reindex a ;;
      b' <-- Triangulation.py_index reindex b ;;
      c' <-- Triangulation.py_index reindex c ;;
      r <-- reindex_faces reindex fs' ;;
      Ok ((a', b', c') :: r)
  end.

(** [Mesh.strippoints(used)]: the mesh after the call and the returned
    reindexation *)
Definition strippoints (m : Mesh.t) (used : option (list bool)) : result (Mesh.t * list Z) :=
  used' <-- match used with
            | Some u => Ok u
            | None => mark_used (replicate (length (points m)) false)
                                (concat (map corners (faces m)))
            end ;;
  r <-- striplist (points m) used' ;;
  fs <-- reindex_faces r.2 (faces m) ;;
  Ok (Mesh r.1 fs (tracks m) (groups m), r.2).

(** [tracks[i] = reindex[track]] for each track *)
Fixpoint reindex_tracks (reindex : list Z) (ts : list Z) : result (list Z) :=
  match ts with
  | [] => Ok []
  | t0 :: ts' =>
      t' <-- Triangulation.py_index reindex t0 ;;
      r <-- reindex_tracks reindex ts' ;;
      Ok (t' :: r)
  end.

(** [Container.stripgroups] *)
Definition stripgroups (m : Mesh.t) : result (Mesh.t * list Z) :=
  used <-- mark_used (replicate (length (groups m)) false) (tracks m) ;;
  r <-- striplist (groups m) used ;;
  ts <-- reindex_tracks r.2 (tracks m) ;;
  Ok (Mesh (points m) (faces m) ts r.1, r.2).

(** [Container.isvalid] *)
Definition isvalid (m : Mesh.t) : result bool :=
  match check m with
  | Ok _ => Ok true
  | Raise MeshError => Ok false
  | Raise e => Raise e
  | OutOfFuel => OutOfFuel
  end.

(** every corner of the face is the position of one of [n] points *)
Definition in_range (n : nat) (f : face) : Prop :=
  forall p, p ∈ corners f -> 0 <= p < Z.of_nat n.

(** the position a Python index stands for in a list of [n] elements *)
Definition norm (n : nat) (z : Z) : nat :=
  if 0 <=? z then Z.to_nat z else Z.to_nat (Z.of_nat n + z).

(** the corners of [f'] are the images of those of [f] *)
Definition remapped (reindex : list Z) (f f' : face) : Prop :=
  Forall2 (fun p p' => reindex !! norm (length reindex) p = Some p') (corners f) (corners f').

(** the elements at the positions marked, and the number of marks before a
    position *)
Fixpoint sel {A : Type} (l : list A) (used : list bool) : list A :=
  match l, used with
  | x :: l', u :: used' => if u then x :: sel l' used' else sel l' used'
  | _, _ => []
  end.
Definition rank (used : list bool) (i : nat) : nat := length (filter (fun u => u = true) (take i used)).

End Strip.

(** ** Selecting and joining meshes (madcad/mesh.py) *)

Module MeshJoin.
Import Mesh.

(** [Mesh.group(groups)]: the faces whose track is one of [groups], with
    their tracks, on the same points and groups *)
Definition group (m : Mesh.t) (gs : gset Z) : Mesh.t :=
  let kept := List.filter (fun ft : face * Z => bool_decide (ft.2 ∈ gs))
                          (zip (faces m) (tracks m)) in
  Mesh (points m) (map fst kept) (map snd kept) (groups m).

Definition shift_face (lp : Z) (f : face) : face :=
  let '(a, b, c) := f in (a + lp, b + lp, c + lp).

(** [Mesh.__add__(other)].  The two booleans are the outcomes of the tests
    [self.points is other.points] and [self.groups is other.groups]: a
    buffer that is shared is kept as it is, otherwise the one of [other] is
    appended and the indices of [other] are shifted. *)
Definition add (same_points same_groups : bool) (m other : Mesh.t) : Mesh.t :=
  let lp := Z.of_nat (length (points m)) in
  let lt := Z.of_nat (length (groups m)) in
  Mesh (if same_points then points m else points m ++ points other)
       (if same_points then faces m ++ faces other
        else faces m ++ map (shift_face lp) (faces other))
       (if same_groups then tracks m ++ tracks other
        else tracks m ++ map (fun t => t + lt) (tracks other))
       (if same_groups then groups m else groups m ++ groups other).

End MeshJoin.

(** ** Vocabulary for [mergepoints] *)

Module Merge.
Import Container.

(** a face once its corners went through the dictionary, and whether two of
    its corners are equal *)
Definition remap_face (merges : gmap Z pyval) (f : pyface) : pyface :=
  (remap merges f.1.1, remap merges f.1.2, remap merges f.2).
Definition collapsed (f : pyface) : bool :=
  pyval_eqb f.1.1 f.1.2 || pyval_eqb f.1.2 f.2 || pyval_eqb f.2 f.1.1.

(** no value of the dictionary is a key mapped elsewhere *)
Definition resolved (merges : gmap Z pyval) : Prop :=
  forall k v, merges !! k = Some v -> remap merges v = v.

End Merge.

(** ** class Web (madcad/mesh.py) *)

Module Web.

Record t : Type := Web {
  points : list vec3;
  edges : list edge;
  tracks : list Z;
  groups : list (option nat)
}.

(** [Web.flip] *)
Definition flip (w : t) : t :=
  Web (points w) (map (fun e : edge => (e.2, e.1)) (edges w)) (tracks w) (groups w).

(** [if p in extr: extr.remove(p)  else: extr.add(p)] *)
Definition toggle_point (s : gset Z) (p : Z) : gset Z :=
  if decide (p ∈ s) then s ∖ {[ p ]} else s ∪ {[ p ]}.

(** [Web.extremities] *)
Definition extremities (w : t) : gset Z :=
  fold_left (fun s e => toggle_point (toggle_point s e.1) e.2) (edges w) ∅.

(** the ends of the edges, in the order the loops read them *)
Definition ends (w : t) : list Z := concat (map (fun e : edge => [e.1; e.2]) (edges w)).

(** [reached[p] += 1] *)
Definition bump (reached : list Z) (p : Z) : result (list Z) :=
  x <-- Triangulation.py_index reached p ;; Strip.py_setitem reached p (x + 1).

Fixpoint bump_all (reached : list Z) (ps : list Z) : result (list Z) :=
  match ps with
  | [] => Ok reached
  | p :: ps' => r <-- bump reached p ;; bump_all r ps'
  end.

(** [Web.isline] *)
Definition isline (w : t) : result bool :=
  reached <-- bump_all (replicate (length (points w)) 0) (ends w) ;;
  Ok (forallb (fun r => r <=? 2) reached).

End Web.

(** ** class Wire (madcad/mesh.py) *)

Module WireOps.

(** [tracks] is [None] by default *)
Record t : Type := Wire {
  points : list vec3;
  indices : list Z;
  tracks : option (list Z);
  groups : list (option nat)
}.

(** [if self.tracks:] holds for a non-empty list *)
Definition truthy (ts : option (list Z)) : bool :=
  match ts with
  | Some (_ :: _) => true
  | _ => false
  end.

(** [Wire.flip]: the indices reversed; the tracks but the last reversed,
    then the last *)
Definition flip (w : t) : t :=
  let ts := match tracks w with
            | Some (t0 :: ts') =>
                let l := t0 :: ts' in
                Some (rev (removelast l) ++ [List.last l 0])
            | _ => None
            end in
  Wire (points w) (rev (indices w)) ts (groups w).

(** [Wire.edge(i)] for a non-negative [i], and [Wire.edges] *)
Definition edge_at (w : t) (i : nat) : result edge :=
  a <-- py_get (indices w) i ;; b <-- py_get (indices w) (S i) ;; Ok (a, b).
Fixpoint edges_from (w : t) (js : list nat) : result (list edge) :=
  match js with
  | [] => Ok []
  | i :: js' => e <-- edge_at w i ;; r <-- edges_from w js' ;; Ok (e :: r)
  end.
Definition edges (w : t) : result (list edge) :=
  edges_from w (seq 0 (length (indices w) - 1)).

(** [Wire.close]: the wire after the call *)
Definition close (w : t) : result t :=
  i0 <-- py_get (indices w) 0 ;;
  let ts := match tracks w with
            | Some (t0 :: ts') => Some ((t0 :: ts') ++ [t0])
            | other => other
            end in
  Ok (Wire (points w) (indices w ++ [i0]) ts (groups w)).

End WireOps.

(** ** Search in a sorted list (madcad/mathutils.py) *)

Module Dichotomy.

(** The loop of [dichotomy_index(l, index, key)]; [fuel] bounds the number
    of turns. *)
Fixpoint dichotomy_loop {A : Type} (fuel : nat) (key : A -> Q) (l : list A) (index : Q)
    (start stop : nat) : result nat :=
  if (start <? stop)%nat then
    match fuel with
    | O => OutOfFuel
    | S fuel' =>
        let mid := ((start + stop) / 2)%nat in
        x <-- py_get l mid ;;
        let val := key x in
        if Hashing.Qlt_bool val index then dichotomy_loop fuel' key l index (S mid) stop
        else if Hashing.Qlt_bool index val then dichotomy_loop fuel' key l index start mid
        else Ok mid
    end
  else Ok start.

Definition dichotomy_index {A : Type} (fuel : nat) (l : list A) (index : Q) (key : A -> Q)
    : result nat :=
  dichotomy_loop fuel key l index 0 (length l).

(** keys in ascending order *)
Definition ascending {A : Type} (key : A -> Q) (l : list A) : Prop :=
  forall i j x y, (i <= j)%nat -> l !! i = Some x -> l !! j = Some y -> (key x <= key y)%Q.

End Dichotomy.

(** ** Looking a point up (Container.pointat, Container.usepointat) *)

Module PointAt.
Import Vec.

Section WithSqrt.
Variable sqrtQ : Q -> Q.

(** glm's [distance(p0, p1)] is [length(p1 - p0)] *)
Definition distance (p0 p1 : vec3) : Q := length sqrtQ (vsub p1 p0).

(** [pointat(point, neigh)]: [None] when the loop ends without [return] *)
Fixpoint pointat_from (pts : list vec3) (i : nat) (point : vec3) (neigh : Q) : option nat :=
  match pts with
  | [] => None
  | p :: rest =>
      if Qle_bool (distance p point) neigh then Some i
      else pointat_from rest (S i) point neigh
  end.
Definition pointat (pts : list vec3) (point : vec3) (neigh : Q) : option nat :=
  pointat_from pts 0 point neigh.

(** [usepointat(point, neigh)]: the points after the call and the index
    returned *)
Definition usepointat (pts : list vec3) (point : vec3) (neigh : Q) : list vec3 * nat :=
  match pointat pts point neigh with
  | Some i => (pts, i)
  | None => (pts ++ [point], List.length pts)
  end.

End WithSqrt.
End PointAt.

(** ** Filling and reading a PositionMap (hashing.py) *)

Module PositionMaps.
Import Hashing.

(** The spaces whose keys are cells: points and triangles.  Segments are
    left out, a key of theirs can be non-finite (see [keysfor]). *)
Inductive fspace : Type :=
| FPoint (p : vec3)
| FTriangle (a b c : vec3).

Definition to_space (sp : fspace) : space :=
  match sp with
  | FPoint p => Point p
  | FTriangle a b c => Triangle a b c
  end.

(** what [keysfor] yields for them *)
Definition fkeys (m : PositionMap) (sp : fspace) : result (list cell) :=
  match sp with
  | FPoint p => Ok [ivec3_key (pm_cellsize m) p]
  | FTriangle a b c => keysfor_triangle (pm_cellsize m) a b c
  end.

(** [if k not in self.dict: self.dict[k] = [obj]  else: self.dict[k].append(obj)] *)
Definition add_key (obj : nat) (d : gmap cell (list nat)) (k : cell) : gmap cell (list nat) :=
  match d !! k with
  | None => <[ k := [obj] ]> d
  | Some l => <[ k := l ++ [obj] ]> d
  end.

(** [PositionMap.add(space, obj)]: the map after the call *)
Definition add (m : PositionMap) (sp : fspace) (obj : nat) : result PositionMap :=
  ks <-- fkeys m sp ;;
  Ok {| pm_cellsize := pm_cellsize m; pm_dict := fold_left (add_key obj) ks (pm_dict m) |}.

(** [PositionMap.get(space)]: what the generator yields *)
Definition get (m : PositionMap) (sp : fspace) : result (list nat) :=
  ks <-- fkeys m sp ;;
  Ok (concat (map (fun k => default [] (pm_dict m !! k)) ks)).

(** [PositionMap.update(iterable)] for an iterable of couples *)
Fixpoint update (m : PositionMap) (items : list (fspace * nat)) : result PositionMap :=
  match items with
  | [] => Ok m
  | (sp, obj) :: rest => m' <-- add m sp obj ;; update m' rest
  end.

End PositionMaps.
(** * Properties *)

(** ** Islands and propagation *)

Module MeshFacts.
Import Mesh.

Lemma find_no_faces (start : nat) (stack : list nat) :
  find start stack [] = Raise UnboundLocalError.
Proof. reflexivity. Qed.

Lemma propagate_no_faces {St : Type} (atface : nat -> list bool -> St -> result St)
    (atisland : option (list bool -> St -> result St)) (m : t)
    (conn : option (gmap edge nat)) (s : St) :
  faces m = [] -> propagate atface atisland m conn s = Raise UnboundLocalError.
Proof.
  intros Hf. unfold propagate. rewrite Hf. reflexivity.
Qed.

(** C10: on a mesh without faces (which [check] accepts), the default island
    search reads its loop variable before any iteration has assigned it, so
    [propagate] and [islands] raise instead of returning an empty list. *)
Theorem islands_no_faces_unbound (m : t) (conn : option (gmap edge nat)) :
  faces m = [] ->
  check m = Ok tt ->
  islands m conn = Raise UnboundLocalError
  /\ islands m conn <> Ok []
  /\ forall (St : Type) (atface : nat -> list bool -> St -> result St)
       (atisland : option (list bool -> St -> result St)) (s : St),
       propagate atface atisland m conn s = Raise UnboundLocalError.
Proof.
  intros Hf _.
  assert (Hi : islands m conn = Raise UnboundLocalError).
  { unfold islands. rewrite propagate_no_faces by exact Hf. reflexivity. }
  split; [exact Hi|]. split.
  - rewrite Hi. discriminate.
  - intros St atface atisland s. apply propagate_no_faces, Hf.
Qed.

Lemma islands_no_faces_unbound_witness :
  check (Mesh [] [] [] []) = Ok tt
  /\ islands (Mesh [] [] [] []) None = Raise UnboundLocalError.
Proof.
  split; [reflexivity|].
  apply (islands_no_faces_unbound (Mesh [] [] [] []) None); reflexivity.
Defined.

(** ** Outlines of a mesh and of its flipped copy *)

Lemma rev_edge_invol e : rev_edge (rev_edge e) = e.
Proof. by destruct e. Qed.

Lemma elem_of_rev_set e s : e ∈ rev_set s <-> rev_edge e ∈ s.
Proof.
  unfold rev_set. rewrite elem_of_map. split.
  - intros (x & -> & Hx). by rewrite rev_edge_invol.
  - intros H. exists (rev_edge e). by rewrite rev_edge_invol.
Qed.
#[global] Typeclasses Opaque rev_set.
#[global] Instance set_unfold_rev_set e s P :
  SetUnfoldElemOf (rev_edge e) s P -> SetUnfoldElemOf e (rev_set s) P.
Proof. intros [H]. constructor. by rewrite elem_of_rev_set. Qed.

Lemma rev_edge_eq_iff x y : rev_edge x = y <-> x = rev_edge y.
Proof. destruct x, y; unfold rev_edge; simpl; split; intros [= -> ->]; done. Qed.

Lemma outline_step_rev s e :
  outline_step (rev_set s) (rev_edge e) = rev_set (outline_step s e).
Proof.
  unfold outline_step.
  destruct (decide (rev_edge e ∈ rev_set s)) as [H|H];
    rewrite elem_of_rev_set, rev_edge_invol in H;
    destruct (decide (e ∈ s)); try done;
    apply set_eq; intros x; set_unfold; rewrite ?rev_edge_eq_iff, ?rev_edge_invol; tauto.
Qed.

Lemma outline_step_comm s x y :
  x <> y -> x <> rev_edge y ->
  outline_step (outline_step s x) y = outline_step (outline_step s y) x.
Proof.
  intros Hxy Hxr.
  assert (Hyr : y <> rev_edge x) by (intros ->; by rewrite rev_edge_invol in Hxr).
  unfold outline_step.
  repeat (case_decide); set_solver.
Qed.

Lemma face_outline_flip s f :
  face_degenerate f = false ->
  fold_left outline_step (face_edges (flip_face f)) (rev_set s)
  = rev_set (fold_left outline_step (face_edges f) s).
Proof.
  destruct f as [[a b] c]. unfold face_degenerate. 
  rewrite !orb_false_iff, !bool_decide_eq_false. intros [[Hab Hbc] Hca].
  cbn [flip_face face_edges fold_left].
  change (a, c) with (rev_edge (c, a)).
  change (c, b) with (rev_edge (b, c)).
  change (b, a) with (rev_edge (a, b)).
  rewrite !outline_step_rev. f_equal.
  rewrite (outline_step_comm s (c,a) (b,c)) by (unfold rev_edge; simpl; congruence).
  rewrite (outline_step_comm _ (c,a) (a,b)) by (unfold rev_edge; simpl; congruence).
  rewrite (outline_step_comm s (b,c) (a,b)) by (unfold rev_edge; simpl; congruence).
  reflexivity.
Qed.


Lemma check_faces_nondegenerate l fs :
  check_faces l fs = Ok tt -> Forall (fun f => face_degenerate f = false) fs.
Proof.
  induction fs as [|f fs IH]; simpl; intros H; [constructor|].
  destruct (check_face l f) as [[]| |] eqn:Hf; simpl in H; try discriminate.
  constructor; [|by apply IH].
  destruct (face_degenerate f) eqn:Hd; [|reflexivity].
  destruct f as [[a b] c]. unfold check_face in Hf. rewrite Hd in Hf.
  repeat (case_bool_decide; simpl in Hf; try discriminate).
Qed.

Lemma check_nondegenerate m : check m = Ok tt -> nondegenerate m.
Proof.
  unfold check, nondegenerate. intros H.
  destruct (check_faces _ (faces m)) as [[]| |] eqn:Hf; simpl in H; try discriminate.
  eapply check_faces_nondegenerate, Hf.
Qed.

Lemma outlines_fold_flip fs s :
  Forall (fun f => face_degenerate f = false) fs ->
  fold_left (fun s f => fold_left outline_step (face_edges f) s) (map flip_face fs) (rev_set s)
  = rev_set (fold_left (fun s f => fold_left outline_step (face_edges f) s) fs s).
Proof.
  intros H. revert s. induction H as [|f fs Hf _ IH]; intros s; simpl; [done|].
  rewrite face_outline_flip by done. apply IH.
Qed.

Lemma rev_set_empty : rev_set ∅ = ∅.
Proof. set_solver. Qed.

Lemma outlines_oriented_flip m :
  nondegenerate m -> outlines_oriented (flip m) = rev_set (outlines_oriented m).
Proof.
  intros H. unfold outlines_oriented, flip. simpl.
  rewrite <- rev_set_empty at 1. by apply outlines_fold_flip.
Qed.


Lemma outline_step_one_way s e :
  e <> rev_edge e -> one_way s -> one_way (outline_step s e).
Proof.
  intros Hne Hs x. unfold outline_step. case_decide; set_unfold.
  - intros [Hx Hxe] [Hr _]. by apply (Hs x).
  - intros [Hx| ->] [Hr|Hr].
    + by apply (Hs x).
    + apply rev_edge_eq_iff in Hr. rewrite rev_edge_invol in Hr. by subst.
    + rewrite rev_edge_invol in Hr. done.
    + rewrite rev_edge_invol in Hr. done.
Qed.


Lemma outlines_fold_concat fs s :
  fold_left (fun s f => fold_left outline_step (face_edges f) s) fs s
  = fold_left outline_step (concat (map face_edges fs)) s.
Proof.
  revert s. induction fs as [|f fs IH]; intros s; simpl; [done|].
  by rewrite fold_left_app, IH.
Qed.

Lemma outlines_oriented_edges m :
  outlines_oriented m = fold_left outline_step (edges_oriented m) ∅.
Proof. apply outlines_fold_concat. Qed.


Lemma proper_edge_rev e : proper_edge e -> e <> rev_edge e.
Proof. destruct e as [a b]. unfold proper_edge, rev_edge. simpl. congruence. Qed.

Lemma nondegenerate_proper m :
  nondegenerate m -> Forall proper_edge (edges_oriented m).
Proof.
  unfold nondegenerate, edges_oriented. induction 1 as [|f fs Hf _ IH]; simpl; [constructor|].
  apply Forall_app. split; [|done].
  destruct f as [[a b] c]. unfold face_degenerate in Hf.
  rewrite !orb_false_iff, !bool_decide_eq_false in Hf. destruct Hf as [[? ?] ?].
  repeat constructor; unfold proper_edge; simpl; congruence.
Qed.

Lemma fold_outline_one_way es s :
  Forall proper_edge es -> one_way s -> one_way (fold_left outline_step es s).
Proof.
  intros H. revert s. induction H as [|e es He _ IH]; intros s Hs; simpl; [done|].
  apply IH, outline_step_one_way; [by apply proper_edge_rev|done].
Qed.

Lemma fold_outline_subset es s e :
  e ∈ fold_left outline_step es s -> e ∈ s \/ rev_edge e ∈ es.
Proof.
  revert s. induction es as [|x es IH]; intros s; simpl; [by left|].
  intros H. apply IH in H as [H|H].
  - unfold outline_step in H. case_decide; set_unfold.
    + left. tauto.
    + destruct H as [H| ->]; [by left|]. right. left. by rewrite rev_edge_invol.
  - right. by right.
Qed.

(** On a surface (no oriented edge used twice) the outline is exactly the
    reversal of the edges that have no opposite. *)
Lemma fold_outline_surface es :
  Forall proper_edge es -> NoDup es ->
  forall e, e ∈ fold_left outline_step es ∅ <-> rev_edge e ∈ es /\ e ∉ es.
Proof.
  induction es as [|x es IH] using rev_ind; intros Hp Hnd e.
  - simpl. set_solver.
  - apply Forall_app in Hp as [Hp Hx]. apply Forall_inv in Hx.
    apply NoDup_app in Hnd as (Hnd & Hdisj & _).
    assert (Hxes : x ∉ es) by (intros Hin; apply (Hdisj x Hin); by left).
    specialize (IH Hp Hnd).
    rewrite fold_left_app. simpl. unfold outline_step at 1.
    apply proper_edge_rev in Hx.
    case_decide as Hin; set_unfold; rewrite !IH.
    + apply IH in Hin as [Hr Hn].
      split.
      * intros [[? ?] ?]. split; [by left|]. intros [?|[?|[]]]; done.
      * intros [[Hre|[Hre|[]]] Hne].
        -- split; [|intros ->; apply Hne; right; by left]. split; [done|].
           intros ?. apply Hne. by left.
        -- apply rev_edge_eq_iff in Hre. subst e. exfalso. apply Hne. by left.
    + rewrite IH in Hin.
      split.
      * intros [[Hre Hne]| ->].
        -- split; [by left|]. intros [?|[->|[]]]; [done|]. apply Hin. done.
        -- rewrite rev_edge_invol. split; [right; by left|].
           intros [Hr|[Hr|[]]]; [|by symmetry in Hr].
           apply Hin. split; [done|done].
      * intros [[Hre|[Hre|[]]] Hne].
        -- left. split; [done|]. intros ?. apply Hne. by left.
        -- right. by apply rev_edge_eq_iff.
Qed.

Lemma issurface_loop_NoDup es reached :
  issurface_loop reached es = true -> NoDup es /\ forall e, e ∈ es -> e ∉ reached.
Proof.
  revert reached. induction es as [|x es IH]; intros reached; simpl.
  - intros _. split; [constructor|]. set_solver.
  - case_decide as Hx; [discriminate|]. intros H. apply IH in H as [Hnd Hfresh].
    split.
    + constructor; [|done]. intros Hin. apply (Hfresh x Hin). set_solver.
    + intros e [->|Hin]%elem_of_cons; [done|].
      intros He. apply (Hfresh e Hin). set_solver.
Qed.

Lemma issurface_NoDup m : issurface m = true -> NoDup (edges_oriented m).
Proof. intros H. by apply issurface_loop_NoDup in H as [? _]. Qed.

Lemma elem_of_edges_flip m e :
  e ∈ edges_oriented (flip m) <-> rev_edge e ∈ edges_oriented m.
Proof.
  unfold edges_oriented, flip. simpl.
  induction (faces m) as [|f fs IH]; simpl; [set_solver|].
  rewrite !elem_of_app, IH.
  destruct f as [[a b] c]. destruct e as [u v]. unfold rev_edge. simpl.
  set_unfold. intuition congruence.
Qed.


(** C7 (amended): for a mesh accepted by [check], the outline of the flipped
    mesh is the edge-wise reversal of the outline, the two outlines are
    disjoint, and their union holds only oriented edges of the mesh or of its
    flipped copy; on a surface the union is exactly the set of those oriented
    edges whose opposite is not used by any face. *)
Theorem outlines_flip_duality (m : t) :
  check m = Ok tt ->
  outlines_oriented (flip m) = rev_set (outlines_oriented m)
  /\ outlines_oriented m ## outlines_oriented (flip m)
  /\ outlines_oriented m ∪ outlines_oriented (flip m) ⊆ all_oriented_edges m
  /\ (issurface m = true ->
      forall e, e ∈ outlines_oriented m ∪ outlines_oriented (flip m) <->
                e ∈ all_oriented_edges m /\
                ~ (e ∈ edges_oriented m /\ rev_edge e ∈ edges_oriented m)).
Proof.
  intros Hc. apply check_nondegenerate in Hc.
  pose proof (outlines_oriented_flip m Hc) as Hflip.
  pose proof (nondegenerate_proper m Hc) as Hp.
  assert (Hone : one_way (outlines_oriented m)).
  { rewrite outlines_oriented_edges. apply fold_outline_one_way; [done|]. intros e. set_solver. }
  assert (Hsub : forall e, e ∈ outlines_oriented m -> rev_edge e ∈ edges_oriented m).
  { intros e He. rewrite outlines_oriented_edges in He.
    apply fold_outline_subset in He as [He|He]; [set_solver|done]. }
  split; [done|]. rewrite Hflip. split; [|split].
  - intros e He Hr. set_unfold. by apply (Hone e).
  - intros e. unfold all_oriented_edges.
    rewrite !elem_of_union, !elem_of_list_to_set, elem_of_rev_set, elem_of_edges_flip.
    intros [He|He]; apply Hsub in He; rewrite ?rev_edge_invol in He; tauto.
  - intros Hs e. apply issurface_NoDup in Hs.
    pose proof (fold_outline_surface _ Hp Hs) as Hchar.
    rewrite <- outlines_oriented_edges in Hchar.
    unfold all_oriented_edges.
    rewrite !elem_of_union, !elem_of_list_to_set, elem_of_rev_set, elem_of_edges_flip,
      !Hchar, rev_edge_invol.
    tauto.
Qed.


Lemma outlines_flip_duality_witness :
  check glued = Ok tt /\ outlines_oriented glued ## outlines_oriented (flip glued).
Proof.
  split; [reflexivity|].
  apply (outlines_flip_duality glued). reflexivity.
Defined.

(** C7 as stated fails on a closed surface: both outlines are empty although
    the mesh has oriented edges. *)
Lemma outlines_not_all_edges :
  check glued = Ok tt
  /\ outlines_oriented glued ∪ outlines_oriented (flip glued) = ∅
  /\ (0, 1) ∈ all_oriented_edges glued
  /\ outlines_oriented glued ∪ outlines_oriented (flip glued) <> all_oriented_edges glued
  /\ outlines_oriented glued ∪ outlines_oriented (flip glued) <> list_to_set (edges_oriented glued).
Proof.
  assert (H : outlines_oriented glued ∪ outlines_oriented (flip glued) = ∅) by (by vm_compute).
  split; [reflexivity|]. split; [exact H|]. split; [by vm_compute|].
  rewrite H. split; intros Heq.
  - assert (Hin : (0,1) ∈ all_oriented_edges glued) by (by vm_compute). rewrite <- Heq in Hin. set_solver.
  - assert (Hin : (0,1) ∈ (list_to_set (edges_oriented glued) : gset edge)) by (by vm_compute).
    rewrite <- Heq in Hin. set_solver.
Qed.

End MeshFacts.

(** ** Spatial hashing *)

Module HashingFacts.
Import Vec Hashing Container.

Lemma qtrunc_nonneg (x : Q) : (0 <= x)%Q -> qtrunc x = Qfloor x.
Proof.
  intros H. unfold qtrunc. apply Qle_bool_iff in H. by rewrite H.
Qed.

Lemma Qdiv_nonneg (x h : Q) : (0 < h)%Q -> (0 <= x)%Q -> (0 <= x / h)%Q.
Proof.
  intros Hh Hx. apply Qle_shift_div_l; [done|]. lra.
Qed.

Lemma floor_bounds (x h : Q) :
  (0 < h)%Q ->
  (inject_Z (Qfloor (x / h)) * h <= x /\ x < (inject_Z (Qfloor (x / h)) + 1) * h)%Q.
Proof.
  intros Hh.
  pose proof (Qfloor_le (x / h)) as Hlo.
  pose proof (Qlt_floor (x / h)) as Hhi.
  rewrite inject_Z_plus in Hhi. change (inject_Z 1) with 1%Q in Hhi.
  assert (Hx : (x == x / h * h)%Q) by (field; lra).
  set (q := (x / h)%Q) in *. set (f := inject_Z (Qfloor q)) in *.
  split; rewrite Hx at 1; nra.
Qed.

Lemma floor_key_in_cell (h : Q) (p : vec3) :
  (0 < h)%Q -> in_cell h (floor_key h p) p.
Proof.
  intros Hh. unfold in_cell, floor_key. simpl.
  pose proof (floor_bounds (vx p) h Hh). pose proof (floor_bounds (vy p) h Hh).
  pose proof (floor_bounds (vz p) h Hh). tauto.
Qed.

Lemma ivec3_key_nonneg (h : Q) (p : vec3) :
  (0 < h)%Q -> (0 <= vx p)%Q -> (0 <= vy p)%Q -> (0 <= vz p)%Q ->
  ivec3_key h p = floor_key h p.
Proof.
  intros Hh Hx Hy Hz. unfold ivec3_key, floor_key.
  by rewrite !qtrunc_nonneg by (by apply Qdiv_nonneg).
Qed.


Lemma PointSet_init_fresh (h : Q) : PointSet_init h [] = Ok fresh_set.
Proof. reflexivity. Qed.

(** C9: the key of a point is [ivec3(p/cellsize)], which drops the
    fractional part instead of taking the floor: the two agree on
    non-negative coordinates ([ivec3_key_nonneg]) and differ on negative
    ones, where the point is not inside the cell it is filed under; and
    [PointSet.keyfor] raises because [cellsize] was never stored. *)
Theorem keysfor_point_truncates :
  (forall sqrtQ fuel m p,
     keysfor sqrtQ fuel m (Point p) = Ok [Some (ivec3_key (pm_cellsize m) p)])
  /\ keysfor sqrt_exact 0 unit_map (Point (-1 # 2, 0, 0)%Q) = Ok [Some (0, 0, 0)]
  /\ floor_key 1 (-1 # 2, 0, 0)%Q = (-1, 0, 0)
  /\ ~ in_cell 1 (0, 0, 0) (-1 # 2, 0, 0)%Q
  /\ (forall h s p, PointSet_init h [] = Ok s -> keyfor s p = Raise AttributeError).
Proof.
  split; [reflexivity|]. split; [reflexivity|]. split; [reflexivity|]. split.
  - intros (H & _). vm_compute in H. by apply H.
  - intros h s p [= <-]. reflexivity.
Qed.

(** C4: [PointSet.add] never returns an index: its value is [None] whenever
    it returns, and on a set built by the constructor it raises
    [AttributeError] because the constructor does not store [cellsize]. *)
Theorem pointset_add_returns_none :
  (forall s pt r, add s pt = Ok r -> r.2 = PyNone)
  /\ (forall h s pt, PointSet_init h [] = Ok s -> add s pt = Raise AttributeError)
  /\ (forall h pt pts, PointSet_init h (pt :: pts) = Raise AttributeError).
Proof.
  split; [|split].
  - intros s pt r. unfold add. destruct (keyfor s pt) as [k| |]; simpl; try discriminate.
    destruct (pt_dict s !! k); intros [= <-]; reflexivity.
  - intros h s pt [= <-]. reflexivity.
  - reflexivity.
Qed.


Lemma mergeclose_loop_fresh pts i merges :
  pts <> [] -> mergeclose_loop pts i fresh_set merges = Raise AttributeError.
Proof. destruct pts; [done|reflexivity]. Qed.

(** C5: on a container that has at least one point, [mergeclose] raises at
    its first [PointSet.add], so there is no result to compare between one
    and two applications. *)
Theorem mergeclose_raises {C : Type} `{PointContainer C} (c : C) (limit : option Q) :
  c_points c <> [] -> mergeclose c limit 0 = Raise AttributeError.
Proof.
  intros Hne. unfold mergeclose. rewrite PointSet_init_fresh. simpl.
  rewrite drop_0. destruct (c_points c); [done|reflexivity].
Qed.


Lemma mergeclose_raises_witness :
  mergeclose one_point (Some 1%Q) 0 = Raise AttributeError.
Proof. apply (mergeclose_raises one_point (Some 1%Q)). discriminate. Defined.

Lemma seg_axis_never_z prox : seg_axis prox <> 2%nat.
Proof.
  unfold seg_axis.
  destruct (elt (nth 1 prox PInf) (nth 0 prox PInf)) eqn:E; simpl.
  - assert (elt (nth 1 prox PInf) (nth 1 prox PInf) = false) as ->; [|done].
    destruct (nth 1 prox PInf); simpl; [|done].
    unfold Qlt_bool. apply negb_false_iff, Qle_bool_iff, Qle_refl.
  - rewrite E. done.
Qed.


(** C8: the second comparison of the axis selection tests [prox[1]] again,
    so the Z axis is never selected; the traversal of [skew_a]-[skew_b] steps
    over the cell (0,1,1) that the segment crosses, and a segment along Z
    steps by an infinite distance. *)
Theorem segment_skips_z_crossing :
  (forall prox, seg_axis prox <> 2%nat)
  /\ keysfor sqrt_exact 8 unit_map (Segment skew_a skew_b)
     = Ok [Some (0, 0, 0); Some (0, 0, 1); Some (0, 1, 2)]
  /\ in_cell 1 (0, 1, 1) (33 # 100, 102 # 100, 194 # 100)%Q
  /\ (let w := (23 # 30)%Q in
      vx (33 # 100, 102 # 100, 194 # 100)%Q == (1 - w) * vx skew_a + w * vx skew_b /\
      vy (33 # 100, 102 # 100, 194 # 100)%Q == (1 - w) * vy skew_a + w * vy skew_b /\
      vz (33 # 100, 102 # 100, 194 # 100)%Q == (1 - w) * vz skew_a + w * vz skew_b)%Q
  /\ keysfor sqrt_exact 8 unit_map (Segment (0, 0, 0)%Q (0, 0, 5 # 2)%Q)
     = Ok [Some (0, 0, 0); None].
Proof.
  split; [exact seg_axis_never_z|]. split; [by vm_compute|]. split.
  - unfold in_cell, Qle, Qlt; simpl. lia.
  - split; [|by vm_compute]. unfold Qeq; simpl. lia.
Qed.

(** *** Rasterization of triangles *)

Ltac halve h :=
  let hh := fresh "hh" in
  let E := fresh "Ehh" in
  set (hh := (h / 2)%Q) in *;
  assert (E : (2 * hh == h)%Q) by (unfold hh; field);
  clearbody hh.

Lemma Qlt_bool_iff (x y : Q) : Qlt_bool x y = true <-> (x < y)%Q.
Proof.
  unfold Qlt_bool. rewrite negb_true_iff. split.
  - intros H. apply Qnot_le_lt. intros Hle. apply Qle_bool_iff in Hle. congruence.
  - intros H. destruct (Qle_bool y x) eqn:E; [|done].
    apply Qle_bool_iff in E. lra.
Qed.

Lemma qmod_floor (x h : Q) : (x - qmod x h == h * inject_Z (Qfloor (x / h)))%Q.
Proof. unfold qmod. ring. Qed.

Lemma floor_unique (x h : Q) (k : Z) :
  (0 < h)%Q -> (inject_Z k * h <= x)%Q -> (x < (inject_Z k + 1) * h)%Q ->
  Qfloor (x / h) = k.
Proof.
  intros Hh Hlo Hhi.
  assert (Hx : (x == x / h * h)%Q) by (field; lra).
  pose proof (Qfloor_le (x / h)) as H1.
  pose proof (Qlt_floor (x / h)) as H2.
  rewrite inject_Z_plus in H2. change (inject_Z 1) with 1%Q in H2.
  set (q := (x / h)%Q) in *. 
  assert (Hq1 : (inject_Z k <= q)%Q) by nra.
  assert (Hq2 : (q < inject_Z k + 1)%Q) by nra.
  assert (Ha : (inject_Z (Qfloor q) < inject_Z (k + 1))%Q).
  { rewrite inject_Z_plus. change (inject_Z 1) with 1%Q. lra. }
  assert (Hb : (inject_Z k < inject_Z (Qfloor q + 1))%Q).
  { rewrite inject_Z_plus. change (inject_Z 1) with 1%Q. lra. }
  rewrite <- Zlt_Qlt in Ha, Hb. lia.
Qed.

Lemma floor_center (x h : Q) (k : Z) :
  (0 < h)%Q -> (x == (inject_Z k + (1 # 2)) * h)%Q -> Qfloor (x / h) = k.
Proof.
  intros Hh Hx. apply floor_unique; [done| |]; rewrite Hx; nra.
Qed.

(** the floor of a quotient is monotone in the numerator *)
Lemma floor_le_of_lt (lo p h : Q) :
  (0 < h)%Q -> (h * inject_Z (Qfloor (lo / h)) < p)%Q ->
  (Qfloor (lo / h) <= Qfloor (p / h))%Z.
Proof.
  intros Hh H.
  destruct (floor_bounds p h Hh) as [_ Hp].
  assert (Ha : (inject_Z (Qfloor (lo / h)) < inject_Z (Qfloor (p / h) + 1))%Q).
  { rewrite inject_Z_plus. change (inject_Z 1) with 1%Q. nra. }
  rewrite <- Zlt_Qlt in Ha. lia.
Qed.

Lemma floor_ge_of_lt (hi p h : Q) :
  (0 < h)%Q -> (p < h * (inject_Z (Qfloor (hi / h)) + 1))%Q ->
  (Qfloor (p / h) <= Qfloor (hi / h))%Z.
Proof.
  intros Hh H.
  destruct (floor_bounds p h Hh) as [Hp _].
  assert (Ha : (inject_Z (Qfloor (p / h)) < inject_Z (Qfloor (hi / h) + 1))%Q).
  { rewrite inject_Z_plus. change (inject_Z 1) with 1%Q. nra. }
  rewrite <- Zlt_Qlt in Ha. lia.
Qed.

Lemma in_centers (h lo hi y : Q) :
  In y (centers h lo hi) ->
  exists i : nat, y = ((lo - qmod lo h) + h * inject_Z (Z.of_nat i) + h / 2)%Q.
Proof.
  unfold centers. rewrite in_map_iff. intros (i & <- & _). by exists i.
Qed.

(** a cell centre between the bounds is one of the generated centres *)
Lemma centers_cover (h lo hi t : Q) (k : Z) :
  (0 < h)%Q -> (lo <= t)%Q -> (t <= hi)%Q ->
  (t == (inject_Z k + (1 # 2)) * h)%Q ->
  exists y, In y (centers h lo hi) /\ (y == t)%Q.
Proof.
  intros Hh Hlo Hhi Ht.
  set (F := Qfloor (lo / h)).
  pose proof (qmod_floor lo h) as Hlo'. fold F in Hlo'.
  destruct (floor_bounds lo h Hh) as [HF1 HF2]. fold F in HF1, HF2.
  assert (HFk : (F <= k)%Z).
  { assert (Ha : (inject_Z F < inject_Z (k + 1))%Q).
    { rewrite inject_Z_plus. change (inject_Z 1) with 1%Q. nra. }
    rewrite <- Zlt_Qlt in Ha. lia. }
  set (i := Z.to_nat (k - F)).
  assert (Hi : inject_Z (Z.of_nat i) == inject_Z k - inject_Z F).
  { unfold i. rewrite Z2Nat.id by lia. unfold Zminus. rewrite inject_Z_plus, inject_Z_opp. ring. }
  exists ((lo - qmod lo h) + h * inject_Z (Z.of_nat i) + h / 2)%Q. split.
  - unfold centers. apply in_map_iff. exists i. split; [done|].
    unfold steps. apply in_seq. split; [lia|]. simpl.
    set (w := ((hi - (lo - qmod lo h)) / h)%Q).
    assert (Hw : (inject_Z (Z.of_nat i) + (1 # 2) <= w)%Q).
    { unfold w. apply Qle_shift_div_l; [done|]. rewrite Hi, Hlo'. nra. }
    pose proof (Qle_ceiling w) as Hc.
    assert (Ha : (inject_Z (Z.of_nat i) < inject_Z (Qceiling w))%Q) by lra.
    rewrite <- Zlt_Qlt in Ha. lia.
  - rewrite Hi, Hlo', Ht. field.
Qed.

Lemma fold_Qmin_le (l : list Q) (x0 : Q) :
  (fold_left Qmin l x0 <= x0)%Q /\ forall y, In y l -> (fold_left Qmin l x0 <= y)%Q.
Proof.
  revert x0. induction l as [|z l IH]; intros x0; simpl.
  - split; [lra|tauto].
  - destruct (IH (Qmin x0 z)) as [H1 H2].
    pose proof (Q.le_min_l x0 z). pose proof (Q.le_min_r x0 z).
    split; [lra|]. intros y [<-|Hy]; [lra|auto].
Qed.

Lemma fold_Qmax_ge (l : list Q) (x0 : Q) :
  (x0 <= fold_left Qmax l x0)%Q /\ forall y, In y l -> (y <= fold_left Qmax l x0)%Q.
Proof.
  revert x0. induction l as [|z l IH]; intros x0; simpl.
  - split; [lra|tauto].
  - destruct (IH (Qmax x0 z)) as [H1 H2].
    pose proof (Q.le_max_l x0 z). pose proof (Q.le_max_r x0 z).
    split; [lra|]. intros y [<-|Hy]; [lra|auto].
Qed.

Lemma py_min_le (l : list Q) (y : Q) :
  In y l -> exists m, py_min l = Ok m /\ (m <= y)%Q.
Proof.
  destruct l as [|x0 l]; [done|]. intros Hy. eexists. split; [reflexivity|].
  destruct (fold_Qmin_le l x0) as [H1 H2]. destruct Hy as [<-|Hy]; auto.
Qed.

Lemma py_max_ge (l : list Q) (y : Q) :
  In y l -> exists m, py_max l = Ok m /\ (y <= m)%Q.
Proof.
  destruct l as [|x0 l]; [done|]. intros Hy. eexists. split; [reflexivity|].
  destruct (fold_Qmax_ge l x0) as [H1 H2]. destruct Hy as [<-|Hy]; auto.
Qed.

Lemma Qmul_nonpos_iff (u w : Q) :
  (u * w <= 0)%Q <-> ((u <= 0 /\ 0 <= w) \/ (0 <= u /\ w <= 0))%Q.
Proof.
  split.
  - intros H. destruct (Qlt_le_dec 0 u), (Qlt_le_dec 0 w); try (left; lra); try (right; lra).
    exfalso. nra.
    destruct (Qlt_le_dec u 0), (Qlt_le_dec w 0); try (left; lra); try (right; lra).
    exfalso. nra.
  - intros [[? ?]|[? ?]]; nra.
Qed.


Lemma edge_selected_iff (h x : Q) (prev cur : vec3) :
  edge_selected h x prev cur = true <->
  ((vx prev - x + h / 2 <= 0 /\ 0 <= vx cur - x - h / 2)
   \/ (0 <= vx prev - x + h / 2 /\ vx cur - x - h / 2 <= 0)
   \/ (vx prev - x - h / 2 <= 0 /\ 0 <= vx cur - x + h / 2)
   \/ (0 <= vx prev - x - h / 2 /\ vx cur - x + h / 2 <= 0))%Q.
Proof.
  unfold edge_selected. rewrite orb_true_iff, !Qle_bool_iff, !Qmul_nonpos_iff. tauto.
Qed.

Lemma edge_cand_selected (h x : Q) (prev cur : vec3) :
  edge_selected h x prev cur = true ->
  edge_cand h x prev cur =
    let slope := if Qeq_bool (vx (vsub prev cur)) 0 then 0%Q
                 else (vy (vsub prev cur) / vx (vsub prev cur))%Q in
    [ (vy cur + slope * (x - h / 2 - vx cur))%Q;
      (vy cur + slope * (x + h / 2 - vx cur))%Q ].
Proof. unfold edge_selected, edge_cand. simpl. by intros ->. Qed.

Lemma edge_cand_nonempty_of_selected (h x : Q) (prev cur : vec3) :
  edge_selected h x prev cur = true -> edge_cand h x prev cur <> [].
Proof. intros H. rewrite edge_cand_selected by done. done. Qed.

(** a slice that meets the x-range of the triangle selects an edge *)
Lemma some_edge_selected (h x : Q) (s0 s1 s2 : vec3) (t : Q) :
  (0 < h)%Q ->
  (x - h / 2 <= t <= x + h / 2)%Q ->
  (Qmin (Qmin (vx s0) (vx s1)) (vx s2) <= t)%Q ->
  (t <= Qmax (Qmax (vx s0) (vx s1)) (vx s2))%Q ->
  edge_selected h x s2 s0 = true \/ edge_selected h x s0 s1 = true
  \/ edge_selected h x s1 s2 = true.
Proof.
  intros Hh Ht Hmin Hmax. rewrite !edge_selected_iff.
  revert Hmin Hmax.
  destruct (Q.min_spec (vx s0) (vx s1)) as [[? ->]|[? ->]];
  destruct (Q.max_spec (vx s0) (vx s1)) as [[? ->]|[? ->]];
  (match goal with |- context [Qmin ?a ?b] => destruct (Q.min_spec a b) as [[? ->]|[? ->]] end);
  (match goal with |- context [Qmax ?a ?b] => destruct (Q.max_spec a b) as [[? ->]|[? ->]] end);
  intros Hmin Hmax;
  destruct (Qlt_le_dec (vx s0) (x - h / 2)), (Qlt_le_dec (x + h / 2) (vx s0)),
           (Qlt_le_dec (vx s1) (x - h / 2)), (Qlt_le_dec (x + h / 2) (vx s1)),
           (Qlt_le_dec (vx s2) (x - h / 2)), (Qlt_le_dec (x + h / 2) (vx s2));
  try (exfalso; lra);
  first [ left; left; lra | left; right; left; lra | left; right; right; left; lra
        | left; right; right; right; lra
        | right; left; left; lra | right; left; right; left; lra
        | right; left; right; right; left; lra | right; left; right; right; right; lra
        | right; right; left; lra | right; right; right; left; lra
        | right; right; right; right; left; lra | right; right; right; right; right; lra ].
Qed.

Lemma centers_slab (h lo hi x : Q) :
  (0 < h)%Q -> (lo <= hi)%Q -> In x (centers h lo hi) ->
  exists t, (x - h / 2 <= t <= x + h / 2 /\ lo <= t <= hi)%Q.
Proof.
  intros Hh Hle Hx. unfold centers in Hx. apply in_map_iff in Hx as (i & <- & Hi).
  unfold steps in Hi. apply in_seq in Hi as [_ Hi]. simpl in Hi.
  pose proof (qmod_floor lo h) as Hlo'.
  destruct (floor_bounds lo h Hh) as [HF1 HF2].
  set (lo' := (lo - qmod lo h)%Q) in *.
  set (F := inject_Z (Qfloor (lo / h))) in *.
  destruct i as [|i].
  - exists lo. change (inject_Z (Z.of_nat 0)) with 0%Q. clearbody lo' F. clear Hi.
    assert (E1 : (lo' + h * 0 + h / 2 - h / 2 == F * h)%Q) by (rewrite Hlo'; field).
    assert (E2 : (lo' + h * 0 + h / 2 + h / 2 == (F + 1) * h)%Q) by (rewrite Hlo'; field).
    rewrite E1, E2. repeat split; lra.
  - set (w := ((hi - lo') / h)%Q) in *.
    assert (Hc : (Z.of_nat (S i) < Qceiling w)%Z) by lia.
    pose proof (Qceiling_lt w) as Hw.
    assert (Hiw : (inject_Z (Z.of_nat (S i)) < w)%Q).
    { assert (Ha : (inject_Z (Z.of_nat (S i)) <= inject_Z (Qceiling w - 1))%Q).
      { rewrite <- Zle_Qle. lia. }
      lra. }
    assert (H1 : (1 <= inject_Z (Z.of_nat (S i)))%Q).
    { change 1%Q with (inject_Z 1). rewrite <- Zle_Qle. lia. }
    assert (Hmul : (h * inject_Z (Z.of_nat (S i)) < hi - lo')%Q).
    { assert (Hb : (hi - lo' == w * h)%Q) by (unfold w; field; lra).
      rewrite Hb. clearbody w lo'. nra. }
    exists (lo' + h * inject_Z (Z.of_nat (S i)))%Q.
    clearbody lo' F w. clear Hi Hc Hw.
    set (n := inject_Z (Z.of_nat (S i))) in *. clearbody n.
    assert (E1 : (lo' + h * n + h / 2 - h / 2 == lo' + h * n)%Q) by field.
    assert (E2 : (lo' + h * n + h / 2 + h / 2 == lo' + h * n + h)%Q) by field.
    rewrite E1, E2.
    assert (E3 : (h <= h * n)%Q) by nra.
    assert (E4 : (lo' == F * h)%Q) by (rewrite Hlo'; ring).
    repeat split; lra.
Qed.

Lemma y_slice_ok (h x : Q) (s0 s1 s2 : vec3) (t : Q) :
  (0 < h)%Q ->
  (x - h / 2 <= t <= x + h / 2)%Q ->
  (Qmin (Qmin (vx s0) (vx s1)) (vx s2) <= t)%Q ->
  (t <= Qmax (Qmax (vx s0) (vx s1)) (vx s2))%Q ->
  exists sl, y_slice h s0 s1 s2 x = Ok sl.
Proof.
  intros Hh Ht Hmin Hmax.
  pose proof (some_edge_selected h x s0 s1 s2 t Hh Ht Hmin Hmax) as Hsel.
  unfold y_slice.
  set (cand := edge_cand h x s2 s0 ++ edge_cand h x s0 s1 ++ edge_cand h x s1 s2).
  assert (Hne : cand <> []).
  { unfold cand. destruct Hsel as [H|[H|H]]; apply edge_cand_nonempty_of_selected in H;
      intros Happ; apply app_eq_nil in Happ as [? Happ]; try done;
      apply app_eq_nil in Happ as [? ?]; done. }
  destruct cand as [|c0 cand']; [done|]. simpl. eauto.
Qed.

Lemma min3_le_max3 (a b c : Q) : (Qmin (Qmin a b) c <= Qmax (Qmax a b) c)%Q.
Proof.
  pose proof (Q.le_min_l (Qmin a b) c). pose proof (Q.le_min_l a b).
  pose proof (Q.le_max_l (Qmax a b) c). pose proof (Q.le_max_l a b). lra.
Qed.

Lemma y_selection_ok (h : Q) (s0 s1 s2 : vec3) (xpts : list Q) :
  (0 < h)%Q ->
  (forall x, In x xpts -> exists t,
      (x - h / 2 <= t <= x + h / 2)%Q /\
      (Qmin (Qmin (vx s0) (vx s1)) (vx s2) <= t
       <= Qmax (Qmax (vx s0) (vx s1)) (vx s2))%Q) ->
  exists ys, y_selection h s0 s1 s2 xpts = Ok ys
    /\ forall x sl, In x xpts -> y_slice h s0 s1 s2 x = Ok sl ->
                    forall p, In p sl -> In p ys.
Proof.
  intros Hh. induction xpts as [|x xpts IH]; intros Hall; simpl.
  - exists []. split; [done|]. intros ? ? [].
  - destruct (Hall x (or_introl eq_refl)) as (t & Ht & Hmin & Hmax).
    destruct (y_slice_ok h x s0 s1 s2 t Hh Ht Hmin Hmax) as [sl Hsl].
    destruct IH as (ys & Hys & Hin); [intros; apply Hall; by right|].
    rewrite Hsl, Hys. simpl. exists (sl ++ ys). split; [done|].
    intros x' sl' [<-|Hx'] Hsl' p Hp; apply in_or_app.
    + left. congruence.
    + right. eauto.
Qed.

Lemma convex_upper (wa wb wc a b c X u : Q) :
  (0 <= wa)%Q -> (0 <= wb)%Q -> (0 <= wc)%Q -> (wa + wb + wc == 1)%Q ->
  (X == wa * a + wb * b + wc * c)%Q ->
  (a <= u)%Q -> (b <= u)%Q -> (c <= u)%Q -> (X <= u)%Q.
Proof.
  intros Ha Hb Hc Hs HX H1 H2 H3.
  assert (E : (u == wa * u + wb * u + wc * u)%Q).
  { transitivity ((wa + wb + wc) * u)%Q; [rewrite Hs; ring|ring]. }
  assert (wa * a <= wa * u)%Q by nra.
  assert (wb * b <= wb * u)%Q by nra.
  assert (wc * c <= wc * u)%Q by nra.
  rewrite HX, E. lra.
Qed.

Lemma convex_lower (wa wb wc a b c X l : Q) :
  (0 <= wa)%Q -> (0 <= wb)%Q -> (0 <= wc)%Q -> (wa + wb + wc == 1)%Q ->
  (X == wa * a + wb * b + wc * c)%Q ->
  (l <= a)%Q -> (l <= b)%Q -> (l <= c)%Q -> (l <= X)%Q.
Proof.
  intros Ha Hb Hc Hs HX H1 H2 H3.
  assert (E : (l == wa * l + wb * l + wc * l)%Q).
  { transitivity ((wa + wb + wc) * l)%Q; [rewrite Hs; ring|ring]. }
  assert (wa * l <= wa * a)%Q by nra.
  assert (wb * l <= wb * b)%Q by nra.
  assert (wc * l <= wc * c)%Q by nra.
  rewrite HX, E. lra.
Qed.

Lemma convex_between (wa wb wc a b c X : Q) :
  (0 <= wa)%Q -> (0 <= wb)%Q -> (0 <= wc)%Q -> (wa + wb + wc == 1)%Q ->
  (X == wa * a + wb * b + wc * c)%Q ->
  (Qmin (Qmin a b) c <= X <= Qmax (Qmax a b) c)%Q.
Proof.
  intros Ha Hb Hc Hs HX.
  pose proof (Q.le_min_l (Qmin a b) c). pose proof (Q.le_min_r (Qmin a b) c).
  pose proof (Q.le_min_l a b). pose proof (Q.le_min_r a b).
  pose proof (Q.le_max_l (Qmax a b) c). pose proof (Q.le_max_r (Qmax a b) c).
  pose proof (Q.le_max_l a b). pose proof (Q.le_max_r a b).
  split.
  - apply (convex_lower wa wb wc a b c X _ Ha Hb Hc Hs HX); lra.
  - apply (convex_upper wa wb wc a b c X _ Ha Hb Hc Hs HX); lra.
Qed.

Ltac min_max_cases :=
  repeat match goal with
  | H : context [Qmin ?a ?b] |- _ =>
      let E := fresh in destruct (Q.min_spec a b) as [[? E]|[? E]]; rewrite E in *; clear E
  | H : context [Qmax ?a ?b] |- _ =>
      let E := fresh in destruct (Q.max_spec a b) as [[? E]|[? E]]; rewrite E in *; clear E
  end.

(** going round the triangle, the edges on which x decreases cover the whole
    x-range, and so do the edges on which it increases *)
Lemma descending_edge (a b c X : Q) :
  (Qmin (Qmin a b) c <= X <= Qmax (Qmax a b) c)%Q ->
  ~ (a == b /\ b == c)%Q ->
  ((a < c /\ a <= X <= c) \/ (b < a /\ b <= X <= a) \/ (c < b /\ c <= X <= b))%Q.
Proof.
  intros [Hlo Hhi] Hne. min_max_cases.
  all: destruct (Qlt_le_dec X a), (Qlt_le_dec X b), (Qlt_le_dec X c),
         (Qlt_le_dec a X), (Qlt_le_dec b X), (Qlt_le_dec c X);
    try (exfalso; lra);
    try (exfalso; apply Hne; split; lra);
    first [ left; lra | right; left; lra | right; right; lra ].
Qed.

Lemma ascending_edge (a b c X : Q) :
  (Qmin (Qmin a b) c <= X <= Qmax (Qmax a b) c)%Q ->
  ~ (a == b /\ b == c)%Q ->
  ((c < a /\ c <= X <= a) \/ (a < b /\ a <= X <= b) \/ (b < c /\ b <= X <= c))%Q.
Proof.
  intros [Hlo Hhi] Hne. min_max_cases.
  all: destruct (Qlt_le_dec X a), (Qlt_le_dec X b), (Qlt_le_dec X c),
         (Qlt_le_dec a X), (Qlt_le_dec b X), (Qlt_le_dec c X);
    try (exfalso; lra);
    try (exfalso; apply Hne; split; lra);
    first [ left; lra | right; left; lra | right; right; lra ].
Qed.


Lemma edge_line_height (prev cur m : vec3) (wp wc wm X Y : Q) :
  (wp + wc + wm == 1)%Q ->
  (X == wp * vx prev + wc * vx cur + wm * vx m)%Q ->
  (Y == wp * vy prev + wc * vy cur + wm * vy m)%Q ->
  ~ (vx prev - vx cur == 0)%Q ->
  ((Y - (vy cur + (vy prev - vy cur) / (vx prev - vx cur) * (X - vx cur)))
   * (vx prev - vx cur) == wm * edge_delta prev cur m)%Q.
Proof.
  intros Hs HX HY Hv. unfold edge_delta.
  assert (Hwp : (wp == 1 - wc - wm)%Q) by lra.
  rewrite HX, HY, Hwp. field. done.
Qed.

Lemma sq_pos_cancel (d v : Q) : ~ (v == 0)%Q -> (0 <= d * v * v)%Q -> (0 <= d)%Q.
Proof.
  intros Hv H. destruct (Qlt_le_dec d 0) as [Hd|]; [|done]. exfalso.
  assert (0 < v * v)%Q by (destruct (Qlt_le_dec 0 v); [nra|]; assert (v < 0)%Q by lra; nra).
  nra.
Qed.

Lemma edge_cand_side (h x : Q) (prev cur m : vec3) (wp wc wm X Y : Q) :
  (0 <= wm)%Q -> (wp + wc + wm == 1)%Q ->
  (X == wp * vx prev + wc * vx cur + wm * vx m)%Q ->
  (Y == wp * vy prev + wc * vy cur + wm * vy m)%Q ->
  (x == X)%Q ->
  ~ (vx prev - vx cur == 0)%Q ->
  edge_selected h x prev cur = true ->
  ((0 <= edge_delta prev cur m * (vx prev - vx cur))%Q ->
     exists c, In c (edge_cand h x prev cur) /\ (c <= Y)%Q)
  /\ ((edge_delta prev cur m * (vx prev - vx cur) <= 0)%Q ->
     exists c, In c (edge_cand h x prev cur) /\ (Y <= c)%Q).
Proof.
  intros Hwm Hs HX HY Hx Hv Hsel.
  pose proof (edge_line_height prev cur m wp wc wm X Y Hs HX HY Hv) as Hh.
  rewrite edge_cand_selected by done. cbv zeta.
  assert (Hvx : vx (vsub prev cur) = (vx prev - vx cur)%Q) by reflexivity.
  assert (Hvy : vy (vsub prev cur) = (vy prev - vy cur)%Q) by reflexivity.
  rewrite Hvx, Hvy.
  destruct (Qeq_bool (vx prev - vx cur) 0) eqn:E; [apply Qeq_bool_iff in E; done|].
  set (r := ((vy prev - vy cur) / (vx prev - vx cur))%Q) in *.
  set (v := (vx prev - vx cur)%Q) in *.
  set (dl := edge_delta prev cur m) in *.
  set (L := (vy cur + r * (X - vx cur))%Q) in *.
  set (c1 := (vy cur + r * (x - h / 2 - vx cur))%Q).
  set (c2 := (vy cur + r * (x + h / 2 - vx cur))%Q).
  assert (Hmid : (c1 + c2 == 2 * L)%Q) by (unfold c1, c2, L; rewrite Hx; field).
  clearbody r v dl L c1 c2.
  split; intros Hsign.
  - assert (Hge : (0 <= Y - L)%Q).
    { apply (sq_pos_cancel _ v Hv). rewrite Hh. nra. }
    destruct (Qlt_le_dec c1 c2).
    + exists c1. split; [by left|lra].
    + exists c2. split; [right; by left|lra].
  - assert (Hge : (0 <= L - Y)%Q).
    { apply (sq_pos_cancel _ v Hv).
      assert (E2 : ((L - Y) * v == - (wm * dl))%Q) by (rewrite <- Hh; ring).
      rewrite E2. nra. }
    destruct (Qlt_le_dec c1 c2).
    + exists c2. split; [right; by left|lra].
    + exists c1. split; [by left|lra].
Qed.

Lemma span_selected_desc (h x : Q) (prev cur : vec3) :
  (0 < h)%Q -> (vx cur <= x <= vx prev)%Q -> edge_selected h x prev cur = true.
Proof. intros Hh [? ?]. apply edge_selected_iff. halve h. right. left. split; lra. Qed.

Lemma span_selected_asc (h x : Q) (prev cur : vec3) :
  (0 < h)%Q -> (vx prev <= x <= vx cur)%Q -> edge_selected h x prev cur = true.
Proof. intros Hh [? ?]. apply edge_selected_iff. halve h. right. right. left. split; lra. Qed.


Lemma edge_delta_0 s0 s1 s2 : (edge_delta s2 s0 s1 == - tri_det s0 s1 s2)%Q.
Proof. unfold edge_delta, tri_det, cross, vsub, vx, vy, vz. simpl. ring. Qed.
Lemma edge_delta_1 s0 s1 s2 : (edge_delta s0 s1 s2 == - tri_det s0 s1 s2)%Q.
Proof. unfold edge_delta, tri_det, cross, vsub, vx, vy, vz. simpl. ring. Qed.
Lemma edge_delta_2 s0 s1 s2 : (edge_delta s1 s2 s0 == - tri_det s0 s1 s2)%Q.
Proof. unfold edge_delta, tri_det, cross, vsub, vx, vy, vz. simpl. ring. Qed.

Lemma tri_det_xs s0 s1 s2 :
  ~ (tri_det s0 s1 s2 == 0)%Q -> ~ (vx s0 == vx s1 /\ vx s1 == vx s2)%Q.
Proof.
  intros Hd [H1 H2]. apply Hd.
  unfold tri_det, cross, vsub, vx, vy, vz in *. simpl in *.
  rewrite H2 in H1. rewrite H1, H2. ring.
Qed.

Section Slice.
Variables (h x : Q) (s0 s1 s2 : vec3) (wa wb wc X Y : Q).
Hypothesis Hh : (0 < h)%Q.
Hypothesis Hwa : (0 <= wa)%Q.
Hypothesis Hwb : (0 <= wb)%Q.
Hypothesis Hwc : (0 <= wc)%Q.
Hypothesis Hsum : (wa + wb + wc == 1)%Q.
Hypothesis HX : (X == wa * vx s0 + wb * vx s1 + wc * vx s2)%Q.
Hypothesis HY : (Y == wa * vy s0 + wb * vy s1 + wc * vy s2)%Q.
Hypothesis Hx : (x == X)%Q.
Hypothesis Hdet : ~ (tri_det s0 s1 s2 == 0)%Q.

Let cand := edge_cand h x s2 s0 ++ edge_cand h x s0 s1 ++ edge_cand h x s1 s2.

Lemma side0 :
  ~ (vx s2 - vx s0 == 0)%Q -> edge_selected h x s2 s0 = true ->
  ((tri_det s0 s1 s2 * (vx s2 - vx s0) <= 0)%Q ->
     exists c, In c cand /\ (c <= Y)%Q)
  /\ ((0 <= tri_det s0 s1 s2 * (vx s2 - vx s0))%Q ->
     exists c, In c cand /\ (Y <= c)%Q).
Proof.
  intros Hv Hsel.
  destruct (edge_cand_side h x s2 s0 s1 wc wa wb X Y) as [H1 H2]; try done; try lra.
  rewrite edge_delta_0 in H1, H2.
  split; intros Hs; [destruct H1 as (c & Hc & ?)|destruct H2 as (c & Hc & ?)];
    try nra; exists c; (split; [|done]); unfold cand; apply in_or_app; by left.
Qed.

Lemma side1 :
  ~ (vx s0 - vx s1 == 0)%Q -> edge_selected h x s0 s1 = true ->
  ((tri_det s0 s1 s2 * (vx s0 - vx s1) <= 0)%Q ->
     exists c, In c cand /\ (c <= Y)%Q)
  /\ ((0 <= tri_det s0 s1 s2 * (vx s0 - vx s1))%Q ->
     exists c, In c cand /\ (Y <= c)%Q).
Proof.
  intros Hv Hsel.
  destruct (edge_cand_side h x s0 s1 s2 wa wb wc X Y) as [H1 H2]; try done; try lra.
  rewrite edge_delta_1 in H1, H2.
  split; intros Hs; [destruct H1 as (c & Hc & ?)|destruct H2 as (c & Hc & ?)];
    try nra; exists c; (split; [|done]); unfold cand; apply in_or_app; right;
    apply in_or_app; by left.
Qed.

Lemma side2 :
  ~ (vx s1 - vx s2 == 0)%Q -> edge_selected h x s1 s2 = true ->
  ((tri_det s0 s1 s2 * (vx s1 - vx s2) <= 0)%Q ->
     exists c, In c cand /\ (c <= Y)%Q)
  /\ ((0 <= tri_det s0 s1 s2 * (vx s1 - vx s2))%Q ->
     exists c, In c cand /\ (Y <= c)%Q).
Proof.
  intros Hv Hsel.
  destruct (edge_cand_side h x s1 s2 s0 wb wc wa X Y) as [H1 H2]; try done; try lra.
  rewrite edge_delta_2 in H1, H2.
  split; intros Hs; [destruct H1 as (c & Hc & ?)|destruct H2 as (c & Hc & ?)];
    try nra; exists c; (split; [|done]); unfold cand; apply in_or_app; right;
    apply in_or_app; by right.
Qed.

Lemma cand_brackets :
  (exists c, In c cand /\ (c <= Y)%Q) /\ (exists c, In c cand /\ (Y <= c)%Q).
Proof.
  pose proof (convex_between wa wb wc (vx s0) (vx s1) (vx s2) X Hwa Hwb Hwc Hsum HX) as Hbt.
  pose proof (tri_det_xs s0 s1 s2 Hdet) as Hxs.
  pose proof (descending_edge _ _ _ X Hbt Hxs) as Hdesc.
  pose proof (ascending_edge _ _ _ X Hbt Hxs) as Hasc.
  set (D := tri_det s0 s1 s2) in *.
  assert (HD : (D < 0 \/ 0 < D)%Q).
  { destruct (Qlt_le_dec D 0); [by left|]. destruct (Qlt_le_dec 0 D); [by right|].
    exfalso. apply Hdet. lra. }
  assert (Hd0 : (vx s0 < vx s2 /\ vx s0 <= X <= vx s2)%Q ->
                ((D * (vx s2 - vx s0) <= 0)%Q -> exists c, In c cand /\ (c <= Y)%Q)
                /\ ((0 <= D * (vx s2 - vx s0))%Q -> exists c, In c cand /\ (Y <= c)%Q)).
  { intros [? ?]. apply side0; [lra|]. apply span_selected_desc; [done|]. rewrite Hx. lra. }
  assert (Hd1 : (vx s1 < vx s0 /\ vx s1 <= X <= vx s0)%Q ->
                ((D * (vx s0 - vx s1) <= 0)%Q -> exists c, In c cand /\ (c <= Y)%Q)
                /\ ((0 <= D * (vx s0 - vx s1))%Q -> exists c, In c cand /\ (Y <= c)%Q)).
  { intros [? ?]. apply side1; [lra|]. apply span_selected_desc; [done|]. rewrite Hx. lra. }
  assert (Hd2 : (vx s2 < vx s1 /\ vx s2 <= X <= vx s1)%Q ->
                ((D * (vx s1 - vx s2) <= 0)%Q -> exists c, In c cand /\ (c <= Y)%Q)
                /\ ((0 <= D * (vx s1 - vx s2))%Q -> exists c, In c cand /\ (Y <= c)%Q)).
  { intros [? ?]. apply side2; [lra|]. apply span_selected_desc; [done|]. rewrite Hx. lra. }
  assert (Ha0 : (vx s2 < vx s0 /\ vx s2 <= X <= vx s0)%Q ->
                ((D * (vx s2 - vx s0) <= 0)%Q -> exists c, In c cand /\ (c <= Y)%Q)
                /\ ((0 <= D * (vx s2 - vx s0))%Q -> exists c, In c cand /\ (Y <= c)%Q)).
  { intros [? ?]. apply side0; [lra|]. apply span_selected_asc; [done|]. rewrite Hx. lra. }
  assert (Ha1 : (vx s0 < vx s1 /\ vx s0 <= X <= vx s1)%Q ->
                ((D * (vx s0 - vx s1) <= 0)%Q -> exists c, In c cand /\ (c <= Y)%Q)
                /\ ((0 <= D * (vx s0 - vx s1))%Q -> exists c, In c cand /\ (Y <= c)%Q)).
  { intros [? ?]. apply side1; [lra|]. apply span_selected_asc; [done|]. rewrite Hx. lra. }
  assert (Ha2 : (vx s1 < vx s2 /\ vx s1 <= X <= vx s2)%Q ->
                ((D * (vx s1 - vx s2) <= 0)%Q -> exists c, In c cand /\ (c <= Y)%Q)
                /\ ((0 <= D * (vx s1 - vx s2))%Q -> exists c, In c cand /\ (Y <= c)%Q)).
  { intros [? ?]. apply side2; [lra|]. apply span_selected_asc; [done|]. rewrite Hx. lra. }
  clearbody D cand.
  destruct HD as [HD|HD]; split.
  - destruct Hdesc as [H|[H|H]];
      [apply (Hd0 H)|apply (Hd1 H)|apply (Hd2 H)]; nra.
  - destruct Hasc as [H|[H|H]];
      [apply (Ha0 H)|apply (Ha1 H)|apply (Ha2 H)]; nra.
  - destruct Hasc as [H|[H|H]];
      [apply (Ha0 H)|apply (Ha1 H)|apply (Ha2 H)]; nra.
  - destruct Hdesc as [H|[H|H]];
      [apply (Hd0 H)|apply (Hd1 H)|apply (Hd2 H)]; nra.
Qed.
End Slice.

Lemma inject_Z_le_mul (k1 k2 : Z) (h : Q) :
  (0 < h)%Q -> (k1 <= k2)%Z -> (inject_Z k1 * h <= inject_Z k2 * h)%Q.
Proof.
  intros Hh Hk. rewrite Zle_Qle in Hk. nra.
Qed.

Lemma axis_meets (h lo hi p : Q) :
  (0 < h)%Q -> (lo <= hi)%Q ->
  (lo - qmod lo h < p)%Q -> (p < hi + (h - qmod hi h))%Q ->
  exists q, (inject_Z (Qfloor (p / h)) * h <= q /\ q < (inject_Z (Qfloor (p / h)) + 1) * h
             /\ lo <= q <= hi)%Q.
Proof.
  intros Hh Hle Hlo Hhi.
  pose proof (qmod_floor lo h) as E1. pose proof (qmod_floor hi h) as E2.
  assert (H1 : (Qfloor (lo / h) <= Qfloor (p / h))%Z).
  { apply floor_le_of_lt; [done|]. lra. }
  assert (H2 : (Qfloor (p / h) <= Qfloor (hi / h))%Z).
  { apply floor_ge_of_lt; [done|]. lra. }
  destruct (floor_bounds lo h Hh) as [Hl1 Hl2].
  destruct (floor_bounds hi h Hh) as [Hh1 Hh2].
  apply (inject_Z_le_mul _ _ h Hh) in H1, H2.
  set (k := inject_Z (Qfloor (p / h))) in *.
  set (F1 := inject_Z (Qfloor (lo / h))) in *.
  set (F2 := inject_Z (Qfloor (hi / h))) in *.
  clearbody k F1 F2.
  exists (Qmax (k * h) lo).
  destruct (Q.max_spec (k * h) lo) as [[? ->]|[? ->]]; repeat split; nra.
Qed.

Lemma in_area_bounds (pmin pmax p : vec3) :
  in_area pmin pmax p = true ->
  (vx pmin < vx p /\ vy pmin < vy p /\ vz pmin < vz p
   /\ vx p < vx pmax /\ vy p < vy pmax /\ vz p < vz pmax)%Q.
Proof.
  unfold in_area. rewrite !andb_true_iff, !Qlt_bool_iff. tauto.
Qed.

Lemma in_area_intro (pmin pmax p : vec3) :
  (vx pmin < vx p /\ vy pmin < vy p /\ vz pmin < vz p
   /\ vx p < vx pmax /\ vy p < vy pmax /\ vz p < vz pmax)%Q ->
  in_area pmin pmax p = true.
Proof.
  unfold in_area. rewrite !andb_true_iff, !Qlt_bool_iff. tauto.
Qed.

Lemma permute_id (p : vec3) : permute (0, 1, 2)%nat p = p.
Proof. by destruct p as [[? ?] ?]. Qed.


Lemma z_column_covers (h : Q) (o : vec3) (dx dy x y t : Q) (k : Z) :
  (0 < h)%Q ->
  (t == plane_z o dx dy x y)%Q ->
  (t == (inject_Z k + (1 # 2)) * h)%Q ->
  exists z, In (x, y, z) (z_column h o dx dy (x, y)) /\ (z == t)%Q.
Proof.
  intros Hh Hplane Ht. unfold z_column. cbv zeta.
  set (f := fun x0 y0 : Q => (vz o + dx * (x0 - vx o) + dy * (y0 - vy o))%Q).
  set (c00 := (f (x - h / 2) (y - h / 2))%Q).
  set (c10 := (f (x + h / 2) (y - h / 2))%Q).
  set (c01 := (f (x - h / 2) (y + h / 2))%Q).
  set (c11 := (f (x + h / 2) (y + h / 2))%Q).
  set (zmin := fold_left Qmin (tl [c00; c10; c01; c11]) c00).
  set (zmax := fold_left Qmax (tl [c00; c10; c01; c11]) c00).
  assert (Havg : (4 * t == c00 + c10 + c01 + c11)%Q).
  { rewrite Hplane. unfold plane_z, c00, c10, c01, c11, f. field. }
  destruct (fold_Qmin_le (tl [c00; c10; c01; c11]) c00) as [Hm0 Hm].
  destruct (fold_Qmax_ge (tl [c00; c10; c01; c11]) c00) as [HM0 HM].
  fold zmin in Hm0, Hm. fold zmax in HM0, HM.
  assert (Hlo : (zmin <= t)%Q).
  { pose proof (Hm c10 ltac:(simpl; tauto)). pose proof (Hm c01 ltac:(simpl; tauto)).
    pose proof (Hm c11 ltac:(simpl; tauto)). clearbody zmin zmax c00 c10 c01 c11. lra. }
  assert (Hhi : (t <= zmax)%Q).
  { pose proof (HM c10 ltac:(simpl; tauto)). pose proof (HM c01 ltac:(simpl; tauto)).
    pose proof (HM c11 ltac:(simpl; tauto)). clearbody zmin zmax c00 c10 c01 c11. lra. }
  destruct (centers_cover h zmin zmax t k Hh Hlo Hhi Ht) as (z & Hz & Hzt).
  exists z. split; [|done]. apply in_map_iff. by exists z.
Qed.

Lemma triangle_plane (s0 s1 s2 : vec3) (wa wb wc X Y Z : Q) :
  (wa + wb + wc == 1)%Q ->
  (X == wa * vx s0 + wb * vx s1 + wc * vx s2)%Q ->
  (Y == wa * vy s0 + wb * vy s1 + wc * vy s2)%Q ->
  (Z == wa * vz s0 + wb * vz s1 + wc * vz s2)%Q ->
  ~ (tri_det s0 s1 s2 == 0)%Q ->
  let n := cross (vsub s2 s0) (vsub s0 s1) in
  (Z == plane_z s0 (- vx n / vz n) (- vy n / vz n) X Y)%Q.
Proof.
  intros Hs HX HY HZ Hd n.
  assert (Hwa : (wa == 1 - wb - wc)%Q) by lra.
  unfold plane_z. rewrite HX, HY, HZ, Hwa.
  unfold tri_det in Hd. fold n in Hd.
  unfold n, cross, vsub, vx, vy, vz in *. simpl in *. field. done.
Qed.

Lemma center_in_area (h lo hi t : Q) (k : Z) :
  (0 < h)%Q -> (lo <= t)%Q -> (t <= hi)%Q ->
  (t == (inject_Z k + (1 # 2)) * h)%Q ->
  (lo - qmod lo h < t /\ t < hi + (h - qmod hi h))%Q.
Proof.
  intros Hh Hlo Hhi Ht.
  pose proof (qmod_floor lo h) as E1. pose proof (qmod_floor hi h) as E2.
  destruct (floor_bounds lo h Hh) as [Hl1 Hl2].
  destruct (floor_bounds hi h Hh) as [Hh1 Hh2].
  assert (HFk : (Qfloor (lo / h) <= k)%Z).
  { assert (Ha : (inject_Z (Qfloor (lo / h)) < inject_Z (k + 1))%Q).
    { rewrite inject_Z_plus. change (inject_Z 1) with 1%Q. nra. }
    rewrite <- Zlt_Qlt in Ha. lia. }
  apply (inject_Z_le_mul _ _ h Hh) in HFk.
  set (F1 := inject_Z (Qfloor (lo / h))) in *.
  set (F2 := inject_Z (Qfloor (hi / h))) in *.
  set (m1 := qmod lo h) in *. set (m2 := qmod hi h) in *.
  clearbody F1 F2 m1 m2. split; nra.
Qed.

Lemma tri_order_flat_det (a b c : vec3) :
  tri_order a b c = (0, 1, 2)%nat -> ~ (tri_det a b c == 0)%Q.
Proof.
  unfold tri_order. set (n := vabs (cross (vsub b a) (vsub c a))).
  destruct (Qle_bool (vx n) (vy n) && Qle_bool (vz n) (vy n)) eqn:E1; [discriminate|].
  destruct (Qle_bool (vy n) (vx n) && Qle_bool (vz n) (vx n)) eqn:E2; [discriminate|].
  intros _ Hd.
  assert (Hz : (vz n == 0)%Q).
  { unfold n, vabs. change (vz (?u, ?v, ?w)) with w.
    assert (E : (vz (cross (vsub b a) (vsub c a)) == tri_det a b c)%Q).
    { unfold tri_det, cross, vsub, vx, vy, vz. simpl. ring. }
    rewrite E, Hd. reflexivity. }
  assert (Hx : (0 <= vx n)%Q) by apply Qabs_nonneg.
  assert (Hy : (0 <= vy n)%Q) by apply Qabs_nonneg.
  apply andb_false_iff in E1, E2.
  assert (Hzy : Qle_bool (vz n) (vy n) = true) by (apply Qle_bool_iff; lra).
  assert (Hzx : Qle_bool (vz n) (vx n) = true) by (apply Qle_bool_iff; lra).
  destruct E1 as [E1|E1]; [|congruence]. destruct E2 as [E2|E2]; [|congruence].
  assert (~ (vx n <= vy n)%Q) by (rewrite <- Qle_bool_iff; congruence).
  assert (~ (vy n <= vx n)%Q) by (rewrite <- Qle_bool_iff; congruence).
  lra.
Qed.

Lemma emit_flat (h : Q) (p : vec3) : emit h (0, 1, 2)%nat p = floor_key h p.
Proof. reflexivity. Qed.




(** When the axes are permuted, the emitted cell applies the permutation a
    second time instead of undoing it: the cell (1,0,0), whose centre is in
    the triangle, is not yielded, and (0,2,0), which the triangle does not
    meet, is. *)
Lemma keysfor_triangle_permuted :
  tri_order upright_a upright_b upright_c = (2, 0, 1)%nat
  /\ keysfor sqrt_exact 0 unit_map (Triangle upright_a upright_b upright_c)
     = Ok (map Some [(0, 0, 0); (0, 0, 1); (0, 0, 2); (0, 1, 0); (0, 1, 1); (0, 2, 0)])
  /\ in_triangle upright_a upright_b upright_c (cell_center 1 (1, 0, 0))
  /\ (forall p, in_cell 1 (0, 2, 0) p -> ~ in_triangle upright_a upright_b upright_c p).
Proof.
  split; [by vm_compute|]. split; [by vm_compute|]. split.
  - exists (1 # 3)%Q, (1 # 2)%Q, (1 # 6)%Q. by vm_compute.
  - intros p (_ & _ & Hy1 & _) (wa & wb & wc & Ha & Hb & Hc & Hs & _ & HY & _).
    unfold upright_a, upright_b, upright_c, vx, vy, vz in *. cbn [fst snd] in *.
    change (inject_Z 2) with 2%Q in *.
    lra.
Qed.

End HashingFacts.

(** ** Ear clipping *)

Module TriangulationFacts.
Import Vec Triangulation.

(** *** No fallback to the straight skeleton *)

Lemma quiet_ok {A : Type} (a : A) : quiet (Ok a).
Proof. discriminate. Qed.

Lemma quiet_bind {A B : Type} (r : result A) (k : A -> result B) :
  quiet r -> (forall a, quiet (k a)) -> quiet (rbind r k).
Proof.
  unfold quiet. intros Hr Hk. destruct r as [a|e|]; simpl; [apply Hk|congruence|discriminate].
Qed.

Lemma quiet_py_get {A : Type} (l : list A) (i : nat) : quiet (py_get l i).
Proof. unfold quiet, py_get. destruct (l !! i); discriminate. Qed.

Lemma quiet_py_index {A : Type} (l : list A) (z : Z) : quiet (py_index l z).
Proof.
  unfold py_index. repeat case_match; try apply quiet_py_get. discriminate.
Qed.


Section Quiet.
Variable sqrtQ : Q -> Q.

Lemma quiet_aesthetic u v : quiet (aesthetic sqrtQ u v).
Proof. unfold aesthetic. case_match; discriminate. Qed.

Lemma quiet_score proj i : quiet (score sqrtQ proj i).
Proof.
  unfold score. repeat (apply quiet_bind; [first [apply quiet_py_get|apply quiet_aesthetic]|intros ?]).
  repeat case_match; discriminate.
Qed.

Lemma quiet_scores_from proj i n : quiet (scores_from sqrtQ proj i n).
Proof.
  revert i. induction n as [|n IH]; intros i; simpl; [discriminate|].
  apply quiet_bind; [apply quiet_score|intros ?].
  apply quiet_bind; [apply IH|intros ?]. discriminate.
Qed.

Lemma quiet_argmax scores : quiet (argmax scores).
Proof. destruct scores; discriminate. Qed.

Lemma quiet_clip fuel hole proj scores ts w : quiet (clip sqrtQ fuel hole proj scores ts w).
Proof.
  revert hole proj scores ts w. induction fuel as [|fuel IH]; intros; simpl.
  - case_match; discriminate.
  - case_match; [|discriminate].
    repeat (apply quiet_bind;
      [first [apply quiet_py_get|apply quiet_argmax|apply quiet_score]|intros ?]).
    apply IH.
Qed.

Lemma quiet_guess_x thres o ol pts :
  Forall quiet pts -> quiet (guess_x thres o ol pts).
Proof.
  induction 1 as [|rp pts Hrp _ IH]; simpl; [discriminate|].
  apply quiet_bind; [done|intros p]. repeat case_match; try discriminate. done.
Qed.

Lemma guess_x_rest thres o ol pts x rest :
  Forall quiet pts -> guess_x thres o ol pts = Ok (x, rest) -> Forall quiet rest.
Proof.
  induction 1 as [|rp pts Hrp Hpts IH]; simpl; [discriminate|].
  destruct rp as [p| |]; simpl; try discriminate.
  repeat case_match; try discriminate; [done|]. by intros [= _ <-].
Qed.

Lemma quiet_guess_y thres o x pts :
  Forall quiet pts -> quiet (guess_y sqrtQ thres o x pts).
Proof.
  induction 1 as [|rp pts Hrp _ IH]; simpl; [discriminate|].
  apply quiet_bind; [done|intros p]. repeat case_match; try discriminate. done.
Qed.

Lemma quiet_wire_iter w : Forall quiet (wire_iter w).
Proof. unfold wire_iter. apply Forall_map, Forall_true. intros z. apply quiet_py_index. Qed.

Lemma quiet_guessbase w n : quiet (guessbase sqrtQ w n).
Proof.
  unfold guessbase.
  assert (Hg : quiet match wire_iter w with
    | [] => Raise ValueError
    | ro :: rest =>
        o <-- ro ;;
        found <-- guess_x (10 * NUMPREC) o (vmaxabs o) rest ;;
        (let x := unit_vec sqrtQ found.1 in
         y <-- guess_y sqrtQ (10 * NUMPREC) o x found.2 ;;
         (let y0 := unit_vec sqrtQ (noproject y x) in Ok (x, y0, cross x y0)))
    end).
  { pose proof (quiet_wire_iter w) as Hw. destruct (wire_iter w) as [|ro rest]; [discriminate|].
    apply Forall_cons in Hw as [Hro Hrest].
    apply quiet_bind; [exact Hro|intros o].
    destruct (guess_x (10 * NUMPREC) o (vmaxabs o) rest) as [[x rest']| |] eqn:E; simpl;
      [|pose proof (quiet_guess_x (10 * NUMPREC) o (vmaxabs o) rest Hrest) as Hq;
        rewrite E in Hq; intros [= ->]; by apply Hq|discriminate].
    apply quiet_bind; [|intros ?; discriminate].
    apply quiet_guess_y. exact (guess_x_rest _ _ _ _ _ _ Hrest E). }
  destruct n; [done|discriminate|]. cbv zeta. destruct (Qeq_bool q 0); [exact Hg|discriminate].
Qed.

Lemma quiet_sequence {A : Type} (l : list (result A)) :
  Forall quiet l -> quiet (sequence l).
Proof.
  induction 1 as [|r l Hr _ IH]; simpl; [discriminate|].
  apply quiet_bind; [done|intros ?]. apply quiet_bind; [done|intros ?]. discriminate.
Qed.

Lemma quiet_wire_get w i : quiet (wire_get w i).
Proof. unfold wire_get. apply quiet_bind; [apply quiet_py_get|intros ?; apply quiet_py_index]. Qed.

Lemma quiet_planeproject w n : quiet (planeproject sqrtQ w n).
Proof.
  unfold planeproject. apply quiet_bind; [apply quiet_guessbase|intros [[x y] z]].
  apply quiet_bind; [apply quiet_sequence, quiet_wire_iter|intros pts].
  case_match; [discriminate|].
  repeat (apply quiet_bind; [apply quiet_wire_get|intros ?]). discriminate.
Qed.

Lemma quiet_triangulation_outline w n : quiet (triangulation_outline sqrtQ w n).
Proof.
  unfold triangulation_outline.
  pose proof (quiet_planeproject w n) as Hp.
  destruct (planeproject sqrtQ w n) as [proj|e|]; [| |discriminate].
  - apply quiet_bind; [apply quiet_scores_from|intros ?].
    apply quiet_bind; [apply quiet_clip|intros ?]. discriminate.
  - destruct e; try discriminate. done.
Qed.

(** X1.  [triangulation] returns the straight-skeleton result only
    when ear clipping raises [MeshError], and ear clipping never does: a best
    score below the tolerance is reported by a printed warning and the vertex
    is clipped all the same.  So [triangulation] always returns, or raises,
    what its ear-clipping call does. *)
Theorem triangulation_never_falls_back
    (sk : Wire -> Q -> result (Mesh.t * nat)) (w : Wire) (prec : Q) :
  triangulation sqrtQ sk w prec = triangulation_outline sqrtQ w (NormalFloat prec)
  /\ forall n, triangulation_outline sqrtQ w n <> Raise MeshError.
Proof.
  split; [|intros n; apply quiet_triangulation_outline].
  unfold triangulation.
  pose proof (quiet_triangulation_outline w (NormalFloat prec)) as Hq.
  destruct (triangulation_outline sqrtQ w (NormalFloat prec)) as [r|e|]; try done.
  destruct e; try done.
Qed.
End Quiet.


(** On the bow-tie the best score falls below the
    tolerance (one warning) and the result is the ear-clipping mesh, not the
    skeleton one. *)
Lemma triangulation_warns_without_fallback :
  triangulation_outline sqrt_exact bowtie NoNormal
    = Ok (mesh_of (w_points bowtie) [(2, 3, 0); (1, 2, 0)], 1%nat)
  /\ triangulation sqrt_exact no_skeleton bowtie 0
    = Ok (mesh_of (w_points bowtie) [(2, 3, 0); (1, 2, 0)], 1%nat)
  /\ triangulation sqrt_exact no_skeleton bowtie 0 <> no_skeleton bowtie 0.
Proof.
  split; [by vm_compute|]. split; [by vm_compute|]. by vm_compute.
Qed.

(** *** Popping a position of a closed path *)

Lemma pop_length {A : Type} (l : list A) (i : nat) :
  (i < List.length l)%nat -> List.length (pop l i) = (List.length l - 1)%nat.
Proof.
  intros Hi. unfold pop. rewrite length_app, length_take, length_drop. lia.
Qed.

Lemma pop_lookup_lt {A : Type} (l : list A) (i k : nat) :
  (k < i)%nat -> pop l i !! k = l !! k.
Proof.
  intros Hk. unfold pop. destruct (decide (i <= List.length l)%nat).
  - rewrite lookup_app_l by (rewrite length_take; lia). by rewrite lookup_take_lt.
  - rewrite take_ge, drop_ge, app_nil_r by lia. done.
Qed.

Lemma pop_lookup_ge {A : Type} (l : list A) (i k : nat) :
  (i <= k)%nat -> (i < List.length l)%nat -> pop l i !! k = l !! S k.
Proof.
  intros Hk Hi. unfold pop.
  rewrite lookup_app_r by (rewrite length_take; lia).
  rewrite length_take, lookup_drop. f_equal. lia.
Qed.

(** every position of the popped list comes from a position of the list,
    in the same order *)
Lemma pop_lookup {A : Type} (l : list A) (i k : nat) (x : A) :
  (i < List.length l)%nat -> pop l i !! k = Some x ->
  exists k', l !! k' = Some x /\ k' = (if decide (k < i)%nat then k else S k).
Proof.
  intros Hi Hk. destruct (decide (k < i)%nat).
  - rewrite pop_lookup_lt in Hk by done. eauto.
  - rewrite pop_lookup_ge in Hk by lia. eauto.
Qed.

Lemma path_pairs_app {A : Type} (l1 l2 : list A) (x : A) :
  path_pairs (l1 ++ x :: l2) = path_pairs (l1 ++ [x]) ++ path_pairs (x :: l2).
Proof.
  induction l1 as [|y l1 IH]; [done|].
  destruct l1 as [|z l1]; [done|].
  change (path_pairs ((y :: z :: l1) ++ x :: l2))
    with ((y, z) :: path_pairs ((z :: l1) ++ x :: l2)).
  rewrite IH. done.
Qed.

Lemma path_pairs_snoc2 {A : Type} (l : list A) (a b : A) :
  path_pairs (l ++ [a; b]) = path_pairs (l ++ [a]) ++ [(a, b)].
Proof. by rewrite path_pairs_app. Qed.

Lemma prev_pos_0 (n : nat) : (0 < n)%nat -> prev_pos n 0 = (n - 1)%nat.
Proof. intros. unfold prev_pos. apply Nat.mod_small. lia. Qed.

Lemma prev_pos_S (n i : nat) : (S i < n)%nat -> prev_pos n (S i) = i.
Proof.
  intros. unfold prev_pos. replace (S i + n - 1)%nat with (i + 1 * n)%nat by lia.
  rewrite Nat.Div0.mod_add. apply Nat.mod_small. lia.
Qed.

Lemma next_pos_lt (n i : nat) : (S i < n)%nat -> next_pos n i = S i.
Proof. intros. unfold next_pos. rewrite Nat.mod_small; lia. Qed.

Lemma next_pos_last (n i : nat) : (0 < n)%nat -> S i = n -> next_pos n i = 0%nat.
Proof. intros ? <-. unfold next_pos. replace (i + 1)%nat with (S i) by lia. apply Nat.Div0.mod_same. Qed.

Lemma prev_pos_lt (n i : nat) : (0 < n)%nat -> (prev_pos n i < n)%nat.
Proof. intros. unfold prev_pos. apply Nat.mod_upper_bound. lia. Qed.

Lemma next_pos_bound (n i : nat) : (0 < n)%nat -> (next_pos n i < n)%nat.
Proof. intros. unfold next_pos. apply Nat.mod_upper_bound. lia. Qed.

Lemma lookup_snoc_last {A : Type} (l : list A) (x : A) :
  (l ++ [x]) !! List.length l = Some x.
Proof. rewrite lookup_app_r by lia. by rewrite Nat.sub_diag. Qed.

Lemma closed_pairs_pop_first {A : Type} (T : list A) (a b c : A) :
  exists R, closed_pairs (b :: c :: T ++ [a]) ≡ₚ (a, b) :: (b, c) :: R
            /\ closed_pairs (c :: T ++ [a]) ≡ₚ (a, c) :: R.
Proof.
  exists (path_pairs (c :: T ++ [a])). split.
  - unfold closed_pairs.
    change ((b :: c :: T ++ [a]) ++ [b]) with (b :: (c :: T ++ [a]) ++ [b]).
    change (path_pairs (b :: (c :: T ++ [a]) ++ [b]))
      with ((b, c) :: path_pairs ((c :: T ++ [a]) ++ [b])).
    replace ((c :: T ++ [a]) ++ [b]) with ((c :: T) ++ [a; b])
      by (cbn [app]; by rewrite <- ?app_assoc).
    rewrite path_pairs_snoc2.
    change ((c :: T) ++ [a]) with (c :: T ++ [a]).
    rewrite (Permutation_app_comm (path_pairs _) [(a, b)]). simpl.
    apply perm_swap.
  - unfold closed_pairs.
    replace ((c :: T ++ [a]) ++ [c]) with ((c :: T) ++ [a; c])
      by (cbn [app]; by rewrite <- ?app_assoc).
    rewrite path_pairs_snoc2.
    change ((c :: T) ++ [a]) with (c :: T ++ [a]).
    by rewrite (Permutation_app_comm (path_pairs _) [(a, c)]).
Qed.

Lemma closed_pairs_pop_last {A : Type} (L : list A) (a b c : A) :
  exists R, closed_pairs ((c :: L) ++ [a; b]) ≡ₚ (a, b) :: (b, c) :: R
            /\ closed_pairs ((c :: L) ++ [a]) ≡ₚ (a, c) :: R.
Proof.
  exists (path_pairs ((c :: L) ++ [a])). split.
  - change (closed_pairs ((c :: L) ++ [a; b]))
      with (path_pairs (((c :: L) ++ [a; b]) ++ [c])).
    replace (((c :: L) ++ [a; b]) ++ [c]) with (((c :: L) ++ [a]) ++ [b; c])
      by (cbn [app]; by rewrite <- ?app_assoc).
    rewrite path_pairs_snoc2.
    replace (((c :: L) ++ [a]) ++ [b]) with ((c :: L) ++ [a; b])
      by (cbn [app]; by rewrite <- ?app_assoc).
    rewrite path_pairs_snoc2.
    rewrite <- app_assoc.
    by rewrite (Permutation_app_comm (path_pairs _) _).
  - change (closed_pairs ((c :: L) ++ [a]))
      with (path_pairs (((c :: L) ++ [a]) ++ [c])).
    replace (((c :: L) ++ [a]) ++ [c]) with ((c :: L) ++ [a; c])
      by (cbn [app]; by rewrite <- ?app_assoc).
    rewrite path_pairs_snoc2.
    by rewrite (Permutation_app_comm (path_pairs _) [(a, c)]).
Qed.

Lemma closed_pairs_pop_middle {A : Type} (L T : list A) (a b c : A) :
  exists R, closed_pairs (L ++ a :: b :: c :: T) ≡ₚ (a, b) :: (b, c) :: R
            /\ closed_pairs (L ++ a :: c :: T) ≡ₚ (a, c) :: R.
Proof.
  assert (Hhd : exists hd, forall X, closed_pairs (L ++ a :: X) = path_pairs (L ++ a :: X ++ [hd])).
  { destruct L as [|h1 L]; [exists a|exists h1]; intros X; unfold closed_pairs; cbn [app];
      by rewrite <- ?app_assoc. }
  destruct Hhd as (hd & Hhd).
  exists (path_pairs (L ++ [a]) ++ path_pairs (c :: T ++ [hd])). split.
  - rewrite Hhd. rewrite path_pairs_app. cbn [app].
    change (path_pairs (a :: b :: c :: T ++ [hd]))
      with ((a, b) :: (b, c) :: path_pairs (c :: T ++ [hd])).
    generalize (path_pairs (L ++ [a])) (path_pairs (c :: T ++ [hd])).
    intros X Y. by rewrite <- !Permutation_middle.
  - rewrite Hhd. rewrite path_pairs_app. cbn [app].
    change (path_pairs (a :: c :: T ++ [hd]))
      with ((a, c) :: path_pairs (c :: T ++ [hd])).
    generalize (path_pairs (L ++ [a])) (path_pairs (c :: T ++ [hd])).
    intros X Y. by rewrite <- !Permutation_middle.
Qed.

Lemma closed_pairs_pop {A : Type} (l : list A) (i : nat) (a b c : A) :
  (3 <= List.length l)%nat ->
  l !! prev_pos (List.length l) i = Some a ->
  l !! i = Some b ->
  l !! next_pos (List.length l) i = Some c ->
  exists R, closed_pairs l ≡ₚ (a, b) :: (b, c) :: R
            /\ closed_pairs (pop l i) ≡ₚ (a, c) :: R.
Proof.
  intros Hlen Ha Hb Hc.
  assert (Hi : (i < List.length l)%nat) by (by apply lookup_lt_Some in Hb).
  pose proof (take_drop_middle l i b Hb) as Hl.
  unfold pop. set (L := take i l) in *. set (T := drop (S i) l) in *.
  assert (HL : List.length L = i) by (unfold L; rewrite length_take; lia).
  assert (HT : (List.length T = List.length l - S i)%nat) by (unfold T; by rewrite length_drop).
  clearbody L T. subst l. set (n := List.length (L ++ b :: T)) in *.
  assert (Hn : n = (List.length L + S (List.length T))%nat)
    by (unfold n; rewrite length_app; done).
  clearbody n.
  destruct (decide (L = [])) as [->|HLne].
  - (* i = 0 *)
    cbn [List.length app] in *. subst i.
    rewrite prev_pos_0 in Ha by lia. rewrite next_pos_lt in Hc by lia.
    destruct T as [|c' T]; [cbn in *; lia|]. cbn in Hc. injection Hc as ->.
    destruct (decide (T = [])) as [->|HTne]; [cbn in *; lia|].
    destruct (exists_last HTne) as (T' & a' & ->).
    assert (a' = a) as ->.
    { replace (n - 1)%nat with (S (S (List.length T'))) in Ha
        by (cbn [List.length] in *; rewrite length_app in *; cbn in *; lia).
      change ((T' ++ [a']) !! List.length T' = Some a) in Ha.
      rewrite lookup_snoc_last in Ha. by injection Ha. }
    apply closed_pairs_pop_first.
  - destruct (exists_last HLne) as (L1 & a' & ->).
    rewrite length_app in HL, Hn. cbn [List.length] in HL, Hn.
    assert (a' = a) as ->.
    { replace i with (S (List.length L1)) in Ha by lia.
      rewrite prev_pos_S in Ha by lia.
      rewrite <- app_assoc in Ha. rewrite lookup_app_r in Ha by lia.
      rewrite Nat.sub_diag in Ha. by injection Ha. }
    destruct T as [|c' T].
    + (* i is the last position: the next one is the head *)
      cbn [List.length] in *. rewrite next_pos_last in Hc by lia.
      destruct L1 as [|c0 L1]; [cbn in *; lia|].
      cbn in Hc. injection Hc as ->. rewrite app_nil_r.
      rewrite <- app_assoc. cbn [app].
      apply (closed_pairs_pop_last L1 a b c).
    + (* a middle position *)
      assert (c' = c) as ->.
      { rewrite next_pos_lt in Hc by (cbn [List.length] in *; lia).
        replace (S i) with (List.length (L1 ++ [a]) + 1)%nat in Hc
          by (rewrite length_app; cbn; lia).
        rewrite lookup_app_r in Hc by lia.
        replace (List.length (L1 ++ [a]) + 1 - List.length (L1 ++ [a]))%nat with 1%nat in Hc by lia.
        by injection Hc. }
      rewrite <- !app_assoc. cbn [app].
      apply closed_pairs_pop_middle.
Qed.

(** *** Sums over the pairs of a closed path *)

Lemma Qsum_perm (l l' : list Q) : l ≡ₚ l' -> (Qsum l == Qsum l')%Q.
Proof.
  unfold Qsum.
  induction 1 as [|x l l' _ IH|x y l|l l' l'' _ IH1 _ IH2]; cbn [fold_right].
  - reflexivity.
  - by rewrite IH.
  - ring.
  - by rewrite IH1.
Qed.

Lemma Qsum_app (l l' : list Q) : (Qsum (l ++ l') == Qsum l + Qsum l')%Q.
Proof.
  induction l as [|x l IH]; unfold Qsum in *; cbn [app fold_right]; [ring|rewrite IH; ring].
Qed.

Lemma area2_split (a b c : vec2) :
  (cross2 a b + cross2 b c == area2 a b c + cross2 a c)%Q.
Proof.
  destruct a as [a1 a2], b as [b1 b2], c as [c1 c2].
  unfold area2, cross2, sub2. cbn [fst snd]. ring.
Qed.

(** clipping the corner at position [i] takes the area of its triangle off
    the polygon *)
Lemma shoelace2_pop (proj : list vec2) (i : nat) (a b c : vec2) :
  (3 <= List.length proj)%nat ->
  proj !! prev_pos (List.length proj) i = Some a ->
  proj !! i = Some b ->
  proj !! next_pos (List.length proj) i = Some c ->
  (shoelace2 proj == area2 a b c + shoelace2 (pop proj i))%Q.
Proof.
  intros Hlen Ha Hb Hc.
  destruct (closed_pairs_pop proj i a b c Hlen Ha Hb Hc) as (R & H1 & H2).
  unfold shoelace2.
  rewrite (Qsum_perm _ _ (Permutation_map (fun p : vec2 * vec2 => cross2 p.1 p.2) H1)).
  rewrite (Qsum_perm _ _ (Permutation_map (fun p : vec2 * vec2 => cross2 p.1 p.2) H2)).
  cbn [map fst snd]. unfold Qsum. cbn [fold_right].
  generalize (fold_right Qplus 0%Q (map (fun p : vec2 * vec2 => cross2 p.1 p.2) R)).
  intros r. pose proof (area2_split a b c). lra.
Qed.

Lemma shoelace2_two (a c : vec2) : (shoelace2 [a; c] == 0)%Q.
Proof.
  destruct a as [a1 a2], c as [c1 c2]. unfold shoelace2, cross2. cbn. ring.
Qed.

(** *** Toggling edges: the parity of the occurrences *)

Lemma toggle_elem (s : gset edge) (e x : edge) :
  x ∈ Mesh.toggle s e <-> (if decide (x = e) then x ∉ s else x ∈ s).
Proof.
  unfold Mesh.toggle. destruct (decide (e ∈ s)); destruct (decide (x = e)); set_solver.
Qed.

Lemma fold_toggle_elem (l : list edge) (s : gset edge) (x : edge) :
  x ∈ fold_left Mesh.toggle l s <->
  (if Nat.even (occ x l) then x ∈ s else x ∉ s).
Proof.
  revert s. induction l as [|e l IH]; intros s; [done|].
  cbn [fold_left]. rewrite IH. unfold occ. cbn [count_occ].
  destruct (decide_rel eq e x) as [->|Hne].
  - rewrite Nat.even_succ, <- Nat.negb_even.
    destruct (Nat.even _); cbn; rewrite toggle_elem; rewrite decide_True by done; [done|].
    split; [|tauto]. intros H. by destruct (decide (x ∈ s)).
  - destruct (Nat.even _); rewrite toggle_elem; by rewrite decide_False by done.
Qed.

Lemma fold_toggle_faces (fs : list face) (s : gset edge) :
  fold_left (fun s f =>
    fold_left (fun s e => Mesh.toggle s (Mesh.edgekey e.1 e.2)) (Mesh.face_edges f) s) fs s
  = fold_left Mesh.toggle (face_keys fs) s.
Proof.
  revert s. induction fs as [|f fs IH]; intros s; [done|].
  cbn [fold_left]. rewrite IH. unfold face_keys. cbn [map concat].
  rewrite fold_left_app. f_equal.
  destruct f as [[a b] c]. reflexivity.
Qed.

Lemma outlines_unoriented_elem (pts : list vec3) (fs : list face) (x : edge) :
  x ∈ Mesh.outlines_unoriented (mesh_of pts fs) <-> Nat.even (occ x (face_keys fs)) = false.
Proof.
  unfold Mesh.outlines_unoriented. cbn [Mesh.faces mesh_of].
  rewrite fold_toggle_faces, fold_toggle_elem.
  destruct (Nat.even _); set_solver.
Qed.

Lemma edgekey_sym (a b : Z) : Mesh.edgekey a b = Mesh.edgekey b a.
Proof.
  unfold Mesh.edgekey.
  destruct (Z.ltb_spec a b), (Z.ltb_spec b a); try done; try lia.
  f_equal; lia.
Qed.

Lemma occ_app (x : edge) (l l' : list edge) : occ x (l ++ l') = (occ x l + occ x l')%nat.
Proof. apply count_occ_app. Qed.

Lemma occ_perm (x : edge) (l l' : list edge) : l ≡ₚ l' -> occ x l = occ x l'.
Proof. intros H. unfold occ. by apply Permutation_count_occ. Qed.

Lemma face_keys_snoc (fs : list face) (a b c : Z) :
  face_keys (fs ++ [(a, b, c)])
  = face_keys fs ++ [Mesh.edgekey a b; Mesh.edgekey b c; Mesh.edgekey c a].
Proof.
  unfold face_keys. rewrite map_app, concat_app. cbn [map concat Mesh.face_edges fst snd].
  by rewrite ?app_nil_r.
Qed.

(** clipping a corner keeps the parity of every edge among the triangles
    and the remaining polygon *)
Lemma occ_pop (hole : list Z) (fs : list face) (i : nat) (a b c : Z) (x : edge) :
  (3 <= List.length hole)%nat ->
  hole !! prev_pos (List.length hole) i = Some a ->
  hole !! i = Some b ->
  hole !! next_pos (List.length hole) i = Some c ->
  Nat.even (occ x (face_keys (fs ++ [(a, b, c)])) + occ x (polygon_keys (pop hole i)))
  = Nat.even (occ x (face_keys fs) + occ x (polygon_keys hole)).
Proof.
  intros Hlen Ha Hb Hc.
  destruct (closed_pairs_pop hole i a b c Hlen Ha Hb Hc) as (R & H1 & H2).
  unfold polygon_keys.
  rewrite (occ_perm x _ _ (Permutation_map (fun p : Z * Z => Mesh.edgekey p.1 p.2) H1)).
  rewrite (occ_perm x _ _ (Permutation_map (fun p : Z * Z => Mesh.edgekey p.1 p.2) H2)).
  rewrite face_keys_snoc, occ_app. rewrite (edgekey_sym c a).
  cbn [map fst snd].
  generalize (map (fun p : Z * Z => Mesh.edgekey p.1 p.2) R). intros R'.
  generalize (occ x (face_keys fs)). intros n.
  unfold occ. cbn [count_occ].
  generalize (count_occ (decide_rel eq) R' x). intros r.
  destruct (decide_rel eq (Mesh.edgekey a b) x), (decide_rel eq (Mesh.edgekey b c) x),
    (decide_rel eq (Mesh.edgekey a c) x);
    rewrite ?Nat.add_succ_r, ?Nat.add_succ_l, ?Nat.add_0_r, ?Nat.even_succ_succ; try done.
Qed.

(** *** The edges of a polygon without repeated vertex *)

Lemma path_pairs_lookup {A : Type} (l : list A) (k : nat) (x y : A) :
  path_pairs l !! k = Some (x, y) <-> l !! k = Some x /\ l !! S k = Some y.
Proof.
  revert k. induction l as [|a l IH]; intros k; [by split; [|intros []]|].
  destruct l as [|b l]; [split; [done|by intros [_ ?]]|].
  change (path_pairs (a :: b :: l)) with ((a, b) :: path_pairs (b :: l)).
  destruct k as [|k].
  - cbn. split; [by intros [= -> ->]|by intros [[= ->] [= ->]]].
  - change (((a, b) :: path_pairs (b :: l)) !! S k) with (path_pairs (b :: l) !! k).
    rewrite IH. done.
Qed.

Lemma closed_pairs_lookup {A : Type} (l : list A) (k : nat) (x y : A) :
  closed_pairs l !! k = Some (x, y) ->
  (k < List.length l)%nat /\ l !! k = Some x /\ l !! next_pos (List.length l) k = Some y.
Proof.
  destruct l as [|h l]; [done|].
  intros H. apply path_pairs_lookup in H as [Hx Hy].
  set (m := h :: l) in *.
  assert (Hm : (0 < List.length m)%nat) by (cbn; lia).
  assert (Hh : m !! 0%nat = Some h) by done. clearbody m.
  assert (Hk : (S k < List.length (m ++ [h]))%nat) by (by apply lookup_lt_Some in Hy).
  rewrite length_app in Hk. cbn in Hk.
  split; [lia|]. rewrite lookup_app_l in Hx by lia. split; [done|].
  destruct (decide (S k < List.length m)%nat).
  - rewrite next_pos_lt by lia. by rewrite lookup_app_l in Hy by lia.
  - rewrite next_pos_last by lia.
    rewrite lookup_app_r in Hy by lia.
    replace (S k - List.length m)%nat with 0%nat in Hy by lia.
    cbn in Hy. by injection Hy as <-.
Qed.

Lemma edgekey_inj (a b a' b' : Z) :
  Mesh.edgekey a b = Mesh.edgekey a' b' -> (a = a' /\ b = b') \/ (a = b' /\ b = a').
Proof.
  unfold Mesh.edgekey.
  destruct (Z.ltb_spec a b), (Z.ltb_spec a' b'); intros [= -> ->]; tauto.
Qed.

Lemma polygon_keys_NoDup (hole : list Z) :
  NoDup hole -> (3 <= List.length hole)%nat -> NoDup (polygon_keys hole).
Proof.
  intros Hnd Hlen. apply NoDup_alt. intros i j e Hi Hj.
  unfold polygon_keys in Hi, Hj.
  change (map ?f ?l) with (f <$> l) in Hi, Hj.
  rewrite list_lookup_fmap in Hi, Hj.
  destruct (closed_pairs hole !! i) as [[x y]|] eqn:Ei; [|done].
  destruct (closed_pairs hole !! j) as [[x' y']|] eqn:Ej; [|done].
  cbn in Hi, Hj. injection Hi as Hi. injection Hj as Hj.
  apply closed_pairs_lookup in Ei as (Hi1 & Hix & Hiy).
  apply closed_pairs_lookup in Ej as (Hj1 & Hjx & Hjy).
  rewrite <- Hj in Hi. apply edgekey_inj in Hi as [[-> ->]|[-> ->]].
  - by apply (NoDup_lookup hole i j x').
  - pose proof (NoDup_lookup hole _ _ _ Hnd Hix Hjy) as E1.
    pose proof (NoDup_lookup hole _ _ _ Hnd Hiy Hjx) as E2.
    exfalso. revert E1 E2. generalize (List.length hole) Hlen Hi1 Hj1. clear.
    intros n Hn Hi Hj.
    destruct (decide (S i < n)%nat); destruct (decide (S j < n)%nat);
      rewrite ?(next_pos_lt n i), ?(next_pos_lt n j), ?(next_pos_last n i),
        ?(next_pos_last n j) by lia; lia.
Qed.

Lemma polygon_edges_occ (hole : list Z) (x : edge) :
  NoDup hole -> (3 <= List.length hole)%nat ->
  x ∈ polygon_edges hole <-> Nat.even (occ x (polygon_keys hole)) = false.
Proof.
  intros Hnd Hlen. unfold polygon_edges. rewrite elem_of_list_to_set.
  pose proof (polygon_keys_NoDup hole Hnd Hlen) as H.
  apply (NoDup_ListNoDup (polygon_keys hole)) in H.
  rewrite (List.NoDup_count_occ (decide_rel eq)) in H. specialize (H x).
  rewrite list_elem_of_In. rewrite (count_occ_In (decide_rel eq)).
  fold (occ x (polygon_keys hole)) in *.
  destruct (occ x (polygon_keys hole)) as [|[|n]]; cbn; split; intros; try done; lia.
Qed.

Lemma polygon_keys_two (a c : Z) (x : edge) :
  Nat.even (occ x (polygon_keys [a; c])) = true.
Proof.
  unfold polygon_keys. cbn [closed_pairs app path_pairs map fst snd].
  rewrite (edgekey_sym c a). unfold occ. cbn [count_occ].
  by destruct (decide_rel eq (Mesh.edgekey a c) x).
Qed.

(** *** The projected point of an index *)

Lemma assoc2_zip (hole : list Z) (proj : list vec2) (k : nat) (z : Z) (p : vec2) :
  NoDup hole -> hole !! k = Some z -> proj !! k = Some p ->
  proj_of hole proj z = p.
Proof.
  unfold proj_of. revert proj k. induction hole as [|h hole IH]; intros proj k Hnd Hz Hp; [done|].
  destruct proj as [|q proj]; [done|]. cbn [zip zip_with assoc2].
  apply NoDup_cons in Hnd as [Hh Hnd].
  destruct k as [|k].
  - cbn in Hz, Hp. injection Hz as ->. injection Hp as ->. by rewrite Z.eqb_refl.
  - cbn in Hz, Hp. destruct (Z.eqb_spec h z) as [->|_].
    + exfalso. apply Hh. by eapply list_elem_of_lookup_2.
    + by eapply IH.
Qed.

Lemma py_get_ok {A : Type} (l : list A) (i : nat) (x : A) :
  l !! i = Some x -> py_get l i = Ok x.
Proof. unfold py_get. by intros ->. Qed.

Lemma py_get_lt {A : Type} (l : list A) (i : nat) :
  (i < List.length l)%nat -> exists x, l !! i = Some x /\ py_get l i = Ok x.
Proof.
  intros H. destruct (lookup_lt_is_Some_2 l i H) as [x Hx].
  exists x. split; [done|by apply py_get_ok].
Qed.

Lemma argmax_from_bound (scores : list escore) (i best : nat) (bs : escore) :
  (best < i)%nat -> (argmax_from scores i best bs < i + List.length scores)%nat.
Proof.
  revert i best bs. induction scores as [|s rest IH]; intros i best bs Hb.
  - cbn. lia.
  - cbn [argmax_from List.length]. destruct (escore_lt bs s).
    + specialize (IH (S i) i s). lia.
    + specialize (IH (S i) best bs). lia.
Qed.

Lemma argmax_ok (scores : list escore) :
  (0 < List.length scores)%nat ->
  exists i, argmax scores = Ok i /\ (i < List.length scores)%nat.
Proof.
  destruct scores as [|s rest]; cbn [List.length]; [lia|]. intros _.
  eexists. split; [reflexivity|].
  pose proof (argmax_from_bound rest 1 0 s). lia.
Qed.

Lemma distinct2_pop (proj : list vec2) (i : nat) :
  (i < List.length proj)%nat -> distinct2 proj -> distinct2 (pop proj i).
Proof.
  intros Hi Hd j k p q Hj Hk Hjk.
  apply pop_lookup in Hj as (j' & Hj & Ej); [|done].
  apply pop_lookup in Hk as (k' & Hk & Ek); [|done].
  apply (Hd j' k' p q Hj Hk).
  subst. destruct (decide (j < i)%nat), (decide (k < i)%nat); lia.
Qed.

Lemma clip_eq (sqrtQ : Q -> Q) (fuel : nat) (hole : list Z) (proj : list vec2)
    (scores : list escore) (triangles : list face) (warnings : nat) :
  clip sqrtQ fuel hole proj scores triangles warnings =
  if (2 <? List.length hole)%nat then
    match fuel with
    | O => OutOfFuel
    | S fuel' =>
        let l := List.length hole in
        i <-- argmax (take l scores) ;;
        si <-- py_get scores i ;;
        let warnings' :=
          if escore_lt si (Fin (- NUMPREC)) then S warnings else warnings in
        a <-- py_get hole (prev_pos l i) ;;
        b <-- py_get hole i ;;
        c <-- py_get hole (next_pos l i) ;;
        let hole' := pop hole i in
        let proj' := pop proj i in
        let scores' := pop scores i in
        let l' := (l - 1)%nat in
        s1 <-- score sqrtQ proj' (prev_pos l' i) ;;
        let scores1 := <[ prev_pos l' i := s1 ]> scores' in
        s2 <-- score sqrtQ proj' (i mod l') ;;
        let scores2 := <[ (i mod l')%nat := s2 ]> scores1 in
        clip sqrtQ fuel' hole' proj' scores2 (triangles ++ [(a, b, c)]) warnings'
    end
  else Ok (triangles, warnings).
Proof. by destruct fuel. Qed.

Lemma Qsq_nonneg (a : Q) : (0 <= a * a)%Q.
Proof. destruct (Qlt_le_dec 0 a); nra. Qed.

Lemma Qsq_pos (a : Q) : ~ (a == 0)%Q -> (0 < a * a)%Q.
Proof. intros H. destruct (Q_dec 0 a) as [[?|?]|E]; [nra|nra|]. by symmetry in E. Qed.

Section EarClipping.
Variable sqrtQ : Q -> Q.
Hypothesis sqrtQ_nonneg : forall x : Q, (0 <= x -> 0 <= sqrtQ x)%Q.
Hypothesis sqrtQ_pos : forall x : Q, (0 < x -> 0 < sqrtQ x)%Q.

Lemma length2_nonneg (u : vec2) : (0 <= length2 sqrtQ u)%Q.
Proof.
  apply sqrtQ_nonneg. destruct u as [a b]. cbn [fst snd].
  pose proof (Qsq_nonneg a). pose proof (Qsq_nonneg b). lra.
Qed.

Lemma length2_pos (u : vec2) : ~ vec2_eq u (0, 0)%Q -> (0 < length2 sqrtQ u)%Q.
Proof.
  intros Hu. apply sqrtQ_pos. destruct u as [a b]. unfold vec2_eq in Hu. cbn [fst snd] in *.
  pose proof (Qsq_nonneg a). pose proof (Qsq_nonneg b).
  destruct (Qeq_dec a 0) as [Ha|Ha].
  - destruct (Qeq_dec b 0) as [Hb|Hb]; [tauto|].
    pose proof (Qsq_pos b Hb). lra.
  - pose proof (Qsq_pos a Ha). lra.
Qed.

Lemma aesthetic_ok (u v : vec2) :
  ~ vec2_eq u (0, 0)%Q -> exists sc, aesthetic sqrtQ u v = Ok sc.
Proof.
  intros Hu. unfold aesthetic.
  pose proof (length2_pos u Hu). pose proof (length2_nonneg v).
  pose proof (length2_nonneg (sub2 u v)).
  set (per := (length2 sqrtQ u + length2 sqrtQ v + length2 sqrtQ (sub2 u v))%Q) in *.
  cbv zeta.
  destruct (Qeq_bool (per * per) 0) eqn:E; [|eauto].
  apply Qeq_bool_iff in E. assert (0 < per)%Q by (unfold per; lra). nra.
Qed.

Lemma sub2_nonzero (p q : vec2) : ~ vec2_eq p q -> ~ vec2_eq (sub2 p q) (0, 0)%Q.
Proof.
  intros H [H1 H2]. apply H. destruct p, q. unfold vec2_eq, sub2 in *. cbn [fst snd] in *.
  split; lra.
Qed.

Lemma score_ok (proj : list vec2) (i : nat) :
  (2 <= List.length proj)%nat -> (i < List.length proj)%nat -> distinct2 proj ->
  exists s, score sqrtQ proj i = Ok s.
Proof.
  intros Hl Hi Hd. unfold score. cbv zeta.
  destruct (py_get_lt proj (next_pos (List.length proj) i)) as (pn & Hn & ->);
    [apply next_pos_bound; lia|].
  destruct (py_get_lt proj i) as (pi & Hpi & ->); [done|].
  destruct (py_get_lt proj (prev_pos (List.length proj) i)) as (pp & Hp & ->);
    [apply prev_pos_lt; lia|].
  cbn [rbind].
  destruct (aesthetic_ok (sub2 pn pi) (sub2 pp pi)) as (sc & ->).
  { apply sub2_nonzero. apply (Hd _ _ _ _ Hn Hpi).
    destruct (decide (S i < List.length proj)%nat).
    - rewrite next_pos_lt by lia. lia.
    - rewrite next_pos_last by lia. lia. }
  cbn [rbind]. destruct (Hashing.Qlt_bool sc 0); [eauto|].
  destruct (any_inside _ _ _ _ _ _); eauto.
Qed.

Lemma scores_from_ok (proj : list vec2) (n i : nat) :
  (2 <= List.length proj)%nat -> (i + n <= List.length proj)%nat -> distinct2 proj ->
  exists scores, scores_from sqrtQ proj i n = Ok scores /\ List.length scores = n.
Proof.
  intros Hl Hin Hd. revert i Hin. induction n as [|n IH]; intros i Hin.
  - by exists [].
  - cbn [scores_from]. destruct (score_ok proj i) as (s & ->); [lia..|done|].
    destruct (IH (S i)) as (rest & -> & Hr); [lia|].
    cbn [rbind]. exists (s :: rest). split; [done|]. cbn. by rewrite Hr.
Qed.

(** The loop of [triangulation_outline] ends, clips [len(hole) - 2]
    triangles, and keeps the area and the parity of the edges. *)
Lemma clip_spec (P : Z -> vec2) (fuel : nat) :
  forall (hole : list Z) (proj : list vec2) (scores : list escore)
         (tris : list face) (w : nat),
  (List.length hole - 2 <= fuel)%nat ->
  List.length proj = List.length hole ->
  List.length scores = List.length hole ->
  (2 <= List.length hole)%nat ->
  distinct2 proj ->
  (forall k z p, hole !! k = Some z -> proj !! k = Some p -> P z = p) ->
  exists tris' w',
    clip sqrtQ fuel hole proj scores tris w = Ok (tris ++ tris', w')
    /\ List.length tris' = (List.length hole - 2)%nat
    /\ (faces_area2 P tris' == shoelace2 proj)%Q
    /\ forall x, Nat.even (occ x (face_keys (tris ++ tris')))
                 = Nat.even (occ x (face_keys tris) + occ x (polygon_keys hole)).
Proof.
  induction fuel as [|fuel IH]; intros hole proj scores tris w Hfuel Hproj Hscores Hlen Hd HP.
  - assert (Hl2 : List.length hole = 2%nat) by lia.
    rewrite clip_eq. rewrite (proj2 (Nat.ltb_ge _ _)) by lia.
    exists [], w. rewrite app_nil_r. split; [done|]. split; [cbn [List.length]; lia|].
    destruct hole as [|a [|c [|? ?]]]; try done.
    destruct proj as [|pa [|pc [|? ?]]]; try done.
    split; [by rewrite shoelace2_two|].
    intros x. rewrite Nat.even_add, polygon_keys_two. by destruct (Nat.even _).
  - destruct (decide (List.length hole = 2%nat)) as [Hl2|Hl2].
    { rewrite clip_eq. rewrite (proj2 (Nat.ltb_ge _ _)) by lia.
      exists [], w. rewrite app_nil_r. split; [done|]. split; [cbn [List.length]; lia|].
      destruct hole as [|a [|c [|? ?]]]; try done.
      destruct proj as [|pa [|pc [|? ?]]]; try done.
      split; [by rewrite shoelace2_two|].
      intros x. rewrite Nat.even_add, polygon_keys_two. by destruct (Nat.even _). }
    assert (Hl3 : (3 <= List.length hole)%nat) by lia.
    rewrite clip_eq. rewrite (proj2 (Nat.ltb_lt _ _)) by lia. cbv zeta.
    rewrite take_ge by lia.
    destruct (argmax_ok scores) as (i & -> & Hi); [lia|]. cbn [rbind].
    destruct (py_get_lt scores i) as (si & _ & ->); [done|]. cbn [rbind].
    rewrite Hscores in Hi.
    destruct (py_get_lt hole (prev_pos (List.length hole) i)) as (a & Ha & ->);
      [apply prev_pos_lt; lia|].
    destruct (py_get_lt hole i) as (b & Hb & ->); [done|].
    destruct (py_get_lt hole (next_pos (List.length hole) i)) as (c & Hc & ->);
      [apply next_pos_bound; lia|].
    cbn [rbind].
    assert (Hpl : List.length (pop proj i) = (List.length hole - 1)%nat)
      by (rewrite pop_length; lia).
    assert (Hd' : distinct2 (pop proj i)) by (apply distinct2_pop; [lia|done]).
    destruct (score_ok (pop proj i) (prev_pos (List.length hole - 1) i)) as (s1 & ->);
      [lia|rewrite Hpl; apply prev_pos_lt; lia|done|].
    cbn [rbind].
    destruct (score_ok (pop proj i) (i mod (List.length hole - 1))) as (s2 & ->);
      [lia|rewrite Hpl; apply Nat.mod_upper_bound; lia|done|].
    cbn [rbind].
    edestruct (IH (pop hole i) (pop proj i)) as (tris' & w' & Hclip & Hn & Harea & Hocc);
      [| | | | exact Hd' | | rewrite Hclip].
    + rewrite pop_length; lia.
    + rewrite !pop_length; lia.
    + rewrite !length_insert, !pop_length; lia.
    + rewrite pop_length; lia.
    + intros k z p Hz Hp.
      apply pop_lookup in Hz as (k1 & Hz & E1); [|lia].
      apply pop_lookup in Hp as (k2 & Hp & E2); [|lia].
      subst. by eapply HP.
    + exists ((a, b, c) :: tris'), w'. split; [by rewrite <- app_assoc|].
      split; [cbn [List.length]; rewrite Hn, pop_length; lia|].
      destruct (lookup_lt_is_Some_2 proj (prev_pos (List.length hole) i)) as [pa Hpa];
        [rewrite Hproj; apply prev_pos_lt; lia|].
      destruct (lookup_lt_is_Some_2 proj i) as [pb Hpb]; [lia|].
      destruct (lookup_lt_is_Some_2 proj (next_pos (List.length hole) i)) as [pc Hpc];
        [rewrite Hproj; apply next_pos_bound; lia|].
      split.
      * rewrite <- Hproj in Hpa, Hpc.
        rewrite (shoelace2_pop proj i pa pb pc) by (done || lia).
        rewrite <- Harea. unfold faces_area2. cbn [map Qsum fold_right].
        unfold face_area2 at 1. cbn [fst snd].
        rewrite <- Hproj in Ha, Hc. rewrite Hproj in Ha, Hc, Hpa, Hpc.
        rewrite (HP _ _ _ Ha Hpa), (HP _ _ _ Hb Hpb), (HP _ _ _ Hc Hpc). reflexivity.
      * intros x. replace (tris ++ (a, b, c) :: tris') with ((tris ++ [(a, b, c)]) ++ tris')
          by (by rewrite <- app_assoc).
        rewrite Hocc. by apply occ_pop.
Qed.

End EarClipping.

(** *** Points equal as rationals *)

Lemma vec2_eq_refl (p : vec2) : vec2_eq p p.
Proof. by split. Qed.

Lemma vec2_eq_sym (p q : vec2) : vec2_eq p q -> vec2_eq q p.
Proof. intros [H1 H2]. by split. Qed.

Lemma vec2_eq_trans (p q r : vec2) : vec2_eq p q -> vec2_eq q r -> vec2_eq p r.
Proof. intros [H1 H2] [H3 H4]. split; [by rewrite H1|by rewrite H2]. Qed.

Lemma sub2_eq (p p' q q' : vec2) :
  vec2_eq p p' -> vec2_eq q q' -> vec2_eq (sub2 p q) (sub2 p' q').
Proof.
  intros [H1 H2] [H3 H4]. unfold sub2. split; cbn [fst snd]; [by rewrite H1, H3|by rewrite H2, H4].
Qed.

Lemma perpdot_eq (u u' v v' : vec2) :
  vec2_eq u u' -> vec2_eq v v' -> (perpdot u v == perpdot u' v')%Q.
Proof. intros [H1 H2] [H3 H4]. unfold perpdot. by rewrite H1, H2, H3, H4. Qed.

Lemma Qlt_bool_eq (a a' b b' : Q) :
  (a == a')%Q -> (b == b')%Q -> Hashing.Qlt_bool a b = Hashing.Qlt_bool a' b'.
Proof.
  intros Ha Hb. apply eq_true_iff_eq.
  rewrite !HashingFacts.Qlt_bool_iff. by rewrite Ha, Hb.
Qed.

Lemma Qle_bool_eq (a a' b b' : Q) :
  (a == a')%Q -> (b == b')%Q -> Qle_bool a b = Qle_bool a' b'.
Proof.
  intros Ha Hb. apply eq_true_iff_eq. rewrite !Qle_bool_iff. by rewrite Ha, Hb.
Qed.

Lemma Qeq_bool_eq (a a' b b' : Q) :
  (a == a')%Q -> (b == b')%Q -> Qeq_bool a b = Qeq_bool a' b'.
Proof.
  intros Ha Hb. apply eq_true_iff_eq. rewrite !Qeq_bool_iff. by rewrite Ha, Hb.
Qed.

Lemma inside_eq (u u' v v' w w' : vec2) :
  vec2_eq u u' -> vec2_eq v v' -> vec2_eq w w' -> inside u v w = inside u' v' w'.
Proof.
  intros Hu Hv Hw. unfold inside. cbv zeta.
  pose proof (perpdot_eq _ _ _ _ Hu Hv) as Hd.
  rewrite (Qeq_bool_eq _ (perpdot u' v') 0 0 Hd) by reflexivity.
  destruct (Qeq_bool (perpdot u' v') 0) eqn:E; [done|].
  apply Qeq_bool_neq in E.
  assert (~ perpdot u v == 0)%Q by (by rewrite Hd).
  destruct Hu as [H1 H2], Hv as [H3 H4], Hw as [H5 H6].
  f_equal; [f_equal|]; apply Qle_bool_eq; try reflexivity;
    rewrite ?H1, ?H2, ?H3, ?H4, ?H5, ?H6, ?Hd; reflexivity.
Qed.

Lemma any_inside_eq (proj proj' : list vec2) (j : nat) (skip : list nat)
    (u u' v v' o o' : vec2) :
  Forall2 vec2_eq proj proj' -> vec2_eq u u' -> vec2_eq v v' -> vec2_eq o o' ->
  any_inside proj j skip u v o = any_inside proj' j skip u' v' o'.
Proof.
  intros Hp Hu Hv Ho. revert j. induction Hp as [|p p' proj proj' Hpp _ IH]; intros j; [done|].
  cbn [any_inside]. rewrite (inside_eq _ u' _ v' _ (sub2 p' o')), IH; [done..|].
  by apply sub2_eq.
Qed.

Lemma Forall2_pop {A B : Type} (R : A -> B -> Prop) (l : list A) (l' : list B) (i : nat) :
  Forall2 R l l' -> Forall2 R (pop l i) (pop l' i).
Proof.
  intros H. unfold pop. apply Forall2_app; [by apply Forall2_take|by apply Forall2_drop].
Qed.

Lemma distinct2_eq (proj proj' : list vec2) :
  Forall2 vec2_eq proj proj' -> distinct2 proj' -> distinct2 proj.
Proof.
  intros Hp Hd i j p q Hi Hj Hij Hpq.
  destruct (Forall2_lookup_l _ _ _ _ _ Hp Hi) as (p' & Hi' & Hpp).
  destruct (Forall2_lookup_l _ _ _ _ _ Hp Hj) as (q' & Hj' & Hqq).
  apply (Hd i j p' q' Hi' Hj' Hij).
  apply (vec2_eq_trans p' p q'); [by apply vec2_eq_sym|].
  by apply (vec2_eq_trans p q q').
Qed.

Lemma distinct2b_sound (l : list vec2) : distinct2b l = true -> distinct2 l.
Proof.
  induction l as [|p r IH]; [by intros _ i j ? ? ?|].
  cbn [distinct2b]. intros [Hp Hr]%andb_prop. specialize (IH Hr).
  rewrite forallb_forall in Hp.
  assert (Hhd : forall k q, r !! k = Some q -> ~ vec2_eq p q).
  { intros k q Hk [H1 H2]. apply list_elem_of_lookup_2, list_elem_of_In, Hp in Hk.
    apply negb_true_iff in Hk. unfold vec2_eqb in Hk.
    apply Qeq_bool_iff in H1, H2. by rewrite H1, H2 in Hk. }
  intros [|i] [|j] a b Hi Hj Hij; cbn in Hi, Hj.
  - done.
  - injection Hi as ->. by eapply Hhd.
  - injection Hj as ->. intros H%vec2_eq_sym. revert H. by eapply Hhd.
  - eapply IH; eauto.
Qed.

(** *** The greatest score *)

Lemma escore_lt_irrefl (a : escore) : escore_lt a a = false.
Proof.
  destruct a as [|q]; [done|]. cbn. destruct (Hashing.Qlt_bool q q) eqn:E; [|done].
  apply HashingFacts.Qlt_bool_iff in E. lra.
Qed.

Lemma escore_le_lt (a b c : escore) :
  escore_lt b a = false -> escore_lt b c = true -> escore_lt c a = false.
Proof.
  destruct a as [|x], b as [|y], c as [|z]; cbn; try done.
  intros H1 H2. apply HashingFacts.Qlt_bool_iff in H2.
  destruct (Hashing.Qlt_bool y x) eqn:E1; [done|].
  destruct (Hashing.Qlt_bool z x) eqn:E2; [|done].
  apply HashingFacts.Qlt_bool_iff in E2.
  assert (~ (y < x)%Q) by (intros H%HashingFacts.Qlt_bool_iff; congruence). lra.
Qed.

Lemma argmax_from_max (rest : list escore) (i best : nat) (bs : escore) (seen : list escore) :
  List.length seen = i -> seen !! best = Some bs ->
  (forall j s, seen !! j = Some s -> escore_lt bs s = false) ->
  exists s, (seen ++ rest) !! argmax_from rest i best bs = Some s
    /\ forall j s', (seen ++ rest) !! j = Some s' -> escore_lt s s' = false.
Proof.
  revert i best bs seen. induction rest as [|s rest IH]; intros i best bs seen Hlen Hbest Hmax.
  - cbn [argmax_from]. rewrite app_nil_r. eauto.
  - cbn [argmax_from]. replace (seen ++ s :: rest) with ((seen ++ [s]) ++ rest)
      by (by rewrite <- app_assoc).
    destruct (escore_lt bs s) eqn:E.
    + apply IH.
      * rewrite length_app. cbn. lia.
      * rewrite lookup_app_r by lia. by rewrite Hlen, Nat.sub_diag.
      * intros j s' Hj. destruct (decide (j < List.length seen)%nat).
        -- rewrite lookup_app_l in Hj by lia. eapply escore_le_lt; [by eapply Hmax|done].
        -- rewrite lookup_app_r in Hj by lia.
           destruct (j - List.length seen)%nat as [|[|?]]; cbn in Hj; try done.
           injection Hj as <-. apply escore_lt_irrefl.
    + apply IH.
      * rewrite length_app. cbn. lia.
      * apply lookup_app_l_Some. done.
      * intros j s' Hj. destruct (decide (j < List.length seen)%nat).
        -- rewrite lookup_app_l in Hj by lia. by eapply Hmax.
        -- rewrite lookup_app_r in Hj by lia.
           destruct (j - List.length seen)%nat as [|[|?]]; cbn in Hj; try done.
           by injection Hj as <-.
Qed.

Lemma argmax_max (scores : list escore) (i : nat) :
  argmax scores = Ok i ->
  exists s, scores !! i = Some s
    /\ forall j s', scores !! j = Some s' -> escore_lt s s' = false.
Proof.
  destruct scores as [|s0 rest]; [done|]. cbn [argmax]. intros [= <-].
  apply (argmax_from_max rest 1 0 s0 [s0]); [done..|].
  intros [|[|?]] s; cbn; try done. intros [= <-]. apply escore_lt_irrefl.
Qed.

Lemma has_class_le (s s' : escore) (c c' : cls) :
  has_class s c -> has_class s' c' -> escore_lt s s' = false -> cls_leb c' c = true.
Proof.
  intros Hs Hs' Hlt.
  destruct c, c'; try reflexivity; cbn in Hs, Hs';
    repeat match goal with
    | H : exists _, _ |- _ => let q := fresh "q" in destruct H as (q & -> & ?)
    end; subst; cbn in Hlt; try done;
    exfalso;
    match goal with
    | H : Hashing.Qlt_bool ?a ?b = false |- _ =>
        assert (Hashing.Qlt_bool a b = true) by (apply HashingFacts.Qlt_bool_iff; lra);
        congruence
    end.
Qed.

Lemma has_class_no_warning (s : escore) (c : cls) :
  has_class s c -> cls_leb CZero c = true -> escore_lt s (Fin (- NUMPREC)) = false.
Proof.
  intros Hs Hc. destruct c; try done; destruct Hs as (q & -> & Hq); cbn;
    destruct (Hashing.Qlt_bool q (- NUMPREC)) eqn:E; try done;
    apply HashingFacts.Qlt_bool_iff in E; unfold NUMPREC in E; lra.
Qed.

Section ClipRefinement.
Variable sqrtQ : Q -> Q.
Hypothesis sqrtQ_nonneg : forall x : Q, (0 <= x -> 0 <= sqrtQ x)%Q.
Hypothesis sqrtQ_pos : forall x : Q, (0 < x -> 0 < sqrtQ x)%Q.

Lemma aesthetic_sign (u v : vec2) :
  ~ vec2_eq u (0, 0)%Q ->
  exists sc k, aesthetic sqrtQ u v = Ok sc /\ (0 < k)%Q /\ (sc * k == perpdot u v)%Q.
Proof.
  intros Hu. unfold aesthetic.
  pose proof (length2_pos sqrtQ sqrtQ_pos u Hu).
  pose proof (length2_nonneg sqrtQ sqrtQ_nonneg v).
  pose proof (length2_nonneg sqrtQ sqrtQ_nonneg (sub2 u v)).
  set (per := (length2 sqrtQ u + length2 sqrtQ v + length2 sqrtQ (sub2 u v))%Q) in *.
  assert (Hper : (0 < per)%Q) by (unfold per; lra). clearbody per.
  cbv zeta. destruct (Qeq_bool (per * per) 0) eqn:E.
  - apply Qeq_bool_iff in E. nra.
  - exists (perpdot u v / (per * per))%Q, (per * per)%Q.
    split; [done|]. split; [nra|]. field. nra.
Qed.

(** the sign of the score of a corner is the one read on the points *)
Lemma score_class (projA projC : list vec2) (i : nat) (c : cls) :
  Forall2 vec2_eq projA projC -> distinct2 projA -> (2 <= List.length projA)%nat ->
  class_of projC i = Some c ->
  exists s, score sqrtQ projA i = Ok s /\ has_class s c.
Proof.
  intros Hp Hd Hl Hc. pose proof (Forall2_length _ _ _ Hp) as Hlen.
  unfold class_of in Hc. cbv zeta in Hc. rewrite <- Hlen in Hc.
  destruct (projC !! next_pos (List.length projA) i) as [pn'|] eqn:En; [|done].
  destruct (projC !! i) as [pi'|] eqn:Ei; [|done].
  destruct (projC !! prev_pos (List.length projA) i) as [pp'|] eqn:Ep; [|done].
  destruct (Forall2_lookup_r _ _ _ _ _ Hp En) as (pn & Hn & Hnn).
  destruct (Forall2_lookup_r _ _ _ _ _ Hp Ei) as (pi & Hi & Hii).
  destruct (Forall2_lookup_r _ _ _ _ _ Hp Ep) as (pp & Hpp & Hppp).
  unfold score. cbv zeta.
  rewrite (py_get_ok _ _ _ Hn), (py_get_ok _ _ _ Hi), (py_get_ok _ _ _ Hpp). cbn [rbind].
  assert (Hi' : (i < List.length projA)%nat) by (by apply lookup_lt_Some in Hi).
  destruct (aesthetic_sign (sub2 pn pi) (sub2 pp pi)) as (sc & k & -> & Hk & Hsc).
  { apply sub2_nonzero. apply (Hd _ _ _ _ Hn Hi).
    destruct (decide (S i < List.length projA)%nat).
    - rewrite next_pos_lt by lia. lia.
    - rewrite next_pos_last by lia. lia. }
  cbn [rbind].
  pose proof (perpdot_eq _ _ _ _ (sub2_eq _ _ _ _ Hnn Hii) (sub2_eq _ _ _ _ Hppp Hii)) as Hdd.
  rewrite <- (any_inside_eq projA projC 0 _ (sub2 pn pi) _ (sub2 pp pi) _ pi pi') in Hc
    by (done || by apply sub2_eq).
  set (d := perpdot (sub2 pn pi) (sub2 pp pi)) in *.
  set (d' := perpdot (sub2 pn' pi') (sub2 pp' pi')) in *.
  clearbody d d'.
  destruct (Hashing.Qlt_bool sc 0) eqn:E1.
  - apply HashingFacts.Qlt_bool_iff in E1.
    assert (Hashing.Qlt_bool d' 0 = true) as E by (apply HashingFacts.Qlt_bool_iff; nra).
    rewrite E in Hc. injection Hc as <-. exists (Fin sc). split; [done|]. cbn. eauto.
  - assert (~ (sc < 0)%Q) by (intros H%HashingFacts.Qlt_bool_iff; congruence).
    assert (Hashing.Qlt_bool d' 0 = false) as E.
    { destruct (Hashing.Qlt_bool d' 0) eqn:E; [|done].
      apply HashingFacts.Qlt_bool_iff in E. nra. }
    rewrite E in Hc.
    destruct (any_inside projA _ _ _ _ _).
    + injection Hc as <-. by exists NegInf.
    + exists (Fin sc). split; [done|].
      destruct (Qeq_bool d' 0) eqn:E2; injection Hc as <-; cbn; exists sc; (split; [done|]).
      * apply Qeq_bool_iff in E2. nra.
      * apply Qeq_bool_neq in E2.
        destruct (Qeq_dec sc 0) as [E3|E3]; [|lra].
        exfalso. apply E2. rewrite <- Hdd, <- Hsc, E3. ring.
Qed.

Lemma set_class_sound (projA projC : list vec2) (i : nat) (scores : list escore)
    (classes cl : list cls) :
  Forall2 vec2_eq projA projC -> distinct2 projA -> (2 <= List.length projA)%nat ->
  Forall2 has_class scores classes ->
  set_class projC i classes = Some cl ->
  exists s, score sqrtQ projA i = Ok s /\ Forall2 has_class (<[ i := s ]> scores) cl.
Proof.
  intros Hp Hd Hl Hs Hc. unfold set_class in Hc.
  destruct (class_of projC i) as [c|] eqn:E; [|done]. injection Hc as <-.
  destruct (score_class projA projC i c Hp Hd Hl E) as (s & Hsc & Hcl).
  exists s. split; [done|]. by apply Forall2_insert.
Qed.

(** a run of the loop is one of the runs [explore] goes through *)
Lemma explore_sound (ok : list face -> bool) (fuel : nat) :
  forall (hole : list Z) (projA projC : list vec2) (scores : list escore)
         (classes : list cls) (tris : list face) (w : nat),
  explore fuel hole projC classes tris ok = true ->
  Forall2 vec2_eq projA projC -> Forall2 has_class scores classes ->
  List.length projC = List.length hole -> List.length classes = List.length hole ->
  distinct2 projA ->
  exists r, clip sqrtQ fuel hole projA scores tris w = Ok (r, w) /\ ok r = true.
Proof.
  induction fuel as [|fuel IH];
    intros hole projA projC scores classes tris w Hex Hp Hs HlC Hlcl Hd;
    rewrite clip_eq; cbn [explore] in Hex;
    destruct (2 <? List.length hole)%nat eqn:Hl; try done; try (by exists tris).
  apply Nat.ltb_lt in Hl. cbv zeta in *.
  pose proof (Forall2_length _ _ _ Hp) as HlA.
  pose proof (Forall2_length _ _ _ Hs) as Hls.
  rewrite take_ge by lia.
  destruct (argmax_ok scores) as (i & Hi & Hil); [lia|].
  rewrite Hi. cbn [rbind].
  destruct (argmax_max scores i Hi) as (si & Hsi & Hmax).
  rewrite (py_get_ok _ _ _ Hsi). cbn [rbind].
  rewrite forallb_forall in Hex. specialize (Hex i).
  rewrite in_seq in Hex. specialize (Hex ltac:(lia)).
  destruct (Forall2_lookup_l _ _ _ _ _ Hs Hsi) as (ci & Hci & Hsci).
  rewrite Hci in Hex.
  assert (Htop : forallb (fun c => cls_leb c ci) classes = true).
  { apply forallb_forall. intros c Hc.
    apply list_elem_of_In, list_elem_of_lookup_1 in Hc as (j & Hj).
    destruct (Forall2_lookup_r _ _ _ _ _ Hs Hj) as (sj & Hsj & Hcj).
    eapply has_class_le; [exact Hsci|exact Hcj|]. by eapply Hmax. }
  rewrite Htop in Hex.
  destruct (hole !! prev_pos (List.length hole) i) as [a|] eqn:Ha; [|done].
  destruct (hole !! i) as [b|] eqn:Hb; [|done].
  destruct (hole !! next_pos (List.length hole) i) as [c|] eqn:Hc; [|done].
  rewrite (py_get_ok _ _ _ Ha), (py_get_ok _ _ _ Hb), (py_get_ok _ _ _ Hc). cbn [rbind].
  apply andb_prop in Hex as [Hz Hex].
  rewrite (has_class_no_warning si ci Hsci Hz).
  destruct (set_class (pop projC i) (prev_pos (List.length hole - 1) i) (pop classes i))
    as [cl1|] eqn:E1; [|done].
  destruct (set_class (pop projC i) (i mod (List.length hole - 1)) cl1)
    as [cl2|] eqn:E2; [|done].
  assert (Hp' : Forall2 vec2_eq (pop projA i) (pop projC i)) by (by apply Forall2_pop).
  assert (Hd' : distinct2 (pop projA i)) by (apply distinct2_pop; [lia|done]).
  assert (HlA' : (2 <= List.length (pop projA i))%nat) by (rewrite pop_length; lia).
  destruct (set_class_sound (pop projA i) (pop projC i) _ (pop scores i) (pop classes i) cl1
    Hp' Hd' HlA' (Forall2_pop _ _ _ i Hs) E1) as (s1 & -> & Hs1).
  cbn [rbind].
  destruct (set_class_sound (pop projA i) (pop projC i) _ _ cl1 cl2
    Hp' Hd' HlA' Hs1 E2) as (s2 & -> & Hs2).
  cbn [rbind].
  apply (IH _ _ (pop projC i) _ cl2); try done.
  - rewrite !pop_length; lia.
  - rewrite <- (Forall2_length _ _ _ Hs2), !length_insert, !pop_length; lia.
Qed.

End ClipRefinement.

(** *** Vectors equal as rationals *)

Lemma vec3_eq_refl (p : vec3) : vec3_eq p p.
Proof. by repeat split. Qed.

Lemma vsub_eq (p p' q q' : vec3) : vec3_eq p p' -> vec3_eq q q' -> vec3_eq (vsub p q) (vsub p' q').
Proof.
  intros (H1 & H2 & H3) (H4 & H5 & H6). unfold vsub, vec3_eq. cbn [vx vy vz fst snd].
  by rewrite H1, H2, H3, H4, H5, H6.
Qed.

Lemma vscale_eq (k k' : Q) (p p' : vec3) :
  (k == k')%Q -> vec3_eq p p' -> vec3_eq (vscale k p) (vscale k' p').
Proof.
  intros Hk (H1 & H2 & H3). unfold vscale, vec3_eq. cbn [vx vy vz fst snd].
  by rewrite H1, H2, H3, Hk.
Qed.

Lemma dot_eq (p p' q q' : vec3) : vec3_eq p p' -> vec3_eq q q' -> (dot p q == dot p' q')%Q.
Proof.
  intros (H1 & H2 & H3) (H4 & H5 & H6). unfold dot. by rewrite H1, H2, H3, H4, H5, H6.
Qed.

Lemma cross_eq (p p' q q' : vec3) :
  vec3_eq p p' -> vec3_eq q q' -> vec3_eq (cross p q) (cross p' q').
Proof.
  intros (H1 & H2 & H3) (H4 & H5 & H6). unfold cross, vec3_eq. cbn [vx vy vz fst snd].
  by rewrite H1, H2, H3, H4, H5, H6.
Qed.

Lemma argmin_from_eq (keys keys' : list Q) (i best : nat) (bk bk' : Q) :
  Forall2 Qeq keys keys' -> (bk == bk')%Q ->
  argmin_from keys i best bk = argmin_from keys' i best bk'.
Proof.
  intros H. revert i best bk bk'. induction H as [|k k' keys keys' Hk _ IH]; intros i best bk bk' Hb.
  - done.
  - cbn [argmin_from]. rewrite (Qlt_bool_eq k k' bk bk' Hk Hb).
    destruct (Hashing.Qlt_bool k' bk'); by apply IH.
Qed.

Section LShape.
Variable sqrtQ : Q -> Q.
Hypothesis sqrtQ_proper : forall x y : Q, (x == y -> sqrtQ x == sqrtQ y)%Q.
Hypothesis sqrtQ_1 : (sqrtQ 1 == 1)%Q.
Hypothesis sqrtQ_4 : (sqrtQ 4 == 2)%Q.

Lemma length_eq (p p' : vec3) : vec3_eq p p' -> (length sqrtQ p == length sqrtQ p')%Q.
Proof. intros H. unfold length. apply sqrtQ_proper. by apply dot_eq. Qed.

Lemma unit_vec_eq (p p' : vec3) (k : Q) :
  vec3_eq p p' -> (dot p' p' == k * k)%Q -> (sqrtQ (k * k) == k)%Q ->
  vec3_eq (unit_vec sqrtQ p) (vscale (/ k) p').
Proof.
  intros Hp Hd Hk. unfold unit_vec. apply vscale_eq; [|done].
  rewrite (length_eq p p' Hp). unfold length. by rewrite (sqrtQ_proper _ _ Hd), Hk.
Qed.

Lemma guessbase_L :
  exists x y z, guessbase sqrtQ Lwire NoNormal = Ok (x, y, z)
    /\ vec3_eq x (1, 0, 0)%Q /\ vec3_eq y (0, 1, 0)%Q /\ vec3_eq z (0, 0, 1)%Q.
Proof.
  unfold guessbase.
  change (wire_iter Lwire) with (map (@Ok vec3) Lpoints). cbn [map Lpoints rbind].
  match goal with |- context [guess_x ?t ?o ?ol ?pts] =>
    assert (Hgx : guess_x t o ol pts
                  = Ok ((2, 0, 0)%Q, [Ok (2, 1, 0); Ok (1, 1, 0); Ok (1, 2, 0); Ok (0, 2, 0)]%Q))
      by (vm_compute; reflexivity);
    rewrite Hgx; clear Hgx
  end.
  cbn [rbind fst snd].
  assert (Hx : vec3_eq (unit_vec sqrtQ (2, 0, 0)%Q) (1, 0, 0)%Q).
  { pose proof (unit_vec_eq (2, 0, 0)%Q (2, 0, 0)%Q 2 (vec3_eq_refl _)) as H.
    assert (vec3_eq (vscale (/ 2) (2, 0, 0)%Q) (1, 0, 0)%Q) as H2 by (by vm_compute).
    destruct H as (H3 & H4 & H5);
      [by vm_compute|transitivity (sqrtQ 4); [apply sqrtQ_proper; by vm_compute|exact sqrtQ_4]|].
    destruct H2 as (H6 & H7 & H8). repeat split; etransitivity; eauto. }
  set (x := unit_vec sqrtQ (2, 0, 0)%Q) in *. clearbody x.
  cbn [guess_y rbind].
  assert (Hc : vec3_eq (cross (vsub (2, 1, 0)%Q (0, 0, 0)%Q) x) (0, 0, -1)%Q).
  { pose proof (cross_eq _ _ _ _ (vec3_eq_refl (vsub (2, 1, 0)%Q (0, 0, 0)%Q)) Hx) as (H1 & H2 & H3).
    repeat split; [rewrite H1|rewrite H2|rewrite H3]; by vm_compute. }
  assert (Hl : (length sqrtQ (cross (vsub (2, 1, 0)%Q (0, 0, 0)%Q) x) == 1)%Q).
  { rewrite (length_eq _ _ Hc). unfold length.
    transitivity (sqrtQ 1); [apply sqrtQ_proper; by vm_compute|exact sqrtQ_1]. }
  rewrite (Qlt_bool_eq _ 1 _ (10 * NUMPREC) Hl) by reflexivity.
  change (Hashing.Qlt_bool 1 (10 * NUMPREC)) with false. cbv iota.
  cbn [rbind].
  assert (Hn : vec3_eq (noproject (vsub (2, 1, 0)%Q (0, 0, 0)%Q) x) (0, 1, 0)%Q).
  { unfold noproject, project.
    pose proof (dot_eq _ _ _ _ (vec3_eq_refl (vsub (2, 1, 0)%Q (0, 0, 0)%Q)) Hx) as Hd.
    pose proof (vsub_eq _ _ _ _ (vec3_eq_refl (vsub (2, 1, 0)%Q (0, 0, 0)%Q))
      (vscale_eq _ _ _ _ Hd Hx)) as (H1 & H2 & H3).
    repeat split; [rewrite H1|rewrite H2|rewrite H3]; by vm_compute. }
  assert (Hy : vec3_eq (unit_vec sqrtQ (noproject (vsub (2, 1, 0)%Q (0, 0, 0)%Q) x)) (0, 1, 0)%Q).
  { pose proof (unit_vec_eq _ (0, 1, 0)%Q 1 Hn) as (H3 & H4 & H5);
      [by vm_compute|transitivity (sqrtQ 1); [apply sqrtQ_proper; by vm_compute|exact sqrtQ_1]|].
    repeat split; [rewrite H3|rewrite H4|rewrite H5]; by vm_compute. }
  set (y := unit_vec sqrtQ _) in *. clearbody y.
  exists x, y, (cross x y). split; [done|]. split; [done|]. split; [done|].
  pose proof (cross_eq _ _ _ _ Hx Hy) as (H1 & H2 & H3).
  repeat split; [rewrite H1|rewrite H2|rewrite H3]; by vm_compute.
Qed.

Lemma planeproject_L :
  exists proj, planeproject sqrtQ Lwire NoNormal = Ok proj /\ Forall2 vec2_eq proj Lplane.
Proof.
  unfold planeproject. destruct guessbase_L as (x & y & z & -> & Hx & Hy & Hz).
  cbn [rbind].
  change (sequence (wire_iter Lwire)) with (Ok Lpoints). cbn [rbind].
  assert (Hkeys : Forall2 Qeq (map (fun p => dot p x) Lpoints) [0; 2; 2; 1; 1; 0]%Q).
  { cbn [map Lpoints].
    repeat (constructor; [rewrite (dot_eq _ _ _ _ (vec3_eq_refl _) Hx); by vm_compute|]).
    constructor. }
  cbn [map Lpoints] in *.
  apply Forall2_cons_1 in Hkeys as [Hk0 Hkeys].
  rewrite (argmin_from_eq _ _ 1 0 _ _ Hkeys Hk0).
  change (argmin_from [2; 2; 1; 1; 0]%Q 1 0 0%Q) with 0%nat.
  change (wire_get Lwire (next_pos (List.length (indices Lwire)) 0)) with (Ok (2, 0, 0)%Q).
  change (wire_get Lwire 0) with (Ok (0, 0, 0)%Q).
  change (wire_get Lwire (prev_pos (List.length (indices Lwire)) 0)) with (Ok (0, 2, 0)%Q).
  cbn [rbind].
  assert (Ht : (dot z (cross (vsub (2, 0, 0)%Q (0, 0, 0)%Q) (vsub (0, 2, 0)%Q (0, 0, 0)%Q)) == 4)%Q).
  { rewrite (dot_eq _ _ _ _ Hz (vec3_eq_refl _)). by vm_compute. }
  rewrite (Qlt_bool_eq _ 4 0 0 Ht) by reflexivity.
  change (Hashing.Qlt_bool 4 0) with false. cbv iota.
  eexists. split; [reflexivity|].
  unfold Lplane. cbn [map Lpoints].
  repeat (constructor;
    [split; cbn [fst snd];
       [rewrite (dot_eq _ _ _ _ (vec3_eq_refl _) Hx)|rewrite (dot_eq _ _ _ _ (vec3_eq_refl _) Hy)];
       by vm_compute|]).
  constructor.
Qed.

End LShape.

Lemma sequence_length {A : Type} (l : list (result A)) (r : list A) :
  sequence l = Ok r -> List.length r = List.length l.
Proof.
  revert r. induction l as [|[a| |] l IH]; intros r; cbn [sequence rbind]; try done.
  - by intros [= <-].
  - destruct (sequence l) as [tl| |]; cbn [rbind]; try done.
    intros [= <-]. cbn. by rewrite (IH tl).
Qed.

Lemma planeproject_length (sqrtQ : Q -> Q) (w : Wire) (normal : normal_arg) (proj : list vec2) :
  planeproject sqrtQ w normal = Ok proj -> List.length proj = List.length (indices w).
Proof.
  unfold planeproject. destruct (guessbase sqrtQ w normal) as [[[x y] z]| |]; cbn [rbind]; try done.
  destruct (sequence (wire_iter w)) as [pts| |] eqn:E; cbn [rbind]; try done.
  apply sequence_length in E. unfold wire_iter in E. rewrite length_map in E.
  destruct (map (fun p => dot p x) pts) as [|k0 keys]; [done|].
  destruct (wire_get w _) as [pn| |]; cbn [rbind]; try done.
  destruct (wire_get w _) as [pi| |]; cbn [rbind]; try done.
  destruct (wire_get w _) as [pp| |]; cbn [rbind]; try done.
  intros [= <-]. by rewrite length_map.
Qed.

Section Outline.
Variable sqrtQ : Q -> Q.
Hypothesis sqrtQ_nonneg : forall x : Q, (0 <= x -> 0 <= sqrtQ x)%Q.
Hypothesis sqrtQ_pos : forall x : Q, (0 < x -> 0 < sqrtQ x)%Q.

Lemma scores_from_class (projA projC : list vec2) (n i : nat) (classes : list cls) :
  Forall2 vec2_eq projA projC -> distinct2 projA -> (2 <= List.length projA)%nat ->
  classes_from projC i n = Some classes ->
  exists scores, scores_from sqrtQ projA i n = Ok scores /\ Forall2 has_class scores classes.
Proof.
  intros Hp Hd Hl. revert i classes. induction n as [|n IH]; intros i classes Hc.
  - injection Hc as <-. by exists [].
  - cbn [classes_from] in Hc.
    destruct (class_of projC i) as [c|] eqn:E; [|done].
    destruct (classes_from projC (S i) n) as [r|] eqn:Er; [|done].
    injection Hc as <-.
    destruct (score_class sqrtQ sqrtQ_nonneg sqrtQ_pos projA projC i c Hp Hd Hl E) as (s & Hs & Hsc).
    destruct (IH (S i) r Er) as (rest & Hrest & Hr).
    exists (s :: rest). cbn [scores_from]. rewrite Hs, Hrest. cbn [rbind].
    split; [done|by constructor].
Qed.

Lemma triangulation_outline_spec (w : Wire) (normal : normal_arg) (proj : list vec2) :
  planeproject sqrtQ w normal = Ok proj ->
  distinct2 proj -> NoDup (indices w) -> (3 <= List.length (indices w))%nat ->
  exists m warnings,
    triangulation_outline sqrtQ w normal = Ok (m, warnings)
    /\ Mesh.points m = w_points w
    /\ List.length (Mesh.faces m) = (List.length (indices w) - 2)%nat
    /\ (faces_area2 (proj_of (indices w) proj) (Mesh.faces m) == shoelace2 proj)%Q
    /\ Mesh.outlines_unoriented m = polygon_edges (indices w).
Proof.
  intros Hpp Hd Hnd Hlen. pose proof (planeproject_length _ _ _ _ Hpp) as Hpl.
  unfold triangulation_outline. rewrite Hpp. cbv zeta.
  destruct (scores_from_ok sqrtQ sqrtQ_nonneg sqrtQ_pos proj (List.length (indices w)) 0)
    as (scores & -> & Hsl); [lia|lia|done|].
  cbn [rbind].
  destruct (clip_spec sqrtQ sqrtQ_nonneg sqrtQ_pos (proj_of (indices w) proj)
    (List.length (indices w)) (indices w) proj scores [] 0)
    as (tris & warnings & -> & Hn & Harea & Hocc); [lia|done|done|lia|done| |].
  { intros k z p Hz Hp. by eapply assoc2_zip. }
  cbn [rbind fst snd app]. exists (mesh_of (w_points w) tris), warnings.
  split; [done|]. split; [done|]. split; [done|]. split; [done|].
  apply set_eq. intros x.
  rewrite outlines_unoriented_elem, polygon_edges_occ by done.
  specialize (Hocc x). cbn [app] in Hocc. by rewrite Hocc.
Qed.

Lemma triangulation_outline_L :
  (forall x y : Q, x == y -> sqrtQ x == sqrtQ y)%Q -> (sqrtQ 1 == 1)%Q -> (sqrtQ 4 == 2)%Q ->
  exists m, triangulation_outline sqrtQ Lwire NoNormal = Ok (m, 0%nat)
    /\ Mesh.points m = Lpoints /\ L_ok (Mesh.faces m) = true.
Proof.
  intros Hproper H1 H4.
  destruct (planeproject_L sqrtQ Hproper H1 H4) as (proj & Hpp & Hp).
  unfold triangulation_outline. rewrite Hpp. cbv zeta.
  assert (Hd : distinct2 proj).
  { apply (distinct2_eq proj Lplane Hp). by apply distinct2b_sound. }
  pose proof (Forall2_length _ _ _ Hp) as Hl.
  destruct (scores_from_class proj Lplane (List.length (indices Lwire)) 0
    [CNegInf; CPos; CPos; CNeg; CPos; CPos] Hp Hd) as (scores & -> & Hs);
    [rewrite Hl; cbn; lia|done|].
  cbn [rbind].
  destruct (explore_sound sqrtQ sqrtQ_nonneg sqrtQ_pos L_ok (List.length (indices Lwire))
    (indices Lwire) proj Lplane scores [CNegInf; CPos; CPos; CNeg; CPos; CPos] [] 0)
    as (r & -> & Hr); [by vm_compute|done|done|done|done|done|].
  cbn [rbind fst snd]. by exists (mesh_of (w_points Lwire) r).
Qed.

End Outline.

(** *** A square root for the examples *)

Lemma sqrt_red_nonneg (x : Q) : (0 <= x -> 0 <= sqrt_red x)%Q.
Proof.
  intros _. unfold sqrt_red, sqrt_exact, Qle. cbn [Qnum Qden].
  pose proof (Z.sqrt_nonneg (Qnum (Qred x) * Z.pos (Qden (Qred x)))). lia.
Qed.

Lemma sqrt_red_pos (x : Q) : (0 < x -> 0 < sqrt_red x)%Q.
Proof.
  intros Hx. rewrite <- (Qred_correct x) in Hx.
  unfold sqrt_red, sqrt_exact, Qlt in *. cbn [Qnum Qden] in *.
  assert (0 < Z.sqrt (Qnum (Qred x) * Z.pos (Qden (Qred x)))) by (apply Z.sqrt_pos; nia).
  lia.
Qed.

Lemma sqrt_red_proper (x y : Q) : (x == y -> sqrt_red x == sqrt_red y)%Q.
Proof. intros H. unfold sqrt_red. by rewrite (Qred_complete x y H). Qed.

(** X2.  Whenever [planeproject] finds a base for a wire of at
    least three pairwise different indices and gives pairwise different 2D
    points, [triangulation_outline] returns a mesh on the points of the wire
    with [len - 2] faces, whose signed 2D areas sum to the signed area of the
    projected polygon (both doubled here) and whose unoriented outline is the
    set of the edges of the polygon.  When [planeproject] raises
    [ValueError], the points being within the threshold of [guessbase], the
    result is the empty mesh.  For the L-shaped hexagon, whatever the
    rounding of the square roots other than of 1 and 4, the result has four
    triangles of total area 3, each edge an edge of the L or one of its inner
    diagonals, and no warning is printed. *)
Theorem triangulation_outline_clips (sqrtQ : Q -> Q)
    (sqrtQ_nonneg : forall x : Q, (0 <= x -> 0 <= sqrtQ x)%Q)
    (sqrtQ_pos : forall x : Q, (0 < x -> 0 < sqrtQ x)%Q) :
  (forall (w : Wire) (normal : normal_arg) (proj : list vec2),
      planeproject sqrtQ w normal = Ok proj ->
      distinct2 proj -> NoDup (indices w) -> (3 <= List.length (indices w))%nat ->
      exists m warnings,
        triangulation_outline sqrtQ w normal = Ok (m, warnings)
        /\ Mesh.points m = w_points w
        /\ List.length (Mesh.faces m) = (List.length (indices w) - 2)%nat
        /\ (faces_area2 (proj_of (indices w) proj) (Mesh.faces m) == shoelace2 proj)%Q
        /\ Mesh.outlines_unoriented m = polygon_edges (indices w))
  /\ (forall (w : Wire) (normal : normal_arg),
      planeproject sqrtQ w normal = Raise ValueError ->
      triangulation_outline sqrtQ w normal = Ok (mesh_of [] [], 0%nat))
  /\ ((forall x y : Q, x == y -> sqrtQ x == sqrtQ y)%Q ->
      (sqrtQ 1 == 1)%Q -> (sqrtQ 4 == 2)%Q ->
      exists m, triangulation_outline sqrtQ Lwire NoNormal = Ok (m, 0%nat)
        /\ Mesh.points m = Lpoints /\ L_ok (Mesh.faces m) = true).
Proof.
  split; [|split].
  - intros w normal proj. by apply triangulation_outline_spec.
  - intros w normal H. unfold triangulation_outline. by rewrite H.
  - by apply triangulation_outline_L.
Qed.

Lemma triangulation_outline_clips_witness :
  (exists proj m warnings,
      planeproject sqrt_red Lwire NoNormal = Ok proj
      /\ triangulation_outline sqrt_red Lwire NoNormal = Ok (m, warnings)
      /\ Mesh.points m = w_points Lwire
      /\ List.length (Mesh.faces m) = (List.length (indices Lwire) - 2)%nat
      /\ (faces_area2 (proj_of (indices Lwire) proj) (Mesh.faces m) == shoelace2 proj)%Q
      /\ Mesh.outlines_unoriented m = polygon_edges (indices Lwire))
  /\ triangulation_outline sqrt_red tiny NoNormal = Ok (mesh_of [] [], 0%nat)
  /\ (exists m, triangulation_outline sqrt_red Lwire NoNormal = Ok (m, 0%nat)
        /\ Mesh.points m = Lpoints /\ L_ok (Mesh.faces m) = true).
Proof.
  destruct (triangulation_outline_clips sqrt_red sqrt_red_nonneg sqrt_red_pos)
    as (Hgen & Hnone & HL).
  split; [|split].
  - assert (Hpp : exists proj, planeproject sqrt_red Lwire NoNormal = Ok proj
                              /\ distinct2b proj = true).
    { vm_compute. eexists. split; [reflexivity|]. vm_compute. reflexivity. }
    destruct Hpp as (proj & Hpp & Hd). exists proj.
    destruct (Hgen Lwire NoNormal proj Hpp) as (m & warnings & H);
      [by apply distinct2b_sound|apply (bool_decide_unpack (NoDup (indices Lwire))); by vm_compute|cbn; lia|].
    exists m, warnings. split; [exact Hpp|exact H].
  - apply Hnone. by vm_compute.
  - apply HL; [exact sqrt_red_proper|by vm_compute|by vm_compute].
Defined.

(** a triangle whose sides are below the threshold of [guessbase]: the
    result has no face, although the polygon has a non-null area and three
    edges *)
Lemma triangulation_outline_tiny_empty :
  exists m, triangulation_outline sqrt_red tiny NoNormal = Ok (m, 0%nat)
    /\ Mesh.faces m = []
    /\ (forall P, ~ (faces_area2 P (Mesh.faces m) == shoelace2 (flat (w_points tiny)))%Q)
    /\ Mesh.outlines_unoriented m <> polygon_edges (indices tiny).
Proof.
  exists (mesh_of [] []). split; [by vm_compute|]. split; [done|]. split.
  - intros P. by vm_compute.
  - intros H. assert (Hin : (0, 1) ∈ polygon_edges (indices tiny)) by (by vm_compute).
    rewrite <- H in Hin. revert Hin. by vm_compute.
Qed.

End TriangulationFacts.

(** * Properties of the further functions *)

Module ConnectivityFacts.
Import Mesh Connectivity.

(** [edgekey] gives the same key to the two directions of an edge, the
    key is ordered, and two couples have the same key only when they join
    the same two points. *)
Theorem edgekey_unordered (a b a' b' : Z) :
  edgekey a b = edgekey b a
  /\ (edgekey a b).1 <= (edgekey a b).2
  /\ (edgekey a b = edgekey a' b' <-> (a = a' /\ b = b') \/ (a = b' /\ b = a')).
Proof.
  split; [|split].
  - apply TriangulationFacts.edgekey_sym.
  - unfold edgekey. destruct (Z.ltb_spec a b); cbn; lia.
  - split; [apply TriangulationFacts.edgekey_inj|].
    intros [[-> ->]|[-> ->]]; [done|apply TriangulationFacts.edgekey_sym].
Qed.

(** X3.  [arrangeface(f, p)] is a rotation of [f], so it keeps the
    orientation, and it starts with [p] whenever [p] is a corner of [f];
    [arrangeedge(e, p)] is [e] or its reverse and starts with [p] whenever
    [p] is an end of [e]. *)
Theorem arrangeface_rotates (f : face) (e : edge) (p : Z) :
  arrangeface f p ∈ rotations f
  /\ (p = f.1.1 \/ p = f.1.2 \/ p = f.2 -> (arrangeface f p).1.1 = p)
  /\ (arrangeedge e p = e \/ arrangeedge e p = rev_edge e)
  /\ (p = e.1 \/ p = e.2 -> (arrangeedge e p).1 = p).
Proof.
  destruct f as [[a b] c], e as [x y]. unfold arrangeface, arrangeedge, rotations, rev_edge.
  cbn [fst snd].
  destruct (Z.eqb_spec p b), (Z.eqb_spec p c), (Z.eqb_spec p y); subst;
    cbn [fst snd]; (split; [set_solver|]); (split; [intuition congruence|]);
    (split; [tauto|]); intuition congruence.
Qed.

(** X4.  [facekeyo(a,b,c)] is a rotation of [(a,b,c)].  When the face reads
    increasing from its least corner, its three rotations get the same key,
    that starts with the least corner; otherwise ([a < c < b]) they get two
    different keys. *)
Theorem facekeyo_rotates (a b c : Z) :
  facekeyo a b c ∈ rotations (a, b, c)
  /\ (a < b < c ->
      facekeyo a b c = (a, b, c) /\ facekeyo b c a = (a, b, c) /\ facekeyo c a b = (a, b, c))
  /\ (a < c < b ->
      facekeyo a b c = (c, a, b) /\ facekeyo b c a = (c, a, b) /\ facekeyo c a b = (a, b, c)).
Proof.
  unfold facekeyo, rotations. split; [|split].
  - destruct (Z.ltb_spec a b), (Z.ltb_spec b c); cbn [andb]; set_solver.
  - intros H.
    destruct (Z.ltb_spec a b), (Z.ltb_spec b c), (Z.ltb_spec c a); cbn [andb]; try lia; done.
  - intros H.
    destruct (Z.ltb_spec a b), (Z.ltb_spec b c), (Z.ltb_spec c a); cbn [andb]; try lia; done.
Qed.

Lemma facekeyo_rotates_witness :
  (facekeyo 1 2 3 = (1, 2, 3) /\ facekeyo 2 3 1 = (1, 2, 3) /\ facekeyo 3 1 2 = (1, 2, 3))
  /\ (facekeyo 1 3 2 = (2, 1, 3) /\ facekeyo 3 2 1 = (2, 1, 3) /\ facekeyo 2 1 3 = (1, 3, 2)).
Proof.
  split.
  - apply (proj1 (proj2 (facekeyo_rotates 1 2 3))). lia.
  - apply (proj2 (proj2 (facekeyo_rotates 1 3 2))). lia.
Defined.

(** *** Counting the links of a point *)

Lemma connexity_flat (links : list (list Z)) (reach : gmap Z nat) :
  fold_left (fun reach l => fold_left connexity_step l reach) links reach
  = fold_left connexity_step (concat links) reach.
Proof.
  revert reach. induction links as [|l links IH]; intros reach; [done|].
  cbn [fold_left concat]. by rewrite IH, fold_left_app.
Qed.

Lemma connexity_count (l : list Z) (reach : gmap Z nat) (p : Z) :
  default 0%nat (fold_left connexity_step l reach !! p)
  = (count_occ Z.eq_dec l p + default 0%nat (reach !! p))%nat
  /\ (fold_left connexity_step l reach !! p = None <->
      reach !! p = None /\ count_occ Z.eq_dec l p = 0%nat).
Proof.
  revert reach. induction l as [|x l IH]; intros reach; [cbn; tauto|].
  cbn [fold_left count_occ]. destruct (IH (connexity_step reach x)) as [IH1 IH2].
  rewrite IH1, IH2. unfold connexity_step.
  destruct (Z.eq_dec x p) as [->|Hne].
  - rewrite lookup_insert_eq. split; [cbn; lia|]. split; [by intros []|by intros []].
  - rewrite lookup_insert_ne by done. split; [done|]. tauto.
Qed.

(** X5.  [connexity(links)] maps each point to the number of times the
    links name it, and holds no entry for a point that no link names. *)
Theorem connexity_counts (links : list (list Z)) (p : Z) :
  connexity links !! p =
    (let n := count_occ Z.eq_dec (concat links) p in
     if (n =? 0)%nat then None else Some n).
Proof.
  unfold connexity. change (fun reach p => <[ p := S (default 0%nat (reach !! p)) ]> reach)
    with connexity_step.
  rewrite connexity_flat. cbv zeta.
  destruct (connexity_count (concat links) ∅ p) as [H1 H2].
  rewrite lookup_empty in H1, H2. cbn [default] in H1. rewrite Nat.add_0_r in H1.
  destruct (fold_left connexity_step (concat links) ∅ !! p) as [n|].
  - cbn in H1. subst n.
    destruct (Nat.eqb_spec (count_occ Z.eq_dec (concat links) p) 0) as [E0|]; [|done].
    by destruct (proj2 H2 (conj eq_refl E0)).
  - destruct (proj1 H2 eq_refl) as [_ ->]. done.
Qed.

(** *** Point to point connectivity *)

Lemma connpp_link_spec (conn : gmap Z (list Z)) (a b : Z) :
  tidy conn ->
  tidy (connpp_link conn a b)
  /\ forall x y, linked (connpp_link conn a b) x y <-> linked conn x y \/ (x = a /\ y = b).
Proof.
  intros Ht. unfold connpp_link. destruct (conn !! a) as [l|] eqn:E.
  - destruct (bool_decide_reflect (b ∈ l)) as [Hb|Hb].
    + split; [done|]. intros x y. split; [tauto|]. intros [H|[-> ->]]; [done|]. by exists l.
    + split.
      * intros x k. destruct (decide (x = a)) as [->|Hne].
        -- rewrite lookup_insert_eq. intros [= <-]. apply NoDup_app.
           split; [by eapply Ht|]. split; [|apply NoDup_singleton].
           intros z Hz Hz'. apply list_elem_of_singleton in Hz'. by subst.
        -- rewrite lookup_insert_ne by done. apply Ht.
      * intros x y. unfold linked. destruct (decide (x = a)) as [->|Hne].
        -- rewrite lookup_insert_eq, E. split.
           ++ intros (k & [= <-] & Hy). apply elem_of_app in Hy as [Hy|Hy%list_elem_of_singleton];
                [left; eauto|right; done].
           ++ intros [(k & [= <-] & Hy)|[_ ->]]; eexists; (split; [done|]); set_solver.
        -- rewrite lookup_insert_ne by done. split; [tauto|]. intros [H|[? _]]; done.
  - split.
    + intros x k. destruct (decide (x = a)) as [->|Hne].
      * rewrite lookup_insert_eq. intros [= <-]. apply NoDup_singleton.
      * rewrite lookup_insert_ne by done. apply Ht.
    + intros x y. unfold linked. destruct (decide (x = a)) as [->|Hne].
      * rewrite lookup_insert_eq, E. split.
        -- intros (k & [= <-] & Hy%list_elem_of_singleton). by right.
        -- intros [(k & [=] & _)|[_ ->]]. exists [b]. split; [done|set_solver].
      * rewrite lookup_insert_ne by done. split; [tauto|]. intros [H|[? _]]; done.
Qed.

Lemma connpp_pairs_spec (ps : list (Z * Z)) (conn : gmap Z (list Z)) :
  tidy conn ->
  let conn' := fold_left (fun c p => connpp_link (connpp_link c p.1 p.2) p.2 p.1) ps conn in
  tidy conn'
  /\ forall x y, linked conn' x y <-> linked conn x y \/ (x, y) ∈ ps \/ (y, x) ∈ ps.
Proof.
  revert conn. induction ps as [|[a b] ps IH]; intros conn Ht; cbn [fold_left fst snd].
  - split; [done|]. intros x y. set_solver.
  - destruct (connpp_link_spec conn a b Ht) as [Ht1 H1].
    destruct (connpp_link_spec _ b a Ht1) as [Ht2 H2].
    destruct (IH _ Ht2) as [Ht3 H3]. split; [done|].
    intros x y. rewrite H3, H2, H1. rewrite !elem_of_cons.
    split; [intros [[[H|[-> ->]]|[-> ->]]|[H|H]]; tauto|].
    intros [H|[[[= -> ->]|H]|[[= -> ->]|H]]]; tauto.
Qed.

(** X6.  In the dictionary of [connpp(ngons)] no neighbour is listed twice,
    and [b] is listed for [a] exactly when they follow each other, in either
    order and cyclically, in one of the n-gons; so the relation is
    symmetric. *)
Theorem connpp_neighbours (ngons : list (list Z)) :
  (forall a l, connpp ngons !! a = Some l -> NoDup l)
  /\ (forall a b, linked (connpp ngons) a b <->
        exists loop, loop ∈ ngons /\ ((a, b) ∈ loop_pairs loop \/ (b, a) ∈ loop_pairs loop))
  /\ (forall a b, linked (connpp ngons) a b -> linked (connpp ngons) b a).
Proof.
  assert (H : forall conn, tidy conn ->
    tidy (fold_left connpp_loop ngons conn)
    /\ forall a b, linked (fold_left connpp_loop ngons conn) a b <->
         linked conn a b \/
         exists loop, loop ∈ ngons /\ ((a, b) ∈ loop_pairs loop \/ (b, a) ∈ loop_pairs loop)).
  { induction ngons as [|loop ngons IH]; intros conn Ht; cbn [fold_left].
    - split; [done|]. intros a b. split; [tauto|]. intros [H|(loop & H & _)]; [done|].
      by apply elem_of_nil in H.
    - destruct (connpp_pairs_spec (loop_pairs loop) conn Ht) as [Ht1 H1].
      destruct (IH _ Ht1) as [Ht2 H2]. split; [done|].
      intros a b. rewrite H2. unfold connpp_loop. rewrite H1. split.
      + intros [[H|H]|(l & Hl & H)]; [tauto| |].
        * right. exists loop. split; [left|done].
        * right. exists l. split; [by right|done].
      + intros [H|(l & Hl & H)]; [tauto|].
        apply elem_of_cons in Hl as [->|Hl]; [tauto|]. right. by exists l. }
  destruct (H ∅) as [Ht Hl]; [by intros a l; rewrite lookup_empty|].
  assert (Hl' : forall a b, linked (connpp ngons) a b <->
    exists loop, loop ∈ ngons /\ ((a, b) ∈ loop_pairs loop \/ (b, a) ∈ loop_pairs loop)).
  { intros a b. unfold connpp. rewrite Hl. split; [|tauto].
    intros [(l & E & _)|H0]; [by rewrite lookup_empty in E|done]. }
  split; [exact Ht|]. split; [exact Hl'|].
  intros a b. rewrite !Hl'. intros (loop & H1 & H2). exists loop. tauto.
Qed.

(** *** Successive couples of a line *)

Lemma last_cons_default (x d d' : Z) (l : list Z) : List.last (x :: l) d = List.last (x :: l) d'.
Proof. revert x. induction l as [|y l IH]; intros x; [done|]. apply (IH y). Qed.

Lemma lineedges_loop_spec (j : Z) (rest : list Z) :
  (lineedges_loop j rest).1 = Triangulation.path_pairs (j :: rest)
  /\ (lineedges_loop j rest).2 = List.last rest j.
Proof.
  revert j. induction rest as [|i rest IH]; intros j; [done|].
  cbn [lineedges_loop fst snd]. destruct (IH i) as [-> ->].
  split; [reflexivity|]. destruct rest as [|z rest]; [reflexivity|].
  apply (last_cons_default z i j rest).
Qed.

(** X7.  [lineedges(line)] yields the [len - 1] couples of successive points
    of a line of at least one point; with [closed=True] it then yields the
    couple from the last point to the first one, except on a single point,
    where it raises [UnboundLocalError] after yielding nothing. *)
Theorem lineedges_couples (first : Z) (rest : list Z) :
  lineedges first rest false = (Triangulation.path_pairs (first :: rest), Ok tt)
  /\ length (lineedges first rest false).1 = length rest
  /\ (rest <> [] ->
      lineedges first rest true
      = (Triangulation.path_pairs (first :: rest) ++ [(List.last rest first, first)], Ok tt))
  /\ lineedges first [] true = ([], Raise UnboundLocalError)
  /\ forall k x y, (lineedges first rest false).1 !! k = Some (x, y) <->
       (first :: rest) !! k = Some x /\ (first :: rest) !! S k = Some y.
Proof.
  unfold lineedges. destruct (lineedges_loop_spec first rest) as [E1 E2].
  rewrite E1, E2. cbn [fst snd]. split; [done|]. split.
  { clear. revert first. induction rest as [|i rest IH]; intros first; [done|].
    change (Triangulation.path_pairs (first :: i :: rest))
      with ((first, i) :: Triangulation.path_pairs (i :: rest)).
    cbn [length]. by rewrite IH. }
  split; [by destruct rest|]. split; [done|].
  intros k x y. apply TriangulationFacts.path_pairs_lookup.
Qed.

Lemma lineedges_couples_witness :
  lineedges 4 [7; 9] true = ([(4, 7); (7, 9); (9, 4)], Ok tt).
Proof.
  apply (proj1 (proj2 (proj2 (lineedges_couples 4 [7; 9])))). done.
Defined.

(** *** Oriented edge to face *)

Lemma connef_face_lookup (conn : gmap edge nat) (i : nat) (f : face) (e : edge) :
  connef_face conn i f !! e = if bool_decide (e ∈ face_edges f) then Some i else conn !! e.
Proof.
  destruct f as [[a b] c]. unfold connef_face, face_edges. cbn [fold_left].
  destruct (decide (e = (c, a))) as [->|H3].
  { rewrite lookup_insert_eq. rewrite bool_decide_eq_true_2; [done|set_solver]. }
  rewrite lookup_insert_ne by done.
  destruct (decide (e = (b, c))) as [->|H2].
  { rewrite lookup_insert_eq. rewrite bool_decide_eq_true_2; [done|set_solver]. }
  rewrite lookup_insert_ne by done.
  destruct (decide (e = (a, b))) as [->|H1].
  { rewrite lookup_insert_eq. rewrite bool_decide_eq_true_2; [done|set_solver]. }
  rewrite lookup_insert_ne by done.
  rewrite bool_decide_eq_false_2; [done|set_solver].
Qed.

Lemma connef_from_lookup (fs : list face) (conn : gmap edge nat) (i : nat) (e : edge) (k : nat) :
  connef_from conn i fs !! e = Some k <->
    (exists j f, k = (i + j)%nat /\ fs !! j = Some f /\ e ∈ face_edges f
       /\ forall j' f', (j < j')%nat -> fs !! j' = Some f' -> e ∉ face_edges f')
    \/ (conn !! e = Some k /\ forall j f, fs !! j = Some f -> e ∉ face_edges f).
Proof.
  revert conn i. induction fs as [|f0 fs IH]; intros conn i.
  - cbn [connef_from]. split; [intros H; right; split; [done|by intros j f]|].
    intros [(j & f & _ & H & _)|[H _]]; done.
  - cbn [connef_from]. rewrite IH, connef_face_lookup. split.
    + intros [(j & f & -> & Hj & He & Hlast)|[Hc Hno]].
      * left. exists (S j), f. split; [lia|]. split; [done|]. split; [done|].
        intros [|j'] f' Hlt Hf'; [lia|]. apply (Hlast j' f'); [lia|done].
      * destruct (bool_decide_reflect (e ∈ face_edges f0)) as [He|He].
        -- injection Hc as <-. left. exists 0%nat, f0. split; [lia|]. split; [done|].
           split; [done|]. intros [|j'] f' Hlt Hf'; [lia|]. by apply (Hno j' f').
        -- right. split; [done|]. intros [|j] f Hf; [by injection Hf as <-|]. by apply (Hno j f).
    + intros [(j & f & -> & Hj & He & Hlast)|[Hc Hno]].
      * destruct j as [|j].
        -- injection Hj as ->. right. rewrite bool_decide_eq_true_2 by done.
           split; [f_equal; lia|]. intros j f' Hf'. apply (Hlast (S j) f'); [lia|done].
        -- left. exists j, f. split; [lia|]. split; [done|]. split; [done|].
           intros j' f' Hlt Hf'. apply (Hlast (S j') f'); [lia|done].
      * right. rewrite bool_decide_eq_false_2 by (by apply (Hno 0%nat f0)).
        split; [done|]. intros j f Hf. by apply (Hno (S j) f).
Qed.

Lemma connef_from_is_Some (fs : list face) (conn : gmap edge nat) (i : nat) (e : edge) :
  is_Some (connef_from conn i fs !! e) <->
    is_Some (conn !! e) \/ exists j f, fs !! j = Some f /\ e ∈ face_edges f.
Proof.
  revert conn i. induction fs as [|f0 fs IH]; intros conn i; cbn [connef_from].
  - split; [tauto|]. intros [H|(j & f & H & _)]; done.
  - rewrite IH, connef_face_lookup. split.
    + intros [H|(j & f & Hj & He)].
      * destruct (bool_decide_reflect (e ∈ face_edges f0)); [|tauto].
        right. by exists 0%nat, f0.
      * right. by exists (S j), f.
    + intros [H|([|j] & f & Hj & He)].
      * left. by destruct (bool_decide (e ∈ face_edges f0)).
      * injection Hj as ->. left. by rewrite bool_decide_eq_true_2.
      * right. by exists j, f.
Qed.

(** X8.  [connef(faces)] maps an oriented edge to the position of the last
    face that has it, and holds no entry for the other couples; on a mesh
    that [issurface] accepts, the face that has an edge is the only one. *)
Theorem connef_last_face (fs : list face) (e : edge) (k : nat) :
  (connef fs !! e = Some k <->
     exists f, fs !! k = Some f /\ e ∈ face_edges f
       /\ forall j' f', (k < j')%nat -> fs !! j' = Some f' -> e ∉ face_edges f')
  /\ (connef fs !! e = None <-> forall j f, fs !! j = Some f -> e ∉ face_edges f)
  /\ (forall m, faces m = fs -> issurface m = true ->
      forall f, fs !! k = Some f -> e ∈ face_edges f -> connef fs !! e = Some k).
Proof.
  assert (H1 : forall k, connef fs !! e = Some k <->
     exists f, fs !! k = Some f /\ e ∈ face_edges f
       /\ forall j' f', (k < j')%nat -> fs !! j' = Some f' -> e ∉ face_edges f').
  { intros k'. unfold connef. rewrite connef_from_lookup. split.
    - intros [(j & f & -> & H)|[H _]]; [by exists f|by rewrite lookup_empty in H].
    - intros (f & H). left. by exists k', f. }
  split; [apply H1|]. split.
  - rewrite eq_None_not_Some. unfold connef. rewrite connef_from_is_Some.
    split.
    + intros Hn j f Hj He. apply Hn. right. by exists j, f.
    + intros Hno [[x Hx]|(j & f & Hj & He)]; [by rewrite lookup_empty in Hx|].
      by apply (Hno j f).
  - intros m <- Hs f Hk He. apply H1. exists f. split; [done|]. split; [done|].
    intros j' f' Hlt Hj' He'.
    apply MeshFacts.issurface_NoDup in Hs. unfold edges_oriented in Hs.
    pose proof (take_drop_middle _ _ _ Hj') as E.
    assert (Hk' : take j' (faces m) !! k = Some f) by (by rewrite lookup_take_lt).
    rewrite <- E in Hs. rewrite map_app, concat_app in Hs. cbn [map concat] in Hs.
    apply NoDup_app in Hs as (_ & Hs & _). apply (Hs e).
    + apply list_elem_of_In, in_concat. exists (face_edges f). split; [|by apply list_elem_of_In].
      apply in_map, list_elem_of_In. by eapply list_elem_of_lookup_2.
    + apply elem_of_app. by left.
Qed.

End ConnectivityFacts.

Module MathutilsFacts.
Import Vec Mathutils.

(** X9.  [interpol1] and [interpol2] take the value of [a] at 0 and of [b]
    at 1; [interpol2] is unchanged when the ends are exchanged and [x]
    replaced by [1-x], and it is the straight line from [a] to [b] when the
    derivative given at each end is the chord towards the other end. *)
Theorem interpol_ends (a b : Q * Q) (x : Q) :
  (interpol1 a.1 b.1 0 == a.1 /\ interpol1 a.1 b.1 1 == b.1
   /\ interpol2 a b 0 == a.1 /\ interpol2 a b 1 == b.1
   /\ interpol2 a b x == interpol2 b a (1 - x)
   /\ interpol2 (a.1, b.1 - a.1) (b.1, a.1 - b.1) x == interpol1 a.1 b.1 x)%Q.
Proof.
  destruct a as [a0 a1], b as [b0 b1]. unfold interpol2, interpol1. cbn [fst snd].
  repeat split; ring.
Qed.

Lemma Qlt_bool_false (x y : Q) : Hashing.Qlt_bool x y = false <-> (y <= x)%Q.
Proof.
  unfold Hashing.Qlt_bool. rewrite negb_false_iff. apply Qle_bool_iff.
Qed.

Lemma Qlt_bool_true (x y : Q) : Hashing.Qlt_bool x y = true <-> (x < y)%Q.
Proof.
  unfold Hashing.Qlt_bool. rewrite negb_true_iff. rewrite <- not_true_iff_false, Qle_bool_iff.
  split; [apply Qnot_le_lt|apply Qlt_not_le].
Qed.

Lemma ivmax_spec (v : vec3) (j : nat) :
  (ivmax v < 3)%nat
  /\ (vget v j <= vget v (ivmax v))%Q
  /\ ((j < ivmax v)%nat -> (vget v j < vget v (ivmax v))%Q).
Proof.
  destruct v as [[x y] z]. unfold ivmax. cbv zeta.
  assert (Hj : vget (x, y, z) j = x \/ vget (x, y, z) j = y \/ vget (x, y, z) j = z).
  { destruct j as [|[|j]]; cbn; tauto. }
  destruct (Hashing.Qlt_bool (vget (x, y, z) 0) (vget (x, y, z) 1)) eqn:E1;
    [apply Qlt_bool_true in E1|apply Qlt_bool_false in E1];
    match goal with |- context [Hashing.Qlt_bool ?a ?b] =>
      destruct (Hashing.Qlt_bool a b) eqn:E2;
        [apply Qlt_bool_true in E2|apply Qlt_bool_false in E2] end;
    cbn [vget vx vy vz fst snd] in *;
    (split; [lia|]); (split; [destruct Hj as [->|[-> | ->]]; lra|]);
    destruct j as [|[|j]]; cbn [vget vx vy vz fst snd]; intros; try lia; lra.
Qed.

(** [ivmax(v)] is the first index of a greatest coordinate of [v]. *)
Theorem ivmax_greatest (v : vec3) (j : nat) :
  (ivmax v < 3)%nat
  /\ (vget v j <= vget v (ivmax v))%Q
  /\ ((j < ivmax v)%nat -> (vget v j < vget v (ivmax v))%Q).
Proof. apply ivmax_spec. Qed.

Lemma ivmax_greatest_witness :
  (vget (1, 5, 5)%Q 0 < vget (1, 5, 5)%Q (ivmax (1, 5, 5)%Q))%Q /\ ivmax (1, 5, 5)%Q = 1%nat.
Proof.
  split; [|reflexivity].
  apply (proj2 (proj2 (ivmax_greatest (1, 5, 5)%Q 0))). vm_compute. lia.
Defined.

(** X10.  [ivsort(v)] is a permutation of the three indices that lists the
    coordinates of [v] in decreasing order. *)
Theorem ivsort_decreasing (v : vec3) :
  let '(i, j, k) := ivsort v in
  [i; j; k] ≡ₚ [0; 1; 2]%nat
  /\ (vget v k <= vget v j)%Q /\ (vget v j <= vget v i)%Q.
Proof.
  unfold ivsort. cbv zeta.
  pose proof (ivmax_spec v) as Hmax.
  assert (Hi : ivmax v = 0%nat \/ ivmax v = 1%nat \/ ivmax v = 2%nat).
  { destruct (Hmax 0%nat) as [H _]. lia. }
  destruct Hi as [Hi|[Hi|Hi]]; rewrite Hi in *;
    cbn [Nat.modulo Nat.add Nat.sub Nat.divmod fst snd];
    match goal with |- context [Hashing.Qlt_bool ?a ?b] =>
      destruct (Hashing.Qlt_bool a b) eqn:E2;
        [apply Qlt_bool_true in E2|apply Qlt_bool_false in E2] end;
    (split; [|split; [lra|apply Hmax]]).
  all: by apply (bool_decide_unpack _); vm_compute.
Qed.

End MathutilsFacts.

Module BoxFacts.
Import Vec Box.

Lemma contains_iff (b : Box.t) (p : vec3) :
  contains b p <->
  ((vx (bmin b) <= vx p <= vx (bmax b)) /\ (vy (bmin b) <= vy p <= vy (bmax b))
   /\ (vz (bmin b) <= vz p <= vz (bmax b)))%Q.
Proof.
  unfold contains. split.
  - intros H. pose proof (H 0%nat ltac:(lia)). pose proof (H 1%nat ltac:(lia)).
    pose proof (H 2%nat ltac:(lia)). cbn [vget] in *. tauto.
  - intros (H0 & H1 & H2) [|[|[|i]]] Hi; cbn [vget]; try done; lia.
Qed.

Lemma Qmin_le_iff (x y z : Q) : (Qmin x y <= z <-> x <= z \/ y <= z)%Q.
Proof.
  destruct (Q.min_spec x y) as [[H ->]|[H ->]]; split; intros; try tauto; destruct H0; lra.
Qed.

Lemma Qmax_le_iff (x y z : Q) : (z <= Qmax x y <-> z <= x \/ z <= y)%Q.
Proof.
  destruct (Q.max_spec x y) as [[H ->]|[H ->]]; split; intros; try tauto; destruct H0; lra.
Qed.

Lemma Qmin_glb_iff (x y z : Q) : (z <= Qmin x y <-> z <= x /\ z <= y)%Q.
Proof.
  destruct (Q.min_spec x y) as [[H ->]|[H ->]]; split; intros; try tauto; try split; lra.
Qed.

Lemma Qmax_lub_iff (x y z : Q) : (Qmax x y <= z <-> x <= z /\ y <= z)%Q.
Proof.
  destruct (Q.max_spec x y) as [[H ->]|[H ->]]; split; intros; try tauto; try split; lra.
Qed.

(** X11.  [Box.union] gives the least box that holds both boxes: it holds
    every point of either, and any box holding the corners of both holds its
    corners.  With a point, it holds the point and what the box held. *)
Theorem union_least (b other c : Box.t) (p q : vec3) :
  (contains b p \/ contains other p -> contains (union b other) p)
  /\ (contains c (bmin b) -> contains c (bmax b) ->
      contains c (bmin other) -> contains c (bmax other) ->
      contains c (bmin (union b other)) /\ contains c (bmax (union b other)))
  /\ (contains (union_point b q) q)
  /\ (contains b p -> contains (union_point b q) p).
Proof.
  rewrite !contains_iff. unfold union, union_point, vmin, vmax.
  cbn [bmin bmax vx vy vz fst snd].
  rewrite !Qmin_le_iff, !Qmax_le_iff, !Qmin_glb_iff, !Qmax_lub_iff.
  split; [|split; [|split]].
  - intros [H|H]; tauto.
  - intros H1 H2 H3 H4.
    repeat match goal with |- context [Qmin ?x ?y] =>
      destruct (Q.min_spec x y) as [[? ->]|[? ->]] end;
    repeat match goal with |- context [Qmax ?x ?y] =>
      destruct (Q.max_spec x y) as [[? ->]|[? ->]] end; tauto.
  - repeat split; (right; lra) || lra.
  - tauto.
Qed.

Lemma collapse_id (b : Box.t) :
  (forall i, (i < 3)%nat -> (vget (bmin b) i <= vget (bmax b) i)%Q) ->
  collapse [0; 1; 2]%nat b = b.
Proof.
  intros H. unfold collapse.
  rewrite !(proj2 (MathutilsFacts.Qlt_bool_false _ _)); [done|apply H; lia..].
Qed.

Lemma vget_vset (p : vec3) (i : nat) (x : Q) : (i < 3)%nat -> vget (vset p i x) i = x.
Proof. destruct i as [|[|[|i]]]; cbn; intros; try done; lia. Qed.

Lemma collapse_flat (b : Box.t) (i : nat) :
  (i < 3)%nat -> (vget (bmax b) i < vget (bmin b) i)%Q ->
  exists j, (j < 3)%nat /\ vget (bmin (collapse [0; 1; 2]%nat b)) j = vget (bmax (collapse [0; 1; 2]%nat b)) j.
Proof.
  intros Hi Hlt. unfold collapse.
  destruct (Hashing.Qlt_bool (vget (bmax b) 0) (vget (bmin b) 0)) eqn:E0.
  { exists 0%nat. cbn [bmin bmax]. split; [lia|]. by rewrite !vget_vset by lia. }
  destruct (Hashing.Qlt_bool (vget (bmax b) 1) (vget (bmin b) 1)) eqn:E1.
  { exists 1%nat. cbn [bmin bmax]. split; [lia|]. by rewrite !vget_vset by lia. }
  destruct (Hashing.Qlt_bool (vget (bmax b) 2) (vget (bmin b) 2)) eqn:E2.
  { exists 2%nat. cbn [bmin bmax]. split; [lia|]. by rewrite !vget_vset by lia. }
  apply MathutilsFacts.Qlt_bool_false in E0, E1, E2.
  destruct i as [|[|[|i]]]; try lia; lra.
Qed.



End BoxFacts.

Module VectorFacts.
Import Vec Triangulation.

Lemma dot_vscale_r (k : Q) (p q : vec3) : (dot p (vscale k q) == k * dot p q)%Q.
Proof. destruct p as [[? ?] ?], q as [[? ?] ?]. unfold dot, vscale. cbn [vx vy vz fst snd]. ring. Qed.

Lemma dot_vsub_l (p q r : vec3) : (dot (vsub p q) r == dot p r - dot q r)%Q.
Proof.
  destruct p as [[? ?] ?], q as [[? ?] ?], r as [[? ?] ?].
  unfold dot, vsub. cbn [vx vy vz fst snd]. ring.
Qed.

Lemma dot_comm (p q : vec3) : (dot p q == dot q p)%Q.
Proof. destruct p as [[? ?] ?], q as [[? ?] ?]. unfold dot. cbn [vx vy vz fst snd]. ring. Qed.

Lemma dot_cross_l (p q : vec3) : (dot (cross p q) p == 0)%Q.
Proof. destruct p as [[? ?] ?], q as [[? ?] ?]. unfold dot, cross. cbn [vx vy vz fst snd]. ring. Qed.

Lemma dot_cross_r (p q : vec3) : (dot (cross p q) q == 0)%Q.
Proof. destruct p as [[? ?] ?], q as [[? ?] ?]. unfold dot, cross. cbn [vx vy vz fst snd]. ring. Qed.

Lemma noproject_dot (x dir : vec3) :
  (dot dir dir == 1)%Q -> (dot (noproject x dir) dir == 0)%Q.
Proof.
  intros Hd. destruct x as [[x1 x2] x3], dir as [[d1 d2] d3].
  unfold noproject, project, vsub, vscale, dot in *. cbn [vx vy vz fst snd] in *.
  set (s := (x1 * d1 + x2 * d2 + x3 * d3)%Q) in *.
  transitivity (s - s * (d1 * d1 + d2 * d2 + d3 * d3))%Q; [unfold s; ring|].
  rewrite Hd. ring.
Qed.

(** X13.  For a direction of unit length, [noproject(x, dir)] is orthogonal
    to [dir], [project] and [noproject] add up to [x], and projecting twice
    is projecting once. *)
Theorem noproject_orthogonal (x dir : vec3) :
  (dot dir dir == 1)%Q ->
  (dot (noproject x dir) dir == 0)%Q
  /\ vec3_eq (vadd (project x dir) (noproject x dir)) x
  /\ vec3_eq (project (project x dir) dir) (project x dir)
  /\ vec3_eq (noproject (noproject x dir) dir) (noproject x dir).
Proof.
  intros Hd. destruct x as [[x1 x2] x3], dir as [[d1 d2] d3].
  unfold noproject, project, vec3_eq, vadd, vsub, vscale, dot in *. cbn [vx vy vz fst snd] in *.
  set (s := (x1 * d1 + x2 * d2 + x3 * d3)%Q) in *.
  split; [|split; [|split]].
  - transitivity (s - s * (d1 * d1 + d2 * d2 + d3 * d3))%Q; [unfold s; ring|].
    rewrite Hd. ring.
  - repeat split; ring.
  - assert (E : (s * d1 * d1 + s * d2 * d2 + s * d3 * d3 == s)%Q).
    { transitivity (s * (d1 * d1 + d2 * d2 + d3 * d3))%Q; [ring|]. rewrite Hd. ring. }
    repeat split; rewrite E; reflexivity.
  - assert (E : ((x1 - s * d1) * d1 + (x2 - s * d2) * d2 + (x3 - s * d3) * d3 == 0)%Q).
    { transitivity (s - s * (d1 * d1 + d2 * d2 + d3 * d3))%Q; [unfold s; ring|].
      rewrite Hd. ring. }
    repeat split; rewrite E; ring.
Qed.

Lemma noproject_orthogonal_witness :
  (dot (noproject (3, 4, 5)%Q (0, 0, 1)%Q) (0, 0, 1)%Q == 0)%Q.
Proof.
  apply (proj1 (noproject_orthogonal (3, 4, 5)%Q (0, 0, 1)%Q ltac:(by vm_compute))).
Defined.

(** X14.  [dirbase(dir)] returns [dir] as its third vector; for a direction
    of unit length the two others are orthogonal to it and to each other,
    whatever the rounding of the square root. *)
Theorem dirbase_orthogonal (sqrtQ : Q -> Q) (dir : vec3) :
  (dot dir dir == 1)%Q ->
  let '(x, y, z) := dirbase sqrtQ dir in
  z = dir /\ (dot x dir == 0)%Q /\ (dot y dir == 0)%Q /\ (dot y x == 0)%Q.
Proof.
  intros Hd. unfold dirbase. cbv zeta.
  match goal with |- context [unit_vec sqrtQ ?v] => set (x0 := v) end.
  assert (Hx0 : (dot x0 dir == 0)%Q).
  { unfold x0. destruct (Hashing.Qlt_bool _ _);
      apply (noproject_dot _ dir Hd). }
  split; [done|]. split; [|split].
  - unfold unit_vec. rewrite dot_comm, dot_vscale_r, dot_comm, Hx0. ring.
  - apply dot_cross_l.
  - apply dot_cross_r.
Qed.

Lemma dirbase_orthogonal_witness :
  let '(x, y, z) := dirbase sqrt_exact (0, 0, 1)%Q in
  z = (0, 0, 1)%Q /\ (dot x (0, 0, 1)%Q == 0)%Q /\ (dot y (0, 0, 1)%Q == 0)%Q /\ (dot y x == 0)%Q.
Proof.
  apply (dirbase_orthogonal sqrt_exact (0, 0, 1)%Q). by vm_compute.
Defined.

(** *** The greatest coordinate *)

Lemma maxnum_step_spec (m v : Q) :
  let m' := if Hashing.Qlt_bool m (Qabs v) then Qabs v else m in
  (m <= m')%Q /\ (Qabs v <= m')%Q /\ (m' = m \/ m' = Qabs v).
Proof.
  cbv zeta. destruct (Hashing.Qlt_bool m (Qabs v)) eqn:E.
  - apply MathutilsFacts.Qlt_bool_true in E. split; [lra|]. split; [lra|tauto].
  - apply MathutilsFacts.Qlt_bool_false in E. split; [lra|]. split; [lra|tauto].
Qed.

Lemma maxnum_flat (pts : list vec3) (m : Q) :
  fold_left (fun m p =>
    fold_left (fun m v => if Hashing.Qlt_bool m (Qabs v) then Qabs v else m)
              [vx p; vy p; vz p] m) pts m
  = fold_left (fun m v => if Hashing.Qlt_bool m (Qabs v) then Qabs v else m) (Mathutils.coords pts) m.
Proof.
  revert m. induction pts as [|p pts IH]; intros m; [done|].
  unfold Mathutils.coords. cbn [map concat]. rewrite fold_left_app. cbn [fold_left]. apply IH.
Qed.

Lemma maxnum_fold_spec (l : list Q) (m : Q) :
  let r := fold_left (fun m v => if Hashing.Qlt_bool m (Qabs v) then Qabs v else m) l m in
  (m <= r)%Q /\ (forall v, In v l -> Qabs v <= r)%Q /\ (r = m \/ exists v, In v l /\ r = Qabs v).
Proof.
  revert m. induction l as [|x l IH]; intros m; cbn [fold_left].
  - split; [lra|]. split; [by intros v []|tauto].
  - destruct (maxnum_step_spec m x) as (H1 & H2 & H3).
    destruct (IH (if Hashing.Qlt_bool m (Qabs x) then Qabs x else m)) as (I1 & I2 & I3).
    split; [lra|]. split.
    + intros v [<-|Hv]; [lra|by apply I2].
    + destruct I3 as [->|(v & Hv & ->)].
      * destruct H3 as [-> | ->]; [tauto|]. right. exists x. split; [by left|done].
      * right. exists v. split; [by right|done].
Qed.

(** X15.  [maxnum()] is not exceeded by the absolute value of any coordinate
    of any point; it is 0 for no point, and otherwise 0 or the absolute
    value of one of the coordinates.  [precision()] is [8 * NUMPREC] times
    it, so it is null when all the points are at the origin. *)
Theorem maxnum_bounds (pts : list vec3) :
  (forall p i, In p pts -> (i < 3)%nat -> Qabs (vget p i) <= Container.maxnum pts)%Q
  /\ (0 <= Container.maxnum pts)%Q
  /\ (Container.maxnum pts = 0%Q
      \/ exists p i, In p pts /\ (i < 3)%nat /\ Container.maxnum pts = Qabs (vget p i))
  /\ Container.maxnum [] = 0%Q
  /\ ((forall p, In p pts -> vec3_eq p (0, 0, 0)%Q) -> Container.precision pts == 0)%Q.
Proof.
  unfold Container.precision, Container.maxnum. rewrite maxnum_flat.
  destruct (maxnum_fold_spec (Mathutils.coords pts) 0) as (H1 & H2 & H3). cbv zeta in *.
  assert (Hc : forall v, In v (Mathutils.coords pts) <-> exists p i, In p pts /\ (i < 3)%nat /\ v = vget p i).
  { intros v. unfold Mathutils.coords. rewrite in_concat. split.
    - intros (l & Hl & Hv). apply in_map_iff in Hl as (p & <- & Hp).
      destruct Hv as [<-|[<-|[<-|[]]]]; [exists p, 0%nat|exists p, 1%nat|exists p, 2%nat];
        (split; [done|]); (split; [lia|done]).
    - intros (p & i & Hp & Hi & ->). exists [vx p; vy p; vz p]. split; [apply in_map_iff; by exists p|].
      destruct i as [|[|[|i]]]; cbn; try lia; tauto. }
  split; [|split; [done|split; [|split; [done|]]]].
  - intros p i Hp Hi. apply H2, Hc. by exists p, i.
  - destruct H3 as [->|(v & Hv & ->)]; [by left|]. right.
    apply Hc in Hv as (p & i & Hp & Hi & ->). by exists p, i.
  - intros Hz. destruct H3 as [->|(v & Hv & ->)]; [ring|].
    apply Hc in Hv as (p & i & Hp & Hi & ->). destruct (Hz p Hp) as (E1 & E2 & E3).
    cbn [vx vy vz fst snd] in *.
    assert (E : (vget p i == 0)%Q) by (destruct i as [|[|[|i]]]; cbn [vget]; try done; lia).
    rewrite E. vm_compute. done.
Qed.

End VectorFacts.

Module MeshOpsFacts.
Import Mesh MeshOps.

Lemma flip_face_invol (f : face) : flip_face (flip_face f) = f.
Proof. by destruct f as [[a b] c]. Qed.

Lemma check_face_flip (l : Z) (f : face) : check_face l (flip_face f) = check_face l f.
Proof.
  destruct f as [[a b] c]. unfold check_face, flip_face, face_degenerate.
  repeat case_bool_decide; cbn; try done; try lia; congruence.
Qed.

Lemma check_faces_flip (l : Z) (fs : list face) :
  check_faces l (map flip_face fs) = check_faces l fs.
Proof.
  induction fs as [|f fs IH]; [done|]. cbn [map check_faces]. by rewrite check_face_flip, IH.
Qed.

Lemma issurface_loop_complete (es : list edge) (reached : gset edge) :
  NoDup es -> (forall e, e ∈ es -> e ∉ reached) -> issurface_loop reached es = true.
Proof.
  revert reached. induction es as [|x es IH]; intros reached Hnd Hfresh; [done|].
  apply NoDup_cons in Hnd as [Hx Hnd]. cbn [issurface_loop].
  rewrite decide_False by (apply Hfresh; by left).
  apply IH; [done|]. intros e He. specialize (Hfresh e ltac:(by right)). set_solver.
Qed.

Lemma issurface_iff (m : Mesh.t) : issurface m = true <-> NoDup (edges_oriented m).
Proof.
  split; [apply MeshFacts.issurface_NoDup|].
  intros H. apply issurface_loop_complete; [done|set_solver].
Qed.

Lemma edges_oriented_flip_perm (m : Mesh.t) :
  edges_oriented (flip m) ≡ₚ map rev_edge (edges_oriented m).
Proof.
  unfold edges_oriented, flip. cbn [faces].
  induction (faces m) as [|[[a b] c] fs IH]; [done|].
  cbn [map concat]. rewrite map_app, IH. apply Permutation_app_tail.
  cbn. unfold rev_edge. cbn [fst snd].
  change ([(a, c); (c, b); (b, a)] ≡ₚ [(b, a); (c, b)] ++ [(a, c)]).
  rewrite <- Permutation_cons_append. apply perm_skip, perm_swap.
Qed.

(** X16.  [flip] twice gives the mesh back; [check] raises for the flipped
    mesh exactly when it does for the mesh, [issurface] answers the same for
    both, and so does [isenvelope] when [check] passes. *)
Theorem flip_involutive (m : Mesh.t) :
  flip (flip m) = m
  /\ check (flip m) = check m
  /\ issurface (flip m) = issurface m
  /\ (check m = Ok tt -> isenvelope (flip m) = isenvelope m).
Proof.
  split; [|split; [|split]].
  - destruct m as [pts fs ts gs]. unfold flip. cbn. f_equal.
    rewrite map_map. rewrite <- (map_id fs) at 2. apply map_ext, flip_face_invol.
  - unfold check, flip. cbn [points faces tracks groups].
    by rewrite check_faces_flip, length_map.
  - apply eq_true_iff_eq. rewrite !issurface_iff, edges_oriented_flip_perm.
    split.
    + intros H. apply (NoDup_fmap_1 rev_edge). done.
    + intros H. apply NoDup_fmap_2; [|done]. intros x y E.
      by rewrite <- (MeshFacts.rev_edge_invol x), E, MeshFacts.rev_edge_invol.
  - intros Hc. unfold isenvelope.
    rewrite MeshFacts.outlines_oriented_flip by (by apply MeshFacts.check_nondegenerate).
    apply eq_true_iff_eq. rewrite !Nat.eqb_eq, !size_empty_iff, !elem_of_equiv_empty. split.
    + intros H x Hx. apply (H (rev_edge x)). apply MeshFacts.elem_of_rev_set.
      by rewrite MeshFacts.rev_edge_invol.
    + intros H x Hx%MeshFacts.elem_of_rev_set. by apply (H (rev_edge x)).
Qed.

Lemma flip_involutive_witness :
  isenvelope (flip glued) = isenvelope glued.
Proof.
  apply (proj2 (proj2 (proj2 (flip_involutive glued)))). by vm_compute.
Defined.

(** *** Unoriented edges *)

Lemma outlines_unoriented_occ (m : Mesh.t) (x : edge) :
  x ∈ outlines_unoriented m <-> Nat.even (Triangulation.occ x (Triangulation.face_keys (faces m))) = false.
Proof.
  unfold outlines_unoriented.
  rewrite TriangulationFacts.fold_toggle_faces, TriangulationFacts.fold_toggle_elem.
  destruct (Nat.even _); set_solver.
Qed.

Lemma edges_keys (m : Mesh.t) (x : edge) :
  x ∈ edges m <-> x ∈ Triangulation.face_keys (faces m).
Proof.
  unfold edges.
  assert (H : forall s : gset edge, x ∈ fold_left (fun s f =>
    let '(a, b, c) := f in s ∪ {[ edgekey a b ]} ∪ {[ edgekey b c ]} ∪ {[ edgekey c a ]})
    (faces m) s <-> x ∈ s \/ x ∈ Triangulation.face_keys (faces m)).
  { induction (faces m) as [|[[a b] c] fs IH]; intros s; cbn [fold_left].
    - unfold Triangulation.face_keys. cbn. set_solver.
    - rewrite IH. unfold Triangulation.face_keys. cbn [map concat face_edges fst snd].
      set_solver. }
  rewrite H. set_solver.
Qed.

Lemma face_keys_reorient (which : nat -> bool) (fs : list face) :
  Triangulation.face_keys (imap (fun i f => if which i then flip_face f else f) fs)
  ≡ₚ Triangulation.face_keys fs.
Proof.
  revert which. induction fs as [|[[a b] c] fs IH]; intros which; [done|].
  cbn [imap]. unfold Triangulation.face_keys in *. cbn [map concat].
  apply Permutation_app; [|apply (IH (which ∘ S))].
  destruct (which 0%nat); [|done]. cbn.
  rewrite (TriangulationFacts.edgekey_sym a c), (TriangulationFacts.edgekey_sym c b),
    (TriangulationFacts.edgekey_sym b a).
  change ([edgekey c a; edgekey b c; edgekey a b]
          ≡ₚ [edgekey a b; edgekey b c] ++ [edgekey c a]).
  rewrite <- Permutation_cons_append. apply perm_skip, perm_swap.
Qed.

(** X17.  [outlines_unoriented] does not depend on the orientation of the
    faces: flipping any of them leaves it unchanged, as it leaves [edges]
    unchanged.  It holds the edges that an odd number of faces use, so it is
    a part of [edges]. *)
Theorem outlines_unoriented_robust (which : nat -> bool) (m : Mesh.t) :
  outlines_unoriented (reorient which m) = outlines_unoriented m
  /\ edges (reorient which m) = edges m
  /\ outlines_unoriented m ⊆ edges m
  /\ outlines_unoriented (flip m) = outlines_unoriented m.
Proof.
  assert (H1 : forall w, outlines_unoriented (reorient w m) = outlines_unoriented m).
  { intros w. apply set_eq. intros x. rewrite !outlines_unoriented_occ. unfold reorient. cbn [faces].
    by rewrite (TriangulationFacts.occ_perm x _ _ (face_keys_reorient w (faces m))). }
  split; [apply H1|]. split; [|split].
  - apply set_eq. intros x. rewrite !edges_keys. unfold reorient. cbn [faces].
    by rewrite (face_keys_reorient which (faces m)).
  - intros x. rewrite outlines_unoriented_occ, edges_keys. intros H.
    apply list_elem_of_In. apply (count_occ_In (decide_rel eq)).
    unfold Triangulation.occ in H. destruct (count_occ _ _ _); [done|lia].
  - rewrite <- (H1 (fun _ => true)). f_equal. unfold reorient, flip. f_equal.
    generalize (faces m). intros fs. induction fs as [|f fs IH]; [done|].
    cbn [imap map]. f_equal. exact IH.
Qed.

End MeshOpsFacts.

Module StripFacts.
Import Mesh Strip.

Lemma py_set_ok {A : Type} (l : list A) (i : nat) (x : A) :
  (i < length l)%nat -> py_set l i x = Ok (<[ i := x ]> l).
Proof. intros H. unfold py_set. by rewrite (proj2 (Nat.ltb_lt _ _) H). Qed.

Lemma rank_0 (used : list bool) : rank used 0 = 0%nat.
Proof. done. Qed.

Lemma rank_S (u : bool) (used : list bool) (i : nat) :
  rank (u :: used) (S i) = ((if u then 1 else 0) + rank used i)%nat.
Proof.
  unfold rank. cbn [take]. rewrite filter_cons. destruct u.
  - rewrite decide_True by done. done.
  - rewrite decide_False by done. done.
Qed.

Lemma rank_mono (used : list bool) (i k : nat) : (i <= k)%nat -> (rank used i <= rank used k)%nat.
Proof.
  revert i k. induction used as [|u used IH]; intros i k H.
  - unfold rank. by rewrite !take_nil.
  - destruct i as [|i]; [rewrite rank_0; lia|]. destruct k as [|k]; [lia|].
    rewrite !rank_S. specialize (IH i k). lia.
Qed.

Lemma rank_lt (used : list bool) (i k : nat) :
  used !! i = Some true -> (i < k)%nat -> (rank used i < rank used k)%nat.
Proof.
  revert i k. induction used as [|u used IH]; intros i k Hi Hk; [done|].
  destruct k as [|k]; [lia|]. destruct i as [|i].
  - cbn in Hi. injection Hi as ->. rewrite rank_0, rank_S. lia.
  - rewrite !rank_S. cbn in Hi. specialize (IH i k Hi). lia.
Qed.

Lemma sel_length {A : Type} (l : list A) (used : list bool) :
  (length used <= length l)%nat -> length (sel l used) = rank used (length used).
Proof.
  revert used. induction l as [|x l IH]; intros [|u used] H; cbn in H; try done; try lia.
  cbn [sel length]. rewrite rank_S. destruct u; cbn [length]; rewrite IH by lia; lia.
Qed.

Lemma sel_length_le {A : Type} (l : list A) (used : list bool) :
  (length (sel l used) <= length l)%nat.
Proof.
  revert used. induction l as [|x l IH]; intros [|u used]; cbn [sel length]; try lia.
  specialize (IH used). destruct u; cbn [length]; lia.
Qed.

Lemma sel_lookup {A : Type} (l : list A) (used : list bool) (i : nat) :
  used !! i = Some true -> sel l used !! rank used i = l !! i.
Proof.
  revert used i. induction l as [|x l IH]; intros [|u used] i Hi; try done.
  destruct i as [|i].
  - cbn in Hi. injection Hi as ->. done.
  - cbn in Hi. rewrite rank_S. cbn [sel]. destruct u; cbn; by apply IH.
Qed.

Lemma sel_source {A : Type} (l : list A) (used : list bool) (r : nat) :
  (r < length (sel l used))%nat ->
  exists i, used !! i = Some true /\ rank used i = r /\ (i < length l)%nat.
Proof.
  revert used r. induction l as [|x l IH]; intros [|u used] r Hr; cbn in Hr; try lia.
  destruct u.
  - destruct r as [|r]; [exists 0%nat; cbn; split; [done|]; split; [done|lia]|].
    cbn in Hr. destruct (IH used r ltac:(lia)) as (i & H1 & H2 & H3).
    exists (S i). rewrite rank_S. cbn. split; [done|]. split; lia.
  - destruct (IH used r Hr) as (i & H1 & H2 & H3).
    exists (S i). rewrite rank_S. cbn. split; [done|]. split; lia.
Qed.

(** what the loop of [striplist] leaves *)
Lemma striplist_loop_spec {A : Type} (used : list bool) :
  forall (i : nat) (l : list A) (reindex : list Z) (j : nat),
  (j <= i)%nat -> (i + length used <= length l)%nat -> length reindex = length l ->
  exists l' reindex',
    striplist_loop used i l reindex j = Ok (l', reindex', (j + rank used (length used))%nat)
    /\ length l' = length l /\ length reindex' = length l
    /\ take (j + rank used (length used)) l' = take j l ++ sel (drop i l) used
    /\ (forall k, (k < i)%nat -> reindex' !! k = reindex !! k)
    /\ (forall k, (i + length used <= k)%nat -> reindex' !! k = reindex !! k)
    /\ (forall k, used !! k = Some true ->
          reindex' !! (i + k)%nat = Some (Z.of_nat (j + rank used k)))
    /\ (forall k, used !! k = Some false -> reindex' !! (i + k)%nat = reindex !! (i + k)%nat).
Proof.
  induction used as [|u used IH]; intros i l reindex j Hji Hlen Hre.
  - exists l, reindex. cbn [striplist_loop length]. rewrite rank_0, Nat.add_0_r.
    split; [done|]. split; [done|]. split; [done|].
    split; [destruct (drop i l); cbn; by rewrite app_nil_r|].
    split; [done|]. split; [done|]. split; intros k Hk; done.
  - cbn [length] in Hlen. cbn [striplist_loop length]. destruct u.
    + destruct (lookup_lt_is_Some_2 l i ltac:(lia)) as [x Hx].
      unfold py_get. rewrite Hx. cbn [rbind].
      rewrite py_set_ok by lia. cbn [rbind]. rewrite py_set_ok by lia. cbn [rbind].
      destruct (IH (S i) (<[ j := x ]> l) (<[ i := Z.of_nat j ]> reindex) (S j))
        as (l' & reindex' & Hr & Hl1 & Hl2 & Ht & Hlo & Hhi & Hu & Hf);
        [lia|rewrite length_insert; lia|rewrite !length_insert; lia|].
      exists l', reindex'. rewrite rank_S.
      replace (j + (1 + rank used (length used)))%nat with (S j + rank used (length used))%nat by lia.
      split; [done|]. rewrite length_insert in Hl1, Hl2.
      split; [done|]. split; [done|]. split.
      { rewrite Ht. rewrite (drop_S l x i Hx). cbn [sel].
        assert (Hd : drop (S i) (<[ j := x ]> l) = drop (S i) l).
        { apply list_eq. intros k. rewrite !lookup_drop.
          rewrite list_lookup_insert_ne by lia. done. }
        rewrite Hd. rewrite (take_S_r (<[ j := x ]> l) j x)
          by (apply list_lookup_insert_eq; lia).
        rewrite take_insert_ge by lia. by rewrite <- app_assoc. }
      split.
      { intros k Hk. rewrite Hlo by lia. by rewrite list_lookup_insert_ne by lia. }
      split.
      { intros k Hk. rewrite Hhi by lia. by rewrite list_lookup_insert_ne by lia. }
      split.
      { intros [|k] Hk.
        - rewrite Nat.add_0_r, rank_0, Nat.add_0_r. rewrite Hlo by lia.
          apply list_lookup_insert_eq. lia.
        - cbn in Hk. rewrite rank_S.
          replace (i + S k)%nat with (S i + k)%nat by lia. rewrite (Hu k Hk). do 2 f_equal. lia. }
      { intros [|k] Hk; [done|]. cbn in Hk.
        replace (i + S k)%nat with (S i + k)%nat by lia. rewrite (Hf k Hk).
        by rewrite list_lookup_insert_ne by lia. }
    + destruct (IH (S i) l reindex j)
        as (l' & reindex' & Hr & Hl1 & Hl2 & Ht & Hlo & Hhi & Hu & Hf); [lia..|done|].
      exists l', reindex'. rewrite rank_S. cbn [Nat.add].
      split; [done|]. split; [done|]. split; [done|]. split.
      { rewrite Ht. destruct (lookup_lt_is_Some_2 l i ltac:(lia)) as [x Hx].
        by rewrite (drop_S l x i Hx). }
      split; [intros k Hk; apply Hlo; lia|].
      split; [intros k Hk; apply Hhi; lia|].
      split.
      { intros [|k] Hk; [done|]. cbn in Hk. rewrite rank_S.
        replace (i + S k)%nat with (S i + k)%nat by lia. by rewrite (Hu k Hk). }
      { intros [|k] Hk.
        - rewrite Nat.add_0_r. apply Hlo. lia.
        - cbn in Hk. replace (i + S k)%nat with (S i + k)%nat by lia. by apply Hf. }
Qed.

Lemma striplist_loop_raises {A : Type} (used : list bool) :
  forall (i : nat) (l : list A) (reindex : list Z) (j k : nat),
  (j <= i)%nat -> length reindex = length l ->
  used !! k = Some true -> (length l <= i + k)%nat ->
  striplist_loop used i l reindex j = Raise IndexError.
Proof.
  induction used as [|u used IH]; intros i l reindex j k Hji Hre Hk Hlen; [done|].
  cbn [striplist_loop]. destruct u.
  - destruct (decide (i < length l)%nat) as [Hi|Hi].
    + destruct (lookup_lt_is_Some_2 l i Hi) as [x Hx].
      unfold py_get. rewrite Hx. cbn [rbind].
      rewrite py_set_ok by lia. cbn [rbind]. rewrite py_set_ok by lia. cbn [rbind].
      destruct k as [|k]; [lia|]. cbn in Hk.
      apply (IH _ _ _ _ k); [lia|by rewrite !length_insert|done|rewrite length_insert; lia].
    + unfold py_get. by rewrite lookup_ge_None_2 by lia.
  - destruct k as [|k]; [done|]. cbn in Hk. apply (IH _ _ _ _ k); [lia|done|done|lia].
Qed.

Lemma striplist_ok {A : Type} (l : list A) (used : list bool) :
  (length used <= length l)%nat ->
  exists l' reindex,
    striplist l used = Ok (l', reindex)
    /\ l' = sel l used /\ length reindex = length l
    /\ (forall i, used !! i = Some true ->
          exists r, reindex !! i = Some (Z.of_nat r) /\ (r < length l')%nat /\ l' !! r = l !! i)
    /\ (forall i, (i < length l)%nat -> used !! i <> Some true -> reindex !! i = Some (-1))
    /\ (forall r, (r < length l')%nat ->
          exists i, used !! i = Some true /\ reindex !! i = Some (Z.of_nat r))
    /\ (forall i i' r, reindex !! i = Some r -> reindex !! i' = Some r -> 0 <= r -> i = i').
Proof.
  intros Hlen. unfold striplist.
  destruct (striplist_loop_spec used 0 l (replicate (length l) (-1)) 0)
    as (l1 & reindex & Hr & Hl1 & Hl2 & Ht & _ & Hhi & Hu & Hf);
    [lia|lia|by rewrite length_replicate|].
  rewrite Hr. cbn [rbind fst snd Nat.add] in *. rewrite drop_0 in Ht.
  change (take 0 l ++ sel l used) with (sel l used) in Ht.
  exists (take (rank used (length used)) l1), reindex.
  split; [done|]. split; [done|]. split; [done|].
  assert (Hneg : forall i, (i < length l)%nat -> used !! i <> Some true -> reindex !! i = Some (-1)).
  { intros i Hi Hn. destruct (used !! i) as [[|]|] eqn:E; [done| |].
    - rewrite (Hf i E). apply lookup_replicate_2. lia.
    - apply lookup_ge_None in E. rewrite Hhi by lia. apply lookup_replicate_2. lia. }
  assert (Hpos : forall i, used !! i = Some true ->
    reindex !! i = Some (Z.of_nat (rank used i)) /\ (rank used i < rank used (length used))%nat).
  { intros i Hi. split; [apply (Hu i Hi)|]. apply rank_lt; [done|]. by apply lookup_lt_Some in Hi. }
  rewrite Ht. split; [|split; [done|split; [|]]].
  - intros i Hi. destruct (Hpos i Hi) as [E Hlt]. exists (rank used i).
    split; [done|]. rewrite sel_length by done. split; [done|]. by apply sel_lookup.
  - intros r Hr'. destruct (sel_source l used r Hr') as (i & Hi & <- & _).
    exists i. split; [done|]. by apply Hpos.
  - intros i i' r Hi Hi' Hr0.
    assert (Hm : forall k, reindex !! k = Some r -> used !! k = Some true /\ r = Z.of_nat (rank used k)).
    { intros k Hk. destruct (used !! k) as [[|]|] eqn:E.
      - split; [done|]. destruct (Hpos k E) as [E' _]. congruence.
      - rewrite (Hneg k) in Hk; [injection Hk; lia| |congruence].
        apply lookup_lt_Some in Hk. lia.
      - rewrite (Hneg k) in Hk; [injection Hk; lia| |congruence].
        apply lookup_lt_Some in Hk. lia. }
    destruct (Hm i Hi) as [Ui Ri], (Hm i' Hi') as [Ui' Ri'].
    destruct (Nat.lt_trichotomy i i') as [H|[H|H]]; [|done|].
    + pose proof (rank_lt used i i' Ui H). lia.
    + pose proof (rank_lt used i' i Ui' H). lia.
Qed.

(** X18.  [striplist(list, used)], for marks that do not run beyond the
    list, leaves in the list the elements at the marked positions, in their
    order, and returns a reindexation as long as the list was: [-1] at the
    positions not marked, and at a marked position the new position of its
    element; each new position comes from one marked position only.  A mark
    beyond the end of the list raises [IndexError]. *)
Theorem striplist_reindex {A : Type} (l : list A) (used : list bool) :
  ((length used <= length l)%nat ->
    exists l' reindex,
      striplist l used = Ok (l', reindex)
      /\ l' = sel l used /\ length reindex = length l
      /\ (forall i, used !! i = Some true ->
            exists r, reindex !! i = Some (Z.of_nat r) /\ (r < length l')%nat /\ l' !! r = l !! i)
      /\ (forall i, (i < length l)%nat -> used !! i <> Some true -> reindex !! i = Some (-1))
      /\ (forall r, (r < length l')%nat ->
            exists i, used !! i = Some true /\ reindex !! i = Some (Z.of_nat r))
      /\ (forall i i' r, reindex !! i = Some r -> reindex !! i' = Some r -> 0 <= r -> i = i'))
  /\ (forall k, used !! k = Some true -> (length l <= k)%nat ->
        striplist l used = Raise IndexError).
Proof.
  split; [apply striplist_ok|].
  intros k Hk Hlen. unfold striplist.
  rewrite (striplist_loop_raises used 0 l _ 0 k); [done|lia|by rewrite length_replicate|done|lia].
Qed.

Lemma striplist_reindex_witness :
  striplist [10; 20; 30; 40] [true; false; true] = Ok ([10; 30], [0; -1; 1; -1])
  /\ striplist [10] [false; true] = Raise IndexError.
Proof.
  split.
  - destruct (proj1 (striplist_reindex [10; 20; 30; 40] [true; false; true]) ltac:(cbn; lia))
      as (l' & reindex & H & _). by vm_compute.
  - apply (proj2 (striplist_reindex [10] [false; true]) 1%nat); [done|cbn; lia].
Defined.

End StripFacts.

Module StripMeshFacts.
Import Mesh Strip StripFacts.

(** *** What [check] accepts *)

Lemma check_face_iff (n : nat) (f : face) :
  check_face (Z.of_nat n) f = Ok tt <-> in_range n f /\ face_degenerate f = false.
Proof.
  destruct f as [[a b] c]. unfold check_face, in_range, corners.
  assert (Hin : (forall p, p ∈ [a; b; c] -> 0 <= p < Z.of_nat n) <->
                (0 <= a < Z.of_nat n /\ 0 <= b < Z.of_nat n /\ 0 <= c < Z.of_nat n)).
  { split.
    - intros H. split; [|split]; apply H; set_solver.
    - intros (Ha & Hb & Hc) p Hp. rewrite !elem_of_cons, elem_of_nil in Hp.
      destruct Hp as [->|[->|[->|[]]]]; done. }
  rewrite Hin. clear Hin.
  repeat case_bool_decide; cbn [rbind]; destruct (face_degenerate (a, b, c));
    split; intros Hx; try done; try (split; [lia|done]); destruct Hx as [Hx ?]; try done; lia.
Qed.

Lemma check_face_cases (l : Z) (f : face) :
  check_face l f = Ok tt \/ check_face l f = Raise MeshError.
Proof.
  destruct f as [[a b] c]. unfold check_face.
  repeat case_bool_decide; cbn [rbind]; destruct (face_degenerate (a, b, c)); tauto.
Qed.

Lemma check_faces_iff (n : nat) (fs : list face) :
  check_faces (Z.of_nat n) fs = Ok tt <->
  Forall (fun f => in_range n f /\ face_degenerate f = false) fs.
Proof.
  induction fs as [|f fs IH]; [by split; [constructor|]|].
  cbn [check_faces]. rewrite Forall_cons, <- IH, <- check_face_iff.
  destruct (check_face_cases (Z.of_nat n) f) as [-> | ->]; cbn [rbind]; [tauto|].
  split; [done|]. by intros [? _].
Qed.

Lemma check_faces_cases (l : Z) (fs : list face) :
  check_faces l fs = Ok tt \/ check_faces l fs = Raise MeshError.
Proof.
  induction fs as [|f fs IH]; [by left|]. cbn [check_faces].
  destruct (check_face_cases l f) as [-> | ->]; cbn [rbind]; tauto.
Qed.

Lemma check_cases (m : Mesh.t) : check m = Ok tt \/ check m = Raise MeshError.
Proof.
  unfold check.
  destruct (check_faces_cases (Z.of_nat (length (points m))) (faces m)) as [-> | ->];
    cbn [rbind]; [|tauto].
  destruct (negb _); [tauto|]. case_bool_decide; tauto.
Qed.

Lemma check_iff (m : Mesh.t) :
  check m = Ok tt <->
    Forall (fun f => in_range (length (points m)) f /\ face_degenerate f = false) (faces m)
    /\ length (faces m) = length (tracks m)
    /\ max_track (tracks m) < Z.of_nat (length (groups m)).
Proof.
  unfold check. rewrite <- check_faces_iff.
  destruct (check_faces_cases (Z.of_nat (length (points m))) (faces m)) as [-> | ->];
    cbn [rbind].
  - destruct (Nat.eqb_spec (length (faces m)) (length (tracks m))) as [E|E]; cbn [negb].
    + case_bool_decide as Hg.
      * split; [done|]. intros (_ & _ & Hx). lia.
      * split; [intros _; split; [done|split; [done|lia]]|done].
    + split; [done|]. tauto.
  - split; [done|]. by intros [? _].
Qed.

(** X19.  [check] either passes or raises [MeshError], and it passes exactly
    when every corner of every face is the position of a point, no face
    uses a point twice, there are as many tracks as faces, and the greatest
    track is the position of a group; negative tracks are let through.
    [isvalid] is [check] with the exception turned into [False]. *)
Theorem check_accepts (m : Mesh.t) :
  (check m = Ok tt \/ check m = Raise MeshError)
  /\ (check m = Ok tt <->
        Forall (fun f => in_range (length (points m)) f /\ face_degenerate f = false) (faces m)
        /\ length (faces m) = length (tracks m)
        /\ max_track (tracks m) < Z.of_nat (length (groups m)))
  /\ (isvalid m = Ok true <-> check m = Ok tt)
  /\ (isvalid m = Ok false <-> check m = Raise MeshError).
Proof.
  split; [apply check_cases|]. split; [apply check_iff|].
  unfold isvalid. destruct (check_cases m) as [-> | ->]; split; split; done.
Qed.

(** *** Marking the positions in use *)

Lemma py_setitem_ok {A : Type} (l : list A) (z : Z) (x : A) :
  - Z.of_nat (length l) <= z < Z.of_nat (length l) ->
  py_setitem l z x = Ok (<[ norm (length l) z := x ]> l) /\ (norm (length l) z < length l)%nat.
Proof.
  intros H. unfold py_setitem, norm. destruct (Z.leb_spec 0 z).
  - split; [apply py_set_ok|]; lia.
  - rewrite (proj2 (Z.leb_le _ _)) by lia. split; [apply py_set_ok|]; lia.
Qed.

Lemma py_index_ok {A : Type} (l : list A) (z : Z) :
  - Z.of_nat (length l) <= z < Z.of_nat (length l) ->
  exists x, Triangulation.py_index l z = Ok x /\ l !! norm (length l) z = Some x.
Proof.
  intros H. unfold Triangulation.py_index, norm, py_get. destruct (Z.leb_spec 0 z).
  - destruct (lookup_lt_is_Some_2 l (Z.to_nat z) ltac:(lia)) as [x Hx]. rewrite Hx. eauto.
  - rewrite (proj2 (Z.leb_le _ _)) by lia.
    destruct (lookup_lt_is_Some_2 l (Z.to_nat (Z.of_nat (length l) + z)) ltac:(lia)) as [x Hx].
    rewrite Hx. eauto.
Qed.

Lemma mark_used_spec (ps : list Z) (used : list bool) :
  Forall (fun p => - Z.of_nat (length used) <= p < Z.of_nat (length used)) ps ->
  exists used', mark_used used ps = Ok used' /\ length used' = length used
    /\ forall i, used' !! i = Some true <->
         used !! i = Some true \/ exists p, p ∈ ps /\ norm (length used) p = i.
Proof.
  revert used. induction ps as [|p ps IH]; intros used Hps.
  - exists used. split; [done|]. split; [done|]. intros i. split; [tauto|].
    intros [H|(p & Hp & _)]; [done|]. by apply elem_of_nil in Hp.
  - apply Forall_cons in Hps as [Hp Hps]. cbn [mark_used].
    destruct (py_setitem_ok used p true Hp) as [-> Hn]. cbn [rbind].
    destruct (IH (<[ norm (length used) p := true ]> used)) as (used' & -> & Hl & Hu).
    { by rewrite length_insert. }
    rewrite length_insert in Hl, Hu. exists used'. split; [done|]. split; [done|].
    intros i. rewrite Hu. split.
    + intros [H|(q & Hq & <-)].
      * destruct (decide (i = norm (length used) p)) as [->|Hne].
        -- right. exists p. split; [by left|done].
        -- rewrite list_lookup_insert_ne in H by done. tauto.
      * right. exists q. split; [by right|done].
    + intros [H|(q & Hq & <-)].
      * destruct (decide (i = norm (length used) p)) as [->|Hne].
        -- left. apply list_lookup_insert_eq. lia.
        -- left. by rewrite list_lookup_insert_ne.
      * apply elem_of_cons in Hq as [->|Hq].
        -- left. apply list_lookup_insert_eq. lia.
        -- right. by exists q.
Qed.

Lemma norm_nonneg (n : nat) (z : Z) : 0 <= z -> norm n z = Z.to_nat z.
Proof. intros H. unfold norm. by rewrite (proj2 (Z.leb_le _ _) H). Qed.

Lemma reindex_faces_spec (reindex : list Z) (fs : list face) :
  Forall (fun f => forall p, p ∈ corners f ->
            - Z.of_nat (length reindex) <= p < Z.of_nat (length reindex)) fs ->
  exists fs', reindex_faces reindex fs = Ok fs' /\ Forall2 (remapped reindex) fs fs'.
Proof.
  induction fs as [|[[a b] c] fs IH]; intros H.
  - exists []. split; [done|constructor].
  - apply Forall_cons in H as [Hf H]. cbn [reindex_faces].
    destruct (py_index_ok reindex a) as (a' & -> & Ha); [apply Hf; set_solver|].
    destruct (py_index_ok reindex b) as (b' & -> & Hb); [apply Hf; set_solver|].
    destruct (py_index_ok reindex c) as (c' & -> & Hc); [apply Hf; set_solver|].
    cbn [rbind]. destruct (IH H) as (fs' & -> & Hfs). cbn [rbind].
    exists ((a', b', c') :: fs'). split; [done|]. constructor; [|done].
    unfold remapped. cbn [corners]. repeat constructor; done.
Qed.

Lemma elem_of_corners_concat (fs : list face) (p : Z) :
  p ∈ concat (map corners fs) <-> exists k f, fs !! k = Some f /\ p ∈ corners f.
Proof.
  rewrite list_elem_of_In, in_concat. split.
  - intros (l & Hl & Hp). apply in_map_iff in Hl as (f & <- & Hf).
    apply list_elem_of_In, list_elem_of_lookup_1 in Hf as (k & Hk).
    exists k, f. split; [done|by apply list_elem_of_In].
  - intros (k & f & Hk & Hp). exists (corners f). split; [|by apply list_elem_of_In].
    apply in_map_iff. exists f. split; [done|]. apply list_elem_of_In.
    by eapply list_elem_of_lookup_2.
Qed.

(** X20.  On a mesh that passes [check], [strippoints()] returns, and the
    mesh still passes [check]; each face keeps its three points (the same
    coordinates, at new positions), the tracks and groups are untouched,
    and every point left is used by a face. *)
Theorem strippoints_keeps_faces (m : Mesh.t) :
  check m = Ok tt ->
  exists m' reindex,
    strippoints m None = Ok (m', reindex)
    /\ check m' = Ok tt
    /\ tracks m' = tracks m /\ groups m' = groups m
    /\ length reindex = length (points m)
    /\ (length (points m') <= length (points m))%nat
    /\ Forall2 (fun f f' =>
         Forall2 (fun p p' => Triangulation.py_index (points m') p'
                              = Triangulation.py_index (points m) p)
                 (corners f) (corners f')) (faces m) (faces m')
    /\ (forall j, (j < length (points m'))%nat ->
          exists f', f' ∈ faces m' /\ Z.of_nat j ∈ corners f').
Proof.
  intros Hc. apply check_iff in Hc as (Hfs & Hlen & Hmax).
  unfold strippoints. set (n := length (points m)) in *.
  destruct (mark_used_spec (concat (map corners (faces m))) (replicate n false))
    as (used & -> & Hul & Hu).
  { rewrite length_replicate. apply Forall_forall. intros p Hp.
    apply elem_of_corners_concat in Hp as (k & f & Hk & Hp).
    rewrite Forall_forall in Hfs. destruct (Hfs f) as [Hr _]; [by eapply list_elem_of_lookup_2|].
    specialize (Hr p Hp). lia. }
  rewrite length_replicate in Hul, Hu. cbn [rbind].
  assert (Hused : forall i, used !! i = Some true <->
            exists k f p, faces m !! k = Some f /\ p ∈ corners f /\ Z.to_nat p = i).
  { intros i. rewrite Hu. split.
    - intros [H|(p & Hp & <-)].
      + apply lookup_replicate in H as [[=] _].
      + apply elem_of_corners_concat in Hp as (k & f & Hk & Hp). exists k, f, p.
        split; [done|]. split; [done|]. rewrite norm_nonneg; [done|].
        rewrite Forall_forall in Hfs.
        destruct (Hfs f) as [Hr _]; [by eapply list_elem_of_lookup_2|]. apply (Hr p Hp).
    - intros (k & f & p & Hk & Hp & <-). right. exists p.
      split; [apply elem_of_corners_concat; by exists k, f|].
      rewrite norm_nonneg; [done|]. rewrite Forall_forall in Hfs.
      destruct (Hfs f) as [Hr _]; [by eapply list_elem_of_lookup_2|]. apply (Hr p Hp). }
  destruct (striplist_ok (points m) used) as
    (pts' & reindex & -> & Hsel & Hrl & Hpos & Hneg & Hsrc & Hinj); [unfold n in Hul; lia|].
  cbn [rbind fst snd].
  destruct (reindex_faces_spec reindex (faces m)) as (fs' & -> & Hre).
  { rewrite Hrl. fold n. eapply Forall_impl; [exact Hfs|]. intros f [Hr _] p Hp.
    specialize (Hr p Hp). lia. }
  cbn [rbind]. eexists _, _. split; [reflexivity|]. cbn [points faces tracks groups].
  (* the image of each corner *)
  assert (Hcorner : forall f f' p p', f ∈ faces m -> remapped reindex f f' ->
            (p, p') ∈ zip (corners f) (corners f') ->
            exists r, p' = Z.of_nat r /\ (r < length pts')%nat
              /\ reindex !! Z.to_nat p = Some p' /\ pts' !! r = points m !! Z.to_nat p
              /\ 0 <= p < Z.of_nat n).
  { intros f f' p p' Hf Hrm Hpp.
    rewrite Forall_forall in Hfs. destruct (Hfs f Hf) as [Hr _].
    assert (Hp : p ∈ corners f).
    { apply list_elem_of_lookup_1 in Hpp as (i & Hi). apply lookup_zip_with_Some in Hi
        as (x & y & [= <- <-] & Hx & _). by eapply list_elem_of_lookup_2. }
    specialize (Hr p Hp).
    assert (Hrp : reindex !! Z.to_nat p = Some p').
    { apply list_elem_of_lookup_1 in Hpp as (i & Hi). apply lookup_zip_with_Some in Hi
        as (x & y & [= <- <-] & Hx & Hy).
      pose proof (Forall2_lookup_lr _ _ _ _ _ _ Hrm Hx Hy) as E. cbn in E.
      by rewrite norm_nonneg in E by lia. }
    destruct (Hpos (Z.to_nat p)) as (r & Er & Hr1 & Hr2).
    { apply Hused. apply list_elem_of_lookup_1 in Hf as (k & Hk). by exists k, f, p. }
    exists r. rewrite Er in Hrp. injection Hrp as <-. done. }
  assert (Hfl : length fs' = length (faces m)) by (symmetry; by eapply Forall2_length).
  split; [|split; [done|split; [done|split; [done|split; [|split]]]]].
  - (* check *)
    apply check_iff. cbn [points faces tracks groups].
    split; [|split; [lia|done]].
    apply Forall_forall. intros f' Hf'.
    apply list_elem_of_lookup_1 in Hf' as (k & Hk).
    destruct (Forall2_lookup_r _ _ _ _ _ Hre Hk) as (f & Hf & Hrm).
    assert (Hfin : f ∈ faces m) by (by eapply list_elem_of_lookup_2).
    rewrite Forall_forall in Hfs. destruct (Hfs f Hfin) as [_ Hnd].
    destruct f as [[a b] c], f' as [[a' b'] c'].
    destruct (Hcorner _ _ a a' Hfin Hrm) as (ra & -> & Hra & Ea & _ & Har); [set_solver|].
    destruct (Hcorner _ _ b b' Hfin Hrm) as (rb & -> & Hrb & Eb & _ & Hbr); [set_solver|].
    destruct (Hcorner _ _ c c' Hfin Hrm) as (rc & -> & Hrc & Ec & _ & Hcr); [set_solver|].
    split.
    + intros p Hp. cbn [corners] in Hp. rewrite !elem_of_cons, elem_of_nil in Hp.
      destruct Hp as [->|[->|[->|[]]]]; lia.
    + unfold face_degenerate in *. rewrite !orb_false_iff in *.
      destruct Hnd as [[Hab Hbc] Hca]. apply bool_decide_eq_false in Hab, Hbc, Hca.
      repeat split; apply bool_decide_eq_false; intros E.
      * apply Hab. rewrite E in Ea. pose proof (Hinj _ _ _ Ea Eb ltac:(lia)). lia.
      * apply Hbc. rewrite E in Eb. pose proof (Hinj _ _ _ Eb Ec ltac:(lia)). lia.
      * apply Hca. rewrite E in Ec. pose proof (Hinj _ _ _ Ec Ea ltac:(lia)). lia.
  - rewrite Hsel. apply sel_length_le.
  - (* the points of the faces *)
    apply Forall2_same_length_lookup. split; [lia|].
    intros k f f' Hf Hf'.
    pose proof (Forall2_lookup_lr _ _ _ _ _ _ Hre Hf Hf') as Hrm.
    assert (Hfin : f ∈ faces m) by (by eapply list_elem_of_lookup_2).
    destruct f as [[a b] c], f' as [[a' b'] c'].
    destruct (Hcorner _ _ a a' Hfin Hrm) as (ra & -> & Hra & _ & Ea & Har); [set_solver|].
    destruct (Hcorner _ _ b b' Hfin Hrm) as (rb & -> & Hrb & _ & Eb & Hbr); [set_solver|].
    destruct (Hcorner _ _ c c' Hfin Hrm) as (rc & -> & Hrc & _ & Ec & Hcr); [set_solver|].
    cbn [corners].
    assert (Hpy : forall (r : nat) (p : Z), 0 <= p ->
      pts' !! r = points m !! Z.to_nat p ->
      Triangulation.py_index pts' (Z.of_nat r) = Triangulation.py_index (points m) p).
    { intros r p Hp E. unfold Triangulation.py_index, py_get.
      rewrite (proj2 (Z.leb_le 0 (Z.of_nat r))) by lia. rewrite (proj2 (Z.leb_le 0 p)) by lia.
      by rewrite Nat2Z.id, E. }
    repeat constructor; apply Hpy; (lia || done).
  - (* every point is used *)
    intros j Hj. destruct (Hsrc j Hj) as (i & Hi & Hri).
    apply Hused in Hi as (k & f & p & Hk & Hp & <-).
    destruct (Forall2_lookup_l _ _ _ _ _ Hre Hk) as (f' & Hk' & Hrm).
    exists f'. split; [by eapply list_elem_of_lookup_2|].
    assert (Hfin : f ∈ faces m) by (by eapply list_elem_of_lookup_2).
    apply list_elem_of_lookup_1 in Hp as (c & Hc).
    destruct (Forall2_lookup_l _ _ _ _ _ Hrm Hc) as (p' & Hc' & E).
    destruct (Hcorner f f' p p' Hfin Hrm) as (r & -> & _ & Er & _).
    { apply list_elem_of_lookup_2 with c. apply lookup_zip_with_Some. by exists p, p'. }
    rewrite Hri in Er. injection Er as ->. by eapply list_elem_of_lookup_2.
Qed.

Lemma strippoints_keeps_faces_witness :
  exists m' reindex,
    strippoints (Mesh [(0, 0, 0); (9, 9, 9); (1, 0, 0); (0, 1, 0)]%Q [(0, 2, 3)] [0] [None]) None
      = Ok (m', reindex)
    /\ points m' = [(0, 0, 0); (1, 0, 0); (0, 1, 0)]%Q /\ faces m' = [(0, 1, 2)]
    /\ reindex = [0; -1; 1; 2].
Proof.
  destruct (strippoints_keeps_faces
    (Mesh [(0, 0, 0); (9, 9, 9); (1, 0, 0); (0, 1, 0)]%Q [(0, 2, 3)] [0] [None]))
    as (m' & reindex & H & _); [by vm_compute|].
  exists m', reindex. split; [exact H|]. vm_compute in H. injection H as <- <-. done.
Defined.

(** *** Groups *)

Lemma reindex_tracks_spec (reindex : list Z) (ts : list Z) :
  Forall (fun t => - Z.of_nat (length reindex) <= t < Z.of_nat (length reindex)) ts ->
  exists ts', reindex_tracks reindex ts = Ok ts'
    /\ Forall2 (fun t t' => reindex !! norm (length reindex) t = Some t') ts ts'.
Proof.
  induction ts as [|t0 ts IH]; intros H.
  - exists []. split; [done|constructor].
  - apply Forall_cons in H as [Ht H]. cbn [reindex_tracks].
    destruct (py_index_ok reindex t0 Ht) as (t' & -> & Ht').
    cbn [rbind]. destruct (IH H) as (ts' & -> & Hts). cbn [rbind].
    exists (t' :: ts'). split; [done|]. by constructor.
Qed.

Lemma max_track_bound (ts : list Z) (n : Z) :
  0 <= n -> Forall (fun t => t < n) ts -> max_track ts < n.
Proof.
  intros Hn H. unfold max_track. destruct ts as [|t0 ts]; [lia|].
  apply Forall_cons in H as [H0 H]. revert t0 H0.
  induction H as [|t1 ts H1 _ IH]; intros t0 H0; cbn [fold_left]; [done|].
  apply IH. lia.
Qed.

Lemma py_index_norm {A : Type} (l : list A) (z : Z) (r : nat) :
  - Z.of_nat (length l) <= z < Z.of_nat (length l) ->
  forall l' : list A, l' !! r = l !! norm (length l) z ->
  Triangulation.py_index l' (Z.of_nat r) = Triangulation.py_index l z.
Proof.
  intros Hz l' E. destruct (py_index_ok l z Hz) as (x & -> & Hx).
  unfold Triangulation.py_index, py_get.
  rewrite (proj2 (Z.leb_le 0 (Z.of_nat r))) by lia. by rewrite Nat2Z.id, E, Hx.
Qed.

(** X21.  When every track is a valid index of [groups], [stripgroups()]
    returns; points and faces are untouched, each face keeps its group (the
    same definition, at a new position), every group left is the group of a
    face, and the new tracks are positions counted from the start.  If the
    mesh passed [check], it still does. *)
Theorem stripgroups_keeps_groups (m : Mesh.t) :
  Forall (fun t => - Z.of_nat (length (groups m)) <= t < Z.of_nat (length (groups m))) (tracks m) ->
  exists m' reindex,
    stripgroups m = Ok (m', reindex)
    /\ points m' = points m /\ faces m' = faces m
    /\ length reindex = length (groups m)
    /\ Forall2 (fun t t' => 0 <= t' < Z.of_nat (length (groups m'))
                 /\ Triangulation.py_index (groups m') t' = Triangulation.py_index (groups m) t)
               (tracks m) (tracks m')
    /\ (forall j, (j < length (groups m'))%nat -> Z.of_nat j ∈ tracks m')
    /\ (check m = Ok tt -> check m' = Ok tt).
Proof.
  intros Hts. unfold stripgroups. set (n := length (groups m)) in *.
  destruct (mark_used_spec (tracks m) (replicate n false)) as (used & -> & Hul & Hu).
  { by rewrite length_replicate. }
  rewrite length_replicate in Hul, Hu. cbn [rbind].
  assert (Hused : forall i, used !! i = Some true <-> exists t, t ∈ tracks m /\ norm n t = i).
  { intros i. rewrite Hu. split; [|tauto]. intros [H|H]; [|done].
    apply lookup_replicate in H as [[=] _]. }
  destruct (striplist_ok (groups m) used) as
    (gs' & reindex & -> & Hsel & Hrl & Hpos & Hneg & Hsrc & Hinj); [unfold n in Hul; lia|].
  cbn [rbind fst snd].
  destruct (reindex_tracks_spec reindex (tracks m)) as (ts' & -> & Hre).
  { rewrite Hrl. done. }
  cbn [rbind]. eexists _, _. split; [reflexivity|]. cbn [points faces tracks groups].
  split; [done|]. split; [done|]. split; [done|].
  assert (Htr : Forall2 (fun t t' => 0 <= t' < Z.of_nat (length gs')
                 /\ Triangulation.py_index gs' t' = Triangulation.py_index (groups m) t)
               (tracks m) ts').
  { apply Forall2_same_length_lookup. split; [by eapply Forall2_length|].
    intros k t t' Hk Hk'. pose proof (Forall2_lookup_lr _ _ _ _ _ _ Hre Hk Hk') as E.
    cbn in E. rewrite Hrl in E. fold n in E.
    destruct (Hpos (norm n t)) as (r & Er & Hr1 & Hr2).
    { apply Hused. exists t. split; [by eapply list_elem_of_lookup_2|done]. }
    rewrite Er in E. injection E as <-. split; [lia|].
    apply py_index_norm; [|done]. rewrite Forall_forall in Hts. apply Hts.
    by eapply list_elem_of_lookup_2. }
  split; [exact Htr|]. split.
  - intros j Hj. destruct (Hsrc j Hj) as (i & Hi & Hri).
    apply Hused in Hi as (t & Ht & <-).
    apply list_elem_of_lookup_1 in Ht as (k & Hk).
    destruct (Forall2_lookup_l _ _ _ _ _ Hre Hk) as (t' & Hk' & E).
    cbn in E. rewrite Hrl in E. fold n in E. rewrite Hri in E. injection E as <-.
    by eapply list_elem_of_lookup_2.
  - intros Hc. apply check_iff in Hc as (Hfs & Hlen & Hmax). apply check_iff.
    cbn [points faces tracks groups]. split; [done|].
    split; [rewrite Hlen; by eapply Forall2_length|].
    apply max_track_bound; [lia|]. apply Forall_forall. intros t' Ht'.
    apply list_elem_of_lookup_1 in Ht' as (k & Hk).
    destruct (Forall2_lookup_r _ _ _ _ _ Htr Hk) as (t & _ & H & _). lia.
Qed.

Lemma stripgroups_keeps_groups_witness :
  exists m' reindex,
    stripgroups (Mesh [] [(0, 1, 2); (0, 2, 3)] [2; -1] [Some 5; Some 6; Some 7]%nat)
      = Ok (m', reindex)
    /\ tracks m' = [0; 0] /\ groups m' = [Some 7%nat] /\ reindex = [-1; -1; 0].
Proof.
  destruct (stripgroups_keeps_groups
    (Mesh [] [(0, 1, 2); (0, 2, 3)] [2; -1] [Some 5; Some 6; Some 7]%nat))
    as (m' & reindex & H & _).
  { repeat constructor; cbn; lia. }
  exists m', reindex. split; [exact H|]. vm_compute in H. injection H as <- <-. done.
Defined.

End StripMeshFacts.

Module MeshJoinFacts.
Import Mesh Strip StripFacts StripMeshFacts MeshJoin.

Lemma max_track_lt_iff (ts : list Z) (n : Z) :
  0 <= n -> (max_track ts < n <-> Forall (fun t => t < n) ts).
Proof.
  intros Hn. split; [|by apply max_track_bound].
  unfold max_track. destruct ts as [|t0 ts]; [constructor|].
  revert t0. induction ts as [|t1 ts IH]; intros t0; cbn [fold_left].
  - intros H. by repeat constructor.
  - intros H. specialize (IH _ H). apply Forall_cons in IH as [H01 IH].
    constructor; [lia|]. constructor; [lia|done].
Qed.

Lemma filter_zip_fst_snd {A B : Type} (l : list (A * B)) : zip (map fst l) (map snd l) = l.
Proof. induction l as [|[a b] l IH]; [done|]. cbn. by rewrite IH. Qed.

(** X22.  [group(groups)] keeps the points and the group definitions, and
    the faces whose track is in [groups], each with its track and in the
    same order.  Selecting again with the same groups changes nothing, and a
    mesh that passes [check] gives one that passes [check]. *)
Theorem group_selects (m : Mesh.t) (gs : gset Z) :
  points (group m gs) = points m /\ groups (group m gs) = groups m
  /\ zip (faces (group m gs)) (tracks (group m gs))
     = List.filter (fun ft : face * Z => bool_decide (ft.2 ∈ gs)) (zip (faces m) (tracks m))
  /\ length (faces (group m gs)) = length (tracks (group m gs))
  /\ Forall (fun t => t ∈ gs) (tracks (group m gs))
  /\ group (group m gs) gs = group m gs
  /\ (check m = Ok tt -> check (group m gs) = Ok tt).
Proof.
  unfold group. cbn [points faces tracks groups].
  set (kept := List.filter _ _).
  assert (Hk : forall ft, In ft kept -> In ft (zip (faces m) (tracks m)) /\ ft.2 ∈ gs).
  { intros ft H. apply filter_In in H as [H1 H2]. split; [done|]. by apply bool_decide_eq_true in H2. }
  split; [done|]. split; [done|]. split; [apply filter_zip_fst_snd|].
  split; [by rewrite !length_map|]. split.
  { apply Forall_forall. intros t Ht. apply list_elem_of_In, in_map_iff in Ht as (ft & <- & Hft).
    by apply Hk. }
  split.
  { f_equal; rewrite filter_zip_fst_snd; f_equal; unfold kept;
      apply forallb_filter_id, forallb_forall; intros ft Hft; apply filter_In in Hft as [_ H];
      exact H. }
  intros Hc. apply check_iff in Hc as (Hfs & Hlen & Hmax). apply check_iff.
  cbn [points faces tracks groups]. split; [|split; [by rewrite !length_map|]].
  - apply Forall_forall. intros f Hf. apply list_elem_of_In, in_map_iff in Hf as ([f' t] & <- & Hft).
    rewrite Forall_forall in Hfs. apply Hfs. apply Hk in Hft as [Hft _].
    apply list_elem_of_In in Hft. apply list_elem_of_lookup_1 in Hft as (i & Hi).
    apply lookup_zip_with_Some in Hi as (x & y & [= <- <-] & Hx & _).
    by eapply list_elem_of_lookup_2.
  - apply max_track_lt_iff; [lia|]. apply max_track_lt_iff in Hmax; [|lia].
    apply Forall_forall. intros t Ht. apply list_elem_of_In, in_map_iff in Ht as ([f' t'] & <- & Hft).
    rewrite Forall_forall in Hmax. apply Hmax. apply Hk in Hft as [Hft _].
    apply list_elem_of_In in Hft. apply list_elem_of_lookup_1 in Hft as (i & Hi).
    apply lookup_zip_with_Some in Hi as (x & y & [= <- <-] & _ & Hy).
    by eapply list_elem_of_lookup_2.
Qed.

(** *** Joining *)

Lemma py_index_app_l {A : Type} (l l' : list A) (p : Z) :
  0 <= p < Z.of_nat (length l) ->
  Triangulation.py_index (l ++ l') p = Triangulation.py_index l p.
Proof.
  intros H. unfold Triangulation.py_index, py_get.
  rewrite (proj2 (Z.leb_le 0 p)) by lia. by rewrite lookup_app_l by lia.
Qed.

Lemma py_index_app_r {A : Type} (l l' : list A) (p : Z) :
  0 <= p ->
  Triangulation.py_index (l ++ l') (p + Z.of_nat (length l)) = Triangulation.py_index l' p.
Proof.
  intros H. unfold Triangulation.py_index, py_get.
  rewrite (proj2 (Z.leb_le 0 p)) by lia.
  rewrite (proj2 (Z.leb_le 0 (p + Z.of_nat (length l)))) by lia.
  rewrite Z2Nat.inj_add, Nat2Z.id by lia.
  rewrite (lookup_app_r l l' (Z.to_nat p + length l)%nat) by (apply Nat.le_add_l).
  by rewrite Nat.add_sub.
Qed.

Lemma in_range_shift (n n' : nat) (f : face) :
  in_range n' f -> in_range (n + n') (shift_face (Z.of_nat n) f).
Proof.
  destruct f as [[a b] c]. unfold in_range, shift_face, corners. intros H p Hp.
  rewrite !elem_of_cons, elem_of_nil in Hp.
  pose proof (H a ltac:(set_solver)). pose proof (H b ltac:(set_solver)).
  pose proof (H c ltac:(set_solver)). destruct Hp as [->|[->|[->|[]]]]; lia.
Qed.

Lemma in_range_mono (n n' : nat) (f : face) : (n <= n')%nat -> in_range n f -> in_range n' f.
Proof. intros Hn H p Hp. specialize (H p Hp). lia. Qed.

Lemma face_degenerate_shift (lp : Z) (f : face) :
  face_degenerate (shift_face lp f) = face_degenerate f.
Proof.
  destruct f as [[a b] c]. unfold face_degenerate, shift_face.
  repeat case_bool_decide; try done; lia.
Qed.

(** X23.  The sum of two meshes that pass [check] passes [check].  Its
    faces are those of the first mesh followed by those of the second; each
    face still has the points it had in its own mesh, and each face of a
    track that is not negative still has its group.  [sp] and [sg] tell
    whether the two meshes share their buffer of points and of groups. *)
Theorem add_appends (sp sg : bool) (m other : Mesh.t) :
  (sp = true -> points other = points m) ->
  (sg = true -> groups other = groups m) ->
  check m = Ok tt -> check other = Ok tt ->
  check (add sp sg m other) = Ok tt
  /\ (exists fs2, faces (add sp sg m other) = faces m ++ fs2
        /\ Forall2 (fun f f' =>
             Forall2 (fun p p' => Triangulation.py_index (points (add sp sg m other)) p'
                                  = Triangulation.py_index (points other) p)
                     (corners f) (corners f')) (faces other) fs2)
  /\ (forall f p, f ∈ faces m -> p ∈ corners f ->
        Triangulation.py_index (points (add sp sg m other)) p
        = Triangulation.py_index (points m) p)
  /\ (exists ts2, tracks (add sp sg m other) = tracks m ++ ts2
        /\ Forall2 (fun t t' => 0 <= t ->
             Triangulation.py_index (groups (add sp sg m other)) t'
             = Triangulation.py_index (groups other) t) (tracks other) ts2)
  /\ (forall t, t ∈ tracks m -> 0 <= t ->
        Triangulation.py_index (groups (add sp sg m other)) t
        = Triangulation.py_index (groups m) t).
Proof.
  intros Hsp Hsg Hc1 Hc2.
  apply check_iff in Hc1 as (Hf1 & Hl1 & Hm1). apply check_iff in Hc2 as (Hf2 & Hl2 & Hm2).
  apply max_track_lt_iff in Hm1; [|lia]. apply max_track_lt_iff in Hm2; [|lia].
  unfold add. cbn [points faces tracks groups].
  split; [|split; [|split; [|split]]].
  - apply check_iff. cbn [points faces tracks groups]. split; [|split].
    + destruct sp; apply Forall_app.
      * split; [done|]. by rewrite <- (Hsp eq_refl).
      * split.
        -- eapply Forall_impl; [exact Hf1|]. intros f [H ?]. split; [|done].
           eapply in_range_mono; [|exact H]. rewrite length_app. lia.
        -- apply Forall_forall. intros f' Hf'.
           apply list_elem_of_In, in_map_iff in Hf' as (f & <- & Hf).
           rewrite Forall_forall in Hf2. destruct (Hf2 f) as [H ?]; [by apply list_elem_of_In|].
           rewrite face_degenerate_shift, length_app. split; [|done]. by apply in_range_shift.
    + destruct sp, sg; rewrite !length_app, ?length_map; lia.
    + apply max_track_lt_iff; [lia|]. destruct sg.
      * apply Forall_app. split; [done|]. by rewrite <- (Hsg eq_refl).
      * rewrite length_app. apply Forall_app. split.
        -- eapply Forall_impl; [exact Hm1|]. intros t Ht. cbn in Ht. lia.
        -- apply Forall_forall. intros t' Ht'.
           apply list_elem_of_In, in_map_iff in Ht' as (t & <- & Ht).
           rewrite Forall_forall in Hm2. specialize (Hm2 t (proj2 (list_elem_of_In _ _) Ht)).
           cbn in Hm2. lia.
  - destruct sp.
    + exists (faces other). split; [done|]. rewrite <- (Hsp eq_refl).
      apply Forall2_same_length_lookup. split; [done|]. intros k f f' Hk Hk'.
      assert (f' = f) as -> by congruence.
      apply Forall2_same_length_lookup. split; [done|]. intros i p p' Hi Hi'. congruence.
    + exists (map (shift_face (Z.of_nat (length (points m)))) (faces other)). split; [done|].
      apply Forall2_fmap_r, Forall_Forall2_diag. apply Forall_forall. intros [[a b] c] Hf.
      rewrite Forall_forall in Hf2. destruct (Hf2 _ Hf) as [H _].
      pose proof (H a ltac:(set_solver)). pose proof (H b ltac:(set_solver)).
      pose proof (H c ltac:(set_solver)).
      cbn [corners shift_face]. repeat constructor; apply py_index_app_r; lia.
  - intros f p Hf Hp. destruct sp; [done|]. apply py_index_app_l.
    rewrite Forall_forall in Hf1. destruct (Hf1 f Hf) as [H _]. apply (H p Hp).
  - destruct sg.
    + exists (tracks other). split; [done|]. rewrite <- (Hsg eq_refl).
      apply Forall_Forall2_diag. by apply Forall_forall.
    + exists (map (fun t => t + Z.of_nat (length (groups m))) (tracks other)). split; [done|].
      apply Forall2_fmap_r, Forall_Forall2_diag. apply Forall_forall. intros t Ht H0.
      by apply py_index_app_r.
  - intros t Ht H0. destruct sg; [done|]. apply py_index_app_l.
    rewrite Forall_forall in Hm1. specialize (Hm1 t Ht). cbn in Hm1. lia.
Qed.

Lemma add_appends_witness :
  check (add false false
    (Mesh [(0, 0, 0); (1, 0, 0); (0, 1, 0)]%Q [(0, 1, 2)] [0] [None])
    (Mesh [(5, 0, 0); (6, 0, 0); (5, 1, 0)]%Q [(0, 1, 2)] [0] [Some 1%nat])) = Ok tt
  /\ faces (add false false
    (Mesh [(0, 0, 0); (1, 0, 0); (0, 1, 0)]%Q [(0, 1, 2)] [0] [None])
    (Mesh [(5, 0, 0); (6, 0, 0); (5, 1, 0)]%Q [(0, 1, 2)] [0] [Some 1%nat]))
     = [(0, 1, 2); (3, 4, 5)].
Proof.
  split; [|reflexivity].
  apply (add_appends false false
    (Mesh [(0, 0, 0); (1, 0, 0); (0, 1, 0)]%Q [(0, 1, 2)] [0] [None])
    (Mesh [(5, 0, 0); (6, 0, 0); (5, 1, 0)]%Q [(0, 1, 2)] [0] [Some 1%nat]));
    try done; by vm_compute.
Defined.

End MeshJoinFacts.

Module MergeFacts.
Import Container Merge.

Lemma mergefaces_spec (merges : gmap Z pyval) (fs : list pyface) (ts : list Z) :
  length ts = length fs ->
  exists fs' ts',
    mergefaces merges fs ts = Ok (fs', ts')
    /\ zip fs' ts' = List.filter (fun ft : pyface * Z => negb (collapsed ft.1))
                                 (zip (map (remap_face merges) fs) ts)
    /\ length fs' = length ts'.
Proof.
  revert ts. induction fs as [|f fs IH]; intros [|t0 ts] Hlen; try done.
  - by exists [], [].
  - cbn [mergefaces]. injection Hlen as Hlen. destruct (IH ts Hlen) as (fs' & ts' & Hr & Hz & Hl).
    cbn [map zip zip_with List.filter]. fold (remap_face merges f).
    change (pyval_eqb (remap_face merges f).1.1 (remap_face merges f).1.2
            || pyval_eqb (remap_face merges f).1.2 (remap_face merges f).2
            || pyval_eqb (remap_face merges f).2 (remap_face merges f).1.1)
      with (collapsed (remap_face merges f)).
    cbn [fst]. destruct (collapsed (remap_face merges f)); cbn [negb].
    + exists fs', ts'. done.
    + cbn [tl]. rewrite Hr. cbn [rbind fst snd].
      exists (remap_face merges f :: fs'), (t0 :: ts'). split; [done|].
      split; [cbn; by rewrite Hz|cbn; by rewrite Hl].
Qed.

Lemma remap_resolved (merges : gmap Z pyval) (x : pyval) :
  resolved merges -> remap merges (remap merges x) = remap merges x.
Proof.
  intros Hr. destruct x as [|z]; [done|]. cbn [remap].
  destruct (merges !! z) as [v|] eqn:E; [by apply (Hr z)|]. cbn [remap]. by rewrite E.
Qed.

(** X24.  [mergepoints(merges)] on as many tracks as faces returns: the
    faces left are the faces rewritten through the dictionary that do not
    use a value twice, in their order and each with the track it had.  With
    a dictionary whose values are not remapped themselves, merging a second
    time changes nothing. *)
Theorem mergepoints_keeps_tracks (merges : gmap Z pyval) (fs : list pyface) (ts : list Z) :
  length ts = length fs ->
  exists fs' ts',
    mergefaces merges fs ts = Ok (fs', ts')
    /\ zip fs' ts' = List.filter (fun ft : pyface * Z => negb (collapsed ft.1))
                                 (zip (map (remap_face merges) fs) ts)
    /\ length fs' = length ts'
    /\ Forall (fun f => collapsed f = false) fs'
    /\ (resolved merges -> mergefaces merges fs' ts' = Ok (fs', ts')).
Proof.
  intros Hlen. destruct (mergefaces_spec merges fs ts Hlen) as (fs' & ts' & Hr & Hz & Hl).
  exists fs', ts'. split; [done|]. split; [done|]. split; [done|].
  assert (Hin : forall f, f ∈ fs' -> collapsed f = false /\ exists f0, f = remap_face merges f0).
  { intros f Hf. apply list_elem_of_lookup_1 in Hf as (i & Hi).
    destruct (lookup_lt_is_Some_2 ts' i) as [t Ht]; [rewrite <- Hl; by eapply lookup_lt_Some|].
    assert (Hft : In (f, t) (zip fs' ts')).
    { apply list_elem_of_In. apply list_elem_of_lookup_2 with i.
      apply lookup_zip_with_Some. by exists f, t. }
    rewrite Hz in Hft. apply filter_In in Hft as [Hft Hc]. cbn in Hc.
    split; [by apply negb_true_iff|].
    apply list_elem_of_In, list_elem_of_lookup_1 in Hft as (j & Hj).
    apply lookup_zip_with_Some in Hj as (x & y & [= <- <-] & Hx & _).
    change (map ?g ?l) with (g <$> l) in Hx. rewrite list_lookup_fmap in Hx.
    destruct (fs !! j) as [f0|]; [|done]. injection Hx as <-. by exists f0. }
  split; [apply Forall_forall; intros f Hf; by apply Hin|].
  intros Hres. destruct (mergefaces_spec merges fs' ts' (eq_sym Hl)) as (fs2 & ts2 & Hr2 & Hz2 & Hl2).
  rewrite Hr2.
  assert (Hid : List.filter (fun ft : pyface * Z => negb (collapsed ft.1))
                  (zip (map (remap_face merges) fs') ts') = zip fs' ts').
  { assert (Hm : map (remap_face merges) fs' = fs').
    { rewrite <- (map_id fs') at 2. apply map_ext_in. intros f Hf.
      destruct (Hin f (proj2 (list_elem_of_In _ _) Hf)) as [_ (f0 & ->)].
      unfold remap_face. cbn [fst snd]. by rewrite !remap_resolved. }
    rewrite Hm. apply forallb_filter_id, forallb_forall. intros [f t] Hft. cbn.
    apply negb_true_iff. apply Hin.
    apply list_elem_of_In, list_elem_of_lookup_1 in Hft as (j & Hj).
    apply lookup_zip_with_Some in Hj as (x & y & [= <- <-] & Hx & _).
    by eapply list_elem_of_lookup_2. }
  rewrite Hid in Hz2.
  assert (E1 : fs2 = fs').
  { rewrite <- (fst_zip fs2 ts2), <- (fst_zip fs' ts') by lia. by rewrite Hz2. }
  assert (E2 : ts2 = ts').
  { rewrite <- (snd_zip fs2 ts2), <- (snd_zip fs' ts') by lia. by rewrite Hz2. }
  by rewrite E1, E2.
Qed.

Lemma mergepoints_keeps_tracks_witness :
  mergefaces {[ 2 := PyInt 0 ]}
    [(PyInt 0, PyInt 1, PyInt 2); (PyInt 1, PyInt 2, PyInt 3)] [7; 8]
  = Ok ([(PyInt 1, PyInt 0, PyInt 3)], [8]).
Proof.
  destruct (mergepoints_keeps_tracks {[ 2 := PyInt 0 ]}
    [(PyInt 0, PyInt 1, PyInt 2); (PyInt 1, PyInt 2, PyInt 3)] [7; 8] eq_refl)
    as (fs' & ts' & H & _).
  by vm_compute.
Defined.

End MergeFacts.

Module WebFacts.
Import Web Strip StripFacts StripMeshFacts.

Lemma toggle_point_elem (s : gset Z) (p x : Z) :
  x ∈ toggle_point s p <-> (if decide (x = p) then x ∉ s else x ∈ s).
Proof. unfold toggle_point. destruct (decide (p ∈ s)), (decide (x = p)); set_solver. Qed.

Lemma fold_toggle_point_elem (l : list Z) (s : gset Z) (x : Z) :
  x ∈ fold_left toggle_point l s <->
  (if Nat.even (count_occ Z.eq_dec l x) then x ∈ s else x ∉ s).
Proof.
  revert s. induction l as [|p l IH]; intros s; [done|].
  cbn [fold_left count_occ]. rewrite IH.
  destruct (Z.eq_dec p x) as [->|Hne].
  - rewrite Nat.even_succ, <- Nat.negb_even.
    destruct (Nat.even _); cbn; rewrite toggle_point_elem; rewrite decide_True by done; [done|].
    split; [|tauto]. intros H. by destruct (decide (x ∈ s)).
  - destruct (Nat.even _); rewrite toggle_point_elem; by rewrite decide_False by done.
Qed.

Lemma extremities_flat (es : list edge) (s : gset Z) :
  fold_left (fun s e => toggle_point (toggle_point s e.1) e.2) es s
  = fold_left toggle_point (concat (map (fun e : edge => [e.1; e.2]) es)) s.
Proof. revert s. induction es as [|e es IH]; intros s; [done|]. cbn. apply IH. Qed.

Lemma count_occ_ends_flip (es : list edge) (x : Z) :
  count_occ Z.eq_dec (concat (map (fun e : edge => [e.1; e.2]) (map (fun e : edge => (e.2, e.1)) es))) x
  = count_occ Z.eq_dec (concat (map (fun e : edge => [e.1; e.2]) es)) x.
Proof.
  induction es as [|[a b] es IH]; [done|]. cbn [map concat fst snd app count_occ].
  rewrite IH. destruct (Z.eq_dec a x), (Z.eq_dec b x); done.
Qed.

(** X25.  [extremities()] holds the points that are an end of an odd number
    of edges (an edge from a point to itself counting twice): those used
    once, but also those used three times; flipping the edges does not
    change it. *)
Theorem extremities_odd (w : Web.t) (p : Z) :
  (p ∈ extremities w <-> Nat.odd (count_occ Z.eq_dec (ends w) p) = true)
  /\ extremities (flip w) = extremities w.
Proof.
  assert (H : forall w' x, x ∈ extremities w' <-> Nat.odd (count_occ Z.eq_dec (ends w') x) = true).
  { intros w' x. unfold extremities, ends. rewrite extremities_flat, fold_toggle_point_elem.
    rewrite <- Nat.negb_even. destruct (Nat.even _); cbn; set_solver. }
  split; [apply H|]. apply set_eq. intros x. rewrite !H. unfold ends, flip. cbn [edges].
  by rewrite count_occ_ends_flip.
Qed.

(** *** Counting the uses of a point *)

Lemma bump_ok (reached : list Z) (p : Z) :
  0 <= p < Z.of_nat (length reached) ->
  exists x, reached !! Z.to_nat p = Some x
    /\ bump reached p = Ok (<[ Z.to_nat p := x + 1 ]> reached).
Proof.
  intros Hp. unfold bump.
  destruct (py_index_ok reached p ltac:(lia)) as (x & -> & Hx). cbn [rbind].
  destruct (py_setitem_ok reached p (x + 1) ltac:(lia)) as [-> _].
  rewrite norm_nonneg in * by lia. by exists x.
Qed.

Lemma bump_all_spec (ps : list Z) (reached : list Z) :
  Forall (fun p => 0 <= p < Z.of_nat (length reached)) ps ->
  exists reached', bump_all reached ps = Ok reached' /\ length reached' = length reached
    /\ forall i x, reached !! i = Some x ->
         reached' !! i = Some (x + Z.of_nat (count_occ Z.eq_dec ps (Z.of_nat i))).
Proof.
  revert reached. induction ps as [|p ps IH]; intros reached Hps.
  - exists reached. split; [done|]. split; [done|]. intros i x Hi. cbn. by rewrite Z.add_0_r.
  - apply Forall_cons in Hps as [Hp Hps]. cbn [bump_all].
    destruct (bump_ok reached p Hp) as (x0 & Hx0 & ->). cbn [rbind].
    destruct (IH (<[ Z.to_nat p := x0 + 1 ]> reached)) as (reached' & -> & Hl & Hr).
    { by rewrite length_insert. }
    rewrite length_insert in Hl. exists reached'. split; [done|]. split; [done|].
    intros i x Hi. cbn [count_occ]. destruct (Z.eq_dec p (Z.of_nat i)) as [->|Hne].
    + rewrite Nat2Z.id in *. assert (x0 = x) as -> by congruence.
      rewrite (Hr i (x + 1)); [f_equal; lia|]. apply list_lookup_insert_eq.
      by apply lookup_lt_Some in Hi.
    + rewrite (Hr i x); [done|]. rewrite list_lookup_insert_ne by lia. done.
Qed.

(** X26.  When every end of every edge is the position of a point,
    [isline()] returns, and it answers [True] exactly when no point is an
    end of more than two edges. *)
Theorem isline_degree (w : Web.t) :
  Forall (fun p => 0 <= p < Z.of_nat (length (points w))) (ends w) ->
  exists b, isline w = Ok b
    /\ (b = true <-> forall p, (count_occ Z.eq_dec (ends w) p <= 2)%nat).
Proof.
  intros Hr. unfold isline.
  destruct (bump_all_spec (ends w) (replicate (length (points w)) 0)) as (reached & -> & Hl & Hc).
  { by rewrite length_replicate. }
  rewrite length_replicate in Hl. cbn [rbind]. eexists. split; [reflexivity|].
  rewrite forallb_forall. split.
  - intros H p. destruct (decide (0 <= p < Z.of_nat (length (points w)))) as [Hp|Hp].
    + specialize (Hc (Z.to_nat p) 0 ltac:(apply lookup_replicate_2; lia)).
      rewrite Z2Nat.id in Hc by lia.
      specialize (H _ (proj1 (list_elem_of_In _ _) (list_elem_of_lookup_2 _ _ _ Hc))).
      apply Z.leb_le in H. lia.
    + destruct (count_occ Z.eq_dec (ends w) p) eqn:E; [lia|].
      assert (Hin : In p (ends w)) by (apply (count_occ_In Z.eq_dec); lia).
      rewrite Forall_forall in Hr. specialize (Hr p (proj2 (list_elem_of_In _ _) Hin)). lia.
  - intros H r Hin. apply list_elem_of_In, list_elem_of_lookup_1 in Hin as (i & Hi).
    assert (Hi0 : replicate (length (points w)) 0 !! i = Some 0).
    { apply lookup_replicate_2. apply lookup_lt_Some in Hi. lia. }
    rewrite (Hc i 0 Hi0) in Hi. injection Hi as <-. apply Z.leb_le.
    specialize (H (Z.of_nat i)). lia.
Qed.

Lemma isline_degree_witness :
  isline (Web [(0, 0, 0); (1, 0, 0); (2, 0, 0); (3, 0, 0)]%Q [(0, 1); (1, 2); (1, 3)] [0; 0; 0] [None])
  = Ok false.
Proof.
  destruct (isline_degree
    (Web [(0, 0, 0); (1, 0, 0); (2, 0, 0); (3, 0, 0)]%Q [(0, 1); (1, 2); (1, 3)] [0; 0; 0] [None]))
    as (b & H & _).
  { repeat constructor; cbn; lia. }
  by vm_compute.
Defined.

End WebFacts.

Module WireFacts.
Import WireOps.

Lemma edges_from_spec (w : t) (n : nat) (i : nat) :
  (i + n < length (indices w) \/ n = 0)%nat ->
  edges_from w (seq i n) = Ok (take n (Triangulation.path_pairs (drop i (indices w)))).
Proof.
  revert i. induction n as [|n IH]; intros i H; [done|].
  cbn [seq edges_from]. unfold edge_at, py_get.
  destruct (lookup_lt_is_Some_2 (indices w) i ltac:(lia)) as [a Ha].
  destruct (lookup_lt_is_Some_2 (indices w) (S i) ltac:(lia)) as [b Hb].
  rewrite Ha, Hb. cbn [rbind]. rewrite IH by lia. cbn [rbind].
  rewrite (drop_S _ _ _ Ha), (drop_S _ _ _ Hb).
  change (Triangulation.path_pairs (a :: b :: drop (S (S i)) (indices w)))
    with ((a, b) :: Triangulation.path_pairs (b :: drop (S (S i)) (indices w))).
  done.
Qed.

Lemma path_pairs_length {A : Type} (l : list A) :
  length (Triangulation.path_pairs l) = (length l - 1)%nat.
Proof.
  induction l as [|a l IH]; [done|]. destruct l as [|b l]; [done|].
  change (Triangulation.path_pairs (a :: b :: l))
    with ((a, b) :: Triangulation.path_pairs (b :: l)).
  cbn [length] in *. lia.
Qed.

Lemma edges_path (w : t) : edges w = Ok (Triangulation.path_pairs (indices w)).
Proof.
  unfold edges. rewrite edges_from_spec by lia. rewrite drop_0.
  by rewrite take_ge by (rewrite path_pairs_length; lia).
Qed.

Lemma path_pairs_rev {A : Type} (l : list A) :
  Triangulation.path_pairs (rev l)
  = rev (map (fun e : A * A => (e.2, e.1)) (Triangulation.path_pairs l)).
Proof.
  induction l as [|a l IH]; [done|]. destruct l as [|b l]; [done|].
  change (Triangulation.path_pairs (a :: b :: l))
    with ((a, b) :: Triangulation.path_pairs (b :: l)).
  change (rev (a :: b :: l)) with (rev (b :: l) ++ [a]).
  change (map (fun e : A * A => (e.2, e.1)) ((a, b) :: Triangulation.path_pairs (b :: l)))
    with ((b, a) :: map (fun e : A * A => (e.2, e.1)) (Triangulation.path_pairs (b :: l))).
  change (rev ((b, a) :: ?x)) with (rev x ++ [(b, a)]).
  rewrite <- IH. change (rev (b :: l)) with (rev l ++ [b]).
  rewrite <- app_assoc. cbn [app].
  by rewrite TriangulationFacts.path_pairs_snoc2.
Qed.

Lemma path_pairs_snoc {A : Type} (l : list A) (y d : A) :
  l <> [] ->
  Triangulation.path_pairs (l ++ [y]) = Triangulation.path_pairs l ++ [(List.last l d, y)].
Proof.
  induction l as [|x l IH]; [done|]. intros _. destruct l as [|x' l]; [done|].
  change (Triangulation.path_pairs ((x :: x' :: l) ++ [y]))
    with ((x, x') :: Triangulation.path_pairs ((x' :: l) ++ [y])).
  rewrite IH by done. done.
Qed.

(** X27.  [edges()] is the list of the couples of successive indices.  The
    edges of the flipped wire are the edges reversed, in the reverse order,
    and flipping twice gives the wire back unless its tracks are an empty
    list, which a flip replaces by [None]. *)
Theorem wire_flip_edges (w : t) :
  edges w = Ok (Triangulation.path_pairs (indices w))
  /\ edges (flip w)
     = Ok (rev (map (fun e : edge => (e.2, e.1)) (Triangulation.path_pairs (indices w))))
  /\ indices (flip (flip w)) = indices w
  /\ (tracks w <> Some [] -> flip (flip w) = w).
Proof.
  split; [apply edges_path|]. split; [|split].
  - rewrite edges_path. unfold flip. cbn [indices]. by rewrite path_pairs_rev.
  - unfold flip. cbn [indices]. apply rev_involutive.
  - intros Hne. destruct w as [pts idx ts gs]. unfold flip. cbn [points indices tracks groups].
    rewrite rev_involutive. f_equal. destruct ts as [[|t0 ts]|]; [done| |done].
    clear Hne. destruct (exists_last (l:=t0 :: ts) ltac:(done)) as (l' & x & ->).
    rewrite removelast_last, last_last.
    destruct (rev l' ++ [x]) as [|y r] eqn:E; [by destruct (rev l')|].
    rewrite <- E. by rewrite removelast_last, last_last, rev_involutive.
Qed.

Lemma wire_flip_edges_witness :
  flip (flip (Wire [] [3; 4; 5] (Some [0; 1; 2]) [None])) = Wire [] [3; 4; 5] (Some [0; 1; 2]) [None]
  /\ tracks (flip (Wire [] [3; 4; 5] (Some [0; 1; 2]) [None])) = Some [1; 0; 2].
Proof.
  split; [|reflexivity].
  apply (proj2 (proj2 (proj2 (wire_flip_edges (Wire [] [3; 4; 5] (Some [0; 1; 2]) [None]))))).
  done.
Defined.

(** [close()] raises [IndexError] on a wire without index; otherwise
    it appends the first index, so that the edges become those of the
    closed line: the edges there were, then the edge from the last index to
    the first one. *)
Theorem close_appends (w : t) :
  (indices w = [] -> close w = Raise IndexError)
  /\ (forall i0 rest, indices w = i0 :: rest ->
        exists w', close w = Ok w'
          /\ indices w' = indices w ++ [i0]
          /\ edges w' = Ok (Triangulation.path_pairs (indices w) ++ [(List.last rest i0, i0)])).
Proof.
  split.
  - intros E. unfold close, py_get. by rewrite E.
  - intros i0 rest E. unfold close, py_get. rewrite E. cbn [lookup list_lookup rbind].
    eexists. split; [reflexivity|]. cbn [indices]. split; [done|].
    rewrite edges_path. cbn [indices]. f_equal.
    rewrite (path_pairs_snoc (i0 :: rest) i0 i0) by done. do 2 f_equal.
    by destruct rest.
Qed.

End WireFacts.

Module DichotomyFacts.
Import Dichotomy.

Lemma dichotomy_loop_eq {A : Type} (fuel : nat) (key : A -> Q) (l : list A) (index : Q)
    (start stop : nat) :
  dichotomy_loop fuel key l index start stop =
  if (start <? stop)%nat then
    match fuel with
    | O => OutOfFuel
    | S fuel' =>
        let mid := ((start + stop) / 2)%nat in
        x <-- py_get l mid ;;
        let val := key x in
        if Hashing.Qlt_bool val index then dichotomy_loop fuel' key l index (S mid) stop
        else if Hashing.Qlt_bool index val then dichotomy_loop fuel' key l index start mid
        else Ok mid
    end
  else Ok start.
Proof. by destruct fuel. Qed.

Lemma dichotomy_loop_spec {A : Type} (key : A -> Q) (l : list A) (index : Q) (fuel : nat) :
  forall start stop,
  (start <= stop <= length l)%nat -> (stop - start <= fuel)%nat ->
  exists r, dichotomy_loop fuel key l index start stop = Ok r
    /\ (start <= r <= stop)%nat
    /\ (ascending key l ->
        (forall i x, (i < start)%nat -> l !! i = Some x -> (key x < index)%Q) ->
        (forall i x, (stop <= i)%nat -> l !! i = Some x -> (index < key x)%Q) ->
        (exists x, l !! r = Some x /\ (key x == index)%Q)
        \/ ((forall i x, (i < r)%nat -> l !! i = Some x -> (key x < index)%Q)
            /\ (forall i x, (r <= i)%nat -> l !! i = Some x -> (index < key x)%Q))).
Proof.
  induction fuel as [|fuel IH]; intros start stop Hb Hf; rewrite dichotomy_loop_eq.
  - assert (start = stop) as -> by lia. rewrite Nat.ltb_irrefl.
    exists stop. split; [done|]. split; [lia|]. intros _ Hlo Hhi. by right.
  - destruct (Nat.ltb_spec start stop) as [Hlt|Hge].
    + cbv zeta. set (mid := ((start + stop) / 2)%nat).
      assert (Hmid : (start <= mid < stop)%nat).
      { unfold mid. split; [apply Nat.div_le_lower_bound; lia|apply Nat.div_lt_upper_bound; lia]. }
      destruct (lookup_lt_is_Some_2 l mid ltac:(lia)) as [x Hx].
      unfold py_get. rewrite Hx. cbn [rbind].
      destruct (Hashing.Qlt_bool (key x) index) eqn:E1.
      * apply MathutilsFacts.Qlt_bool_true in E1.
        destruct (IH (S mid) stop ltac:(lia) ltac:(lia)) as (r & -> & Hr & Hc).
        exists r. split; [done|]. split; [lia|]. intros Hs Hlo Hhi. apply Hc; [done| |done].
        intros i y Hi Hy. destruct (decide (i < start)%nat); [by eapply Hlo|].
        pose proof (Hs i mid y x ltac:(lia) Hy Hx). lra.
      * apply MathutilsFacts.Qlt_bool_false in E1.
        destruct (Hashing.Qlt_bool index (key x)) eqn:E2.
        -- apply MathutilsFacts.Qlt_bool_true in E2.
           destruct (IH start mid ltac:(lia) ltac:(lia)) as (r & -> & Hr & Hc).
           exists r. split; [done|]. split; [lia|]. intros Hs Hlo Hhi. apply Hc; [done|done|].
           intros i y Hi Hy. destruct (decide (stop <= i)%nat); [by eapply Hhi|].
           pose proof (Hs mid i x y ltac:(lia) Hx Hy). lra.
        -- apply MathutilsFacts.Qlt_bool_false in E2.
           exists mid. split; [done|]. split; [lia|]. intros _ _ _. left. exists x.
           split; [done|]. lra.
    + exists start. split; [done|]. split; [lia|]. intros _ Hlo Hhi. right.
      split; [done|]. intros i x Hi. apply Hhi. lia.
Qed.

(** X28.  [dichotomy_index(l, index, key)] ends within [len(l)] turns and
    returns a position not beyond the end of [l].  On a list whose keys are
    in ascending order it is the position of an element whose key is
    [index] when there is one, and otherwise the position where [index]
    would be inserted: the keys before it are less, those from it on are
    greater. *)
Theorem dichotomy_index_sorted {A : Type} (fuel : nat) (l : list A) (index : Q) (key : A -> Q) :
  (length l <= fuel)%nat ->
  exists r, dichotomy_index fuel l index key = Ok r
    /\ (r <= length l)%nat
    /\ (ascending key l ->
        (exists x, l !! r = Some x /\ (key x == index)%Q)
        \/ ((forall i x, (i < r)%nat -> l !! i = Some x -> (key x < index)%Q)
            /\ (forall i x, (r <= i)%nat -> l !! i = Some x -> (index < key x)%Q))).
Proof.
  intros Hf. unfold dichotomy_index.
  destruct (dichotomy_loop_spec key l index fuel 0 (length l) ltac:(lia) ltac:(lia))
    as (r & Hr & Hb & Hc).
  exists r. split; [done|]. split; [lia|]. intros Hs. apply Hc; [done|intros; lia|].
  intros i x Hi Hx. apply lookup_lt_Some in Hx. lia.
Qed.

Lemma dichotomy_index_sorted_witness :
  dichotomy_index 4 [1; 3; 5; 7]%Q 5 id = Ok 2%nat
  /\ dichotomy_index 4 [1; 3; 5; 7]%Q 4 id = Ok 2%nat.
Proof.
  destruct (dichotomy_index_sorted 4 [1; 3; 5; 7]%Q 5 id ltac:(cbn; lia)) as (r & H & _).
  split; by vm_compute.
Defined.

End DichotomyFacts.

Module PointAtFacts.
Import Vec PointAt.

Section WithSqrt.
Variable sqrtQ : Q -> Q.

Lemma pointat_from_spec (pts : list vec3) (i : nat) (point : vec3) (neigh : Q) :
  match pointat_from sqrtQ pts i point neigh with
  | Some r => exists k q, r = (i + k)%nat /\ pts !! k = Some q
      /\ (distance sqrtQ q point <= neigh)%Q
      /\ forall j p, (j < k)%nat -> pts !! j = Some p -> ~ (distance sqrtQ p point <= neigh)%Q
  | None => forall j p, pts !! j = Some p -> ~ (distance sqrtQ p point <= neigh)%Q
  end.
Proof.
  revert i. induction pts as [|p0 pts IH]; intros i; cbn [pointat_from]; [done|].
  destruct (Qle_bool (distance sqrtQ p0 point) neigh) eqn:E.
  - apply Qle_bool_iff in E. exists 0%nat, p0. split; [lia|]. split; [done|]. split; [done|].
    intros j p Hj. lia.
  - assert (Hn : ~ (distance sqrtQ p0 point <= neigh)%Q).
    { intros H%Qle_bool_iff. congruence. }
    specialize (IH (S i)). destruct (pointat_from sqrtQ pts (S i) point neigh) as [r|].
    + destruct IH as (k & q & -> & Hk & Hd & Hfirst). exists (S k), q.
      split; [lia|]. split; [done|]. split; [done|].
      intros [|j] p Hj Hp; [by injection Hp as <-|]. apply (Hfirst j p); [lia|done].
    + intros [|j] p Hp; [by injection Hp as <-|]. by apply (IH j p).
Qed.

(** X29.  [usepointat(point, neigh)] returns the position of the first point
    of the mesh within [neigh] of [point], the list of points being left as
    it is; when there is none, it appends [point] and returns its position.
    When [point] is within [neigh] of itself, asking again gives the same
    position and appends nothing. *)
Theorem usepointat_first (pts : list vec3) (point : vec3) (neigh : Q) :
  let '(pts', i) := usepointat sqrtQ pts point neigh in
  ((pts' = pts
    /\ (exists q, pts !! i = Some q /\ (distance sqrtQ q point <= neigh)%Q)
    /\ forall j p, (j < i)%nat -> pts !! j = Some p -> ~ (distance sqrtQ p point <= neigh)%Q)
   \/ (pts' = pts ++ [point] /\ i = List.length pts
       /\ forall j p, pts !! j = Some p -> ~ (distance sqrtQ p point <= neigh)%Q))
  /\ ((distance sqrtQ point point <= neigh)%Q -> usepointat sqrtQ pts' point neigh = (pts', i)).
Proof.
  unfold usepointat, pointat.
  pose proof (pointat_from_spec pts 0 point neigh) as H.
  destruct (pointat_from sqrtQ pts 0 point neigh) as [r|] eqn:E.
  - destruct H as (k & q & -> & Hk & Hd & Hfirst). cbn [Nat.add]. split.
    + left. split; [done|]. split; [by exists q|done].
    + intros _. cbn [Nat.add] in E. by rewrite E.
  - split; [right; done|]. intros Hself.
    pose proof (pointat_from_spec (pts ++ [point]) 0 point neigh) as H'.
    destruct (pointat_from sqrtQ (pts ++ [point]) 0 point neigh) as [r|].
    + destruct H' as (k & q & -> & Hk & Hd & Hfirst). cbn [Nat.add]. f_equal.
      destruct (Nat.lt_trichotomy k (List.length pts)) as [Hlt|[->|Hgt]]; [|done|].
      * rewrite lookup_app_l in Hk by done. by destruct (H k q Hk).
      * apply lookup_lt_Some in Hk. rewrite length_app in Hk. cbn in Hk. lia.
    + exfalso. apply (H' (List.length pts) point); [|done].
      rewrite lookup_app_r by lia. by rewrite Nat.sub_diag.
Qed.

End WithSqrt.

Lemma usepointat_first_witness :
  usepointat sqrt_exact [(0, 0, 0); (3, 4, 0)]%Q (3, 4, 0)%Q (1 # 2) = ([(0, 0, 0); (3, 4, 0)]%Q, 1%nat)
  /\ usepointat sqrt_exact [(0, 0, 0)]%Q (3, 4, 0)%Q (1 # 2) = ([(0, 0, 0); (3, 4, 0)]%Q, 1%nat).
Proof.
  pose proof (usepointat_first sqrt_exact [(0, 0, 0)]%Q (3, 4, 0)%Q (1 # 2)) as H.
  split; by vm_compute.
Defined.

End PointAtFacts.

Module PositionMapsFacts.
Import Hashing PositionMaps.

Lemma fkeys_keysfor (sqrtQ : Q -> Q) (fuel : nat) (m : PositionMap) (sp : fspace) :
  keysfor sqrtQ fuel m (to_space sp) = (ks <-- fkeys m sp ;; Ok (map Some ks)).
Proof. destruct sp; cbn [to_space keysfor fkeys rbind map]; reflexivity. Qed.

Lemma fkeys_cellsize (m m' : PositionMap) (sp : fspace) :
  pm_cellsize m' = pm_cellsize m -> fkeys m' sp = fkeys m sp.
Proof. intros H. destruct sp; cbn [fkeys]; rewrite H; reflexivity. Qed.

Lemma add_keys_lookup (obj : nat) (ks : list cell) (d : gmap cell (list nat)) (k : cell) :
  default [] (fold_left (add_key obj) ks d !! k)
  = default [] (d !! k) ++ replicate (count_occ (decide_rel eq) ks k) obj.
Proof.
  revert d. induction ks as [|k0 ks IH]; intros d; cbn [fold_left count_occ].
  - by rewrite app_nil_r.
  - rewrite IH. unfold add_key. destruct (decide_rel eq k0 k) as [->|Hne].
    + destruct (d !! k) as [l|] eqn:E; rewrite lookup_insert_eq; cbn [default replicate];
        unfold id.
      * by rewrite <- app_assoc.
      * done.
    + destruct (d !! k0) as [l|]; by rewrite lookup_insert_ne.
Qed.

(** X30.  When [keysfor(space)] returns, [add(space, obj)] returns and keeps
    the cell size; if at least one key was yielded, [get(space)] then yields
    [obj].  Whatever [get] yielded for any space before the call it still
    yields, in the same order, and the only new object it can yield is
    [obj]. *)
Theorem add_then_get (m : PositionMap) (sp : fspace) (obj : nat) (ks : list cell) :
  fkeys m sp = Ok ks ->
  exists m', add m sp obj = Ok m'
    /\ pm_cellsize m' = pm_cellsize m
    /\ (ks <> [] -> exists l, get m' sp = Ok l /\ obj ∈ l)
    /\ (forall sp' l, get m sp' = Ok l ->
          exists l', get m' sp' = Ok l' /\ sublist l l'
            /\ forall x, x ∈ l' -> x ∈ l \/ x = obj).
Proof.
  intros Hk. unfold add. rewrite Hk. cbn [rbind]. eexists. split; [reflexivity|].
  split; [done|].
  set (m' := {| pm_cellsize := pm_cellsize m;
                pm_dict := fold_left (add_key obj) ks (pm_dict m) |}).
  assert (Hfk : forall sp', fkeys m' sp' = fkeys m sp').
  { intros sp'. apply fkeys_cellsize. reflexivity. }
  split.
  - intros Hne. unfold get. rewrite Hfk, Hk. cbn [rbind]. eexists. split; [reflexivity|].
    destruct ks as [|k0 ks']; [done|]. cbn [map concat]. apply elem_of_app. left.
    unfold m'. cbn [pm_dict]. rewrite add_keys_lookup. apply elem_of_app. right.
    cbn [count_occ]. destruct (decide_rel eq k0 k0); [|done]. cbn. by left.
  - intros sp' l Hg. unfold get in *. rewrite Hfk.
    destruct (fkeys m sp') as [ks'| |]; cbn [rbind] in *; try done. injection Hg as <-.
    eexists. split; [reflexivity|].
    assert (E : map (fun k => default [] (pm_dict m' !! k)) ks'
      = map (fun l => l.1 ++ replicate (count_occ (decide_rel eq) ks l.2) obj)
            (map (fun k => (default [] (pm_dict m !! k), k)) ks')).
    { rewrite map_map. apply map_ext. intros k. unfold m'. cbn [pm_dict fst snd].
      apply add_keys_lookup. }
    rewrite E. clear E. split.
    + induction ks' as [|k ks' IH]; [done|]. cbn [map concat fst snd].
      apply sublist_app; [|done]. by apply sublist_inserts_r.
    + intros x Hx. apply list_elem_of_In, in_concat in Hx as (l0 & Hl0 & Hx).
      apply in_map_iff in Hl0 as ([l1 k] & <- & Hl1). cbn [fst snd] in Hx.
      apply in_map_iff in Hl1 as (k' & [= <- <-] & Hk').
      apply in_app_iff in Hx as [Hx|Hx].
      * left. apply list_elem_of_In, in_concat. eexists. split; [|exact Hx].
        apply in_map_iff. by exists k'.
      * right. apply list_elem_of_In, elem_of_replicate in Hx as [-> _]. done.
Qed.

Lemma add_then_get_witness :
  exists m', add unit_map (FPoint (1 # 2, 0, 0)%Q) 7 = Ok m'
    /\ get m' (FPoint (1 # 3, 1 # 3, 0)%Q) = Ok [7%nat]
    /\ get m' (FPoint (3 # 2, 0, 0)%Q) = Ok [].
Proof.
  destruct (add_then_get unit_map (FPoint (1 # 2, 0, 0)%Q) 7 _ eq_refl) as (m' & H & _).
  exists m'. split; [exact H|]. vm_compute in H. injection H as <-. split; by vm_compute.
Defined.

End PositionMapsFacts.
